(** * FontArchitect: glyph detection, atlas packing and BMFont export

    A shallow embedding of the TypeScript services of the repository
    (imageProcessor, texturePacker, fntGenerator, geminiService and the
    identification handler of App.tsx), followed by the properties the
    specification states about them.

    Numbers.  Every coordinate and size is an integer in the code paths
    modelled here (pixel indices, differences and sums of them), so a JS
    [number] is a [Z].  The few places where the source leaves the integers
    (multiplying by 0.5 and by 1.1, dividing by 2 and by 1.5) are computed in
    [Q], exactly; the comparisons that follow come out as they do on doubles
    for images and atlases of any realistic size.

    Arrays.  A JS array is a [list]; [a[i]] is stdpp's [a !! i], an in-place
    write of an element is [<[i:=v]> a], and [a.splice(j, 1)] is [delete j a].

    Strings.  A JS string is its sequence of UTF-16 code units. *)

From Stdlib Require Import ZArith QArith Qminmax Qabs Qround Lia Lqa.
From Stdlib Require Import String Ascii Decimal DecimalPos DecimalZ.
From stdpp Require Import list sorting gmap.

Local Open Scope Z_scope.

(** ** JavaScript values *)

Module JS.

(** A string is a list of UTF-16 code units, each in [0, 65535]. *)
Definition jsstring := list Z.

Definition code_unit (c : Z) : Prop := 0 <= c < 65536.

Definition wf_string (s : jsstring) : Prop := Forall code_unit s.

(** A source-text literal (ASCII) as a JS string. *)
Definition lit (s : string) : jsstring :=
  map (fun a => Z.of_N (N_of_ascii a)) (list_ascii_of_string s).

Definition isHighSurrogate (c : Z) : bool := (55296 <=? c) && (c <=? 56319).
Definition isLowSurrogate (c : Z) : bool := (56320 <=? c) && (c <=? 57343).

(** [s.charCodeAt(0)]: the first code unit ([NaN], here [None], for the
    empty string). *)
Definition charCodeAt0 (s : jsstring) : option Z := head s.

(** The Unicode code point of the first character of [s] (what
    [s.codePointAt(0)] gives): a high surrogate followed by a low one is one
    character outside the Basic Multilingual Plane. *)
Definition codePointAt0 (s : jsstring) : option Z :=
  match s with
  | [] => None
  | hi :: rest =>
      match rest with
      | lo :: _ =>
          if isHighSurrogate hi && isLowSurrogate lo
          then Some ((hi - 55296) * 1024 + (lo - 56320) + 65536)
          else Some hi
      | [] => Some hi
      end
  end.

(** The string starts with a character outside the Basic Multilingual
    Plane. *)
Definition startsWithSurrogatePair (s : jsstring) : bool :=
  match s with
  | hi :: lo :: _ => isHighSurrogate hi && isLowSurrogate lo
  | _ => false
  end.

(** [Array.prototype.sort(cmp)]: a stable sort (ECMAScript 2019).  With a
    consistent comparator every stable sort returns the same array; the
    model is the stable insertion sort. *)
Section Sort.
Context {A : Type} (cmp : A -> A -> Z).

Fixpoint insert_sorted (a : A) (l : list A) : list A :=
  match l with
  | [] => [a]
  | b :: l' => if cmp a b <=? 0 then a :: b :: l' else b :: insert_sorted a l'
  end.

Fixpoint sort (l : list A) : list A :=
  match l with
  | [] => []
  | a :: l' => insert_sorted a (sort l')
  end.

(** The comparator puts [a] no later than [b]. *)
Definition inOrder (a b : A) : Prop := cmp a b <= 0.
End Sort.

End JS.

(** ** types.ts *)

Module Glyph.
Record t : Type := mk {
  id : Z;
  char : JS.jsstring;
  x : Z;
  y : Z;
  width : Z;
  height : Z;
  xoffset : Z;
  yoffset : Z;
  xadvance : Z
}.
End Glyph.

Abbreviation Glyph := Glyph.t.

Module FontSettings.
Record t : Type := mk {
  face : JS.jsstring;
  size : Z;
  bold : bool;
  italic : bool;
  lineHeight : Z;
  base : Z;
  scaleW : Z;
  scaleH : Z;
  tracking : Z
}.
End FontSettings.

(** ** services/imageProcessor.ts *)

(** The pixels [ctx.getImageData(0, 0, width, height)] returns for the image
    drawn on the canvas: [data] is the RGBA byte array, four entries a pixel,
    in row-major order. *)
Module ImageData.
Record t : Type := mk {
  width : Z;
  height : Z;
  data : list Z
}.
End ImageData.

Module ImageProcessor.

Definition Qltb (a b : Q) : bool := negb (Qle_bool b a).

(** *** isContentPixel

    A read past the end of a typed array is [undefined], which is [None]
    here; arithmetic on it is [NaN] and every comparison with [NaN] is
    false.  [Math.sqrt(n) > tolerance] is [n > tolerance * tolerance] for an
    integer [n] and a tolerance that is not negative (it is always 20). *)
Definition defaultTolerance : Z := 20.

Definition isContentPixel (data : list Z) (idx : Z)
           (bgR bgG bgB bgA : option Z) (tolerance : Z) : bool :=
  let r := data !! Z.to_nat idx in
  let g := data !! Z.to_nat (idx + 1) in
  let b := data !! Z.to_nat (idx + 2) in
  let a := data !! Z.to_nat (idx + 3) in
  match bgA with
  | Some 0 =>
      match a with
      | Some a => tolerance <? a
      | None => false
      end
  | _ =>
      match r, g, b, bgR, bgG, bgB with
      | Some r, Some g, Some b, Some bgR, Some bgG, Some bgB =>
          tolerance * tolerance
            <? (r - bgR) ^ 2 + (g - bgG) ^ 2 + (b - bgB) ^ 2
      | _, _, _, _, _, _ => false
      end
  end.

(** *** Step 1 of detectGlyphs: connected component labelling *)

Section Scan.
Variables (width height : Z) (data : list Z).

Let bgR := data !! 0%nat.
Let bgG := data !! 1%nat.
Let bgB := data !! 2%nat.
Let bgA := data !! 3%nat.

Definition isVisited (visited : list bool) (pixelIndex : Z) : bool :=
  match visited !! Z.to_nat pixelIndex with
  | Some v => v
  | None => false
  end.

(** The running extents of a blob. *)
Record extents : Type := mkExtents { minX : Z; maxX : Z; minY : Z; maxY : Z }.

Definition neighbors (cx cy : Z) : list (Z * Z) :=
  [ (cx + 1, cy); (cx - 1, cy); (cx, cy + 1); (cx, cy - 1) ].

(** The body of [for (const { nx, ny } of neighbors)], on the pair of the
    queue and the visited array. *)
Definition visitNeighbor (st : list Z * list bool) (n : Z * Z)
  : list Z * list bool :=
  let '(queue, visited) := st in
  let '(nx, ny) := n in
  if (0 <=? nx) && (nx <? width) && (0 <=? ny) && (ny <? height) then
    let nIdx := ny * width + nx in
    if negb (isVisited visited nIdx) then
      let dataIdx := nIdx * 4 in
      if isContentPixel data dataIdx bgR bgG bgB bgA defaultTolerance then
        (queue ++ [nIdx], <[Z.to_nat nIdx := true]> visited)
      else st
    else st
  else st.

Definition stretch (e : extents) (cx cy : Z) : extents :=
  {| minX := if cx <? minX e then cx else minX e;
     maxX := if maxX e <? cx then cx else maxX e;
     minY := if cy <? minY e then cy else minY e;
     maxY := if maxY e <? cy then cy else maxY e |}.

(** [while (queue.length > 0)].  Every iteration shifts one index off the
    queue and every pushed index was unvisited before, so the loop runs
    at most once a pixel (lemma [floodFill_fuel]). *)
Fixpoint floodFill (fuel : nat) (queue : list Z) (visited : list bool)
         (e : extents) : list bool * extents :=
  match fuel with
  | O => (visited, e)
  | S fuel' =>
      match queue with
      | [] => (visited, e)
      | curr :: queue' =>
          let cy := curr / width in
          let cx := Z.rem curr width in
          let e' := stretch e cx cy in
          let '(queue'', visited') :=
            fold_left visitNeighbor (neighbors cx cy) (queue', visited) in
          floodFill fuel' queue'' visited' e'
      end
  end.

(** The number of entries of the visited array that are still 0: with the
    length of the queue, the measure that bounds the loop. *)
Fixpoint unvisited (visited : list bool) : nat :=
  match visited with
  | [] => 0%nat
  | v :: visited' => ((if v then 0 else 1) + unvisited visited')%nat
  end.

Definition newBlob (glyphIdCounter : Z) (e : extents) (w h : Z) : Glyph :=
  {| Glyph.id := glyphIdCounter;
     Glyph.char := [];
     Glyph.x := minX e;
     Glyph.y := minY e;
     Glyph.width := w;
     Glyph.height := h;
     Glyph.xoffset := 0;
     Glyph.yoffset := 0;
     Glyph.xadvance := w + 1 |}.

(** The state the two scanning loops carry: the visited array, the blobs
    found so far and the id counter. *)
Definition scanState : Type := list bool * list Glyph * Z.

(** The body of [for (let x = 0; x < width; x++)] in row [y]. *)
Definition scanPixel (y : Z) (st : scanState) (x : Z) : scanState :=
  let '(visited, rawGlyphs, glyphIdCounter) := st in
  let idx := (y * width + x) * 4 in
  let pixelIndex := y * width + x in
  if isVisited visited pixelIndex then st
  else if isContentPixel data idx bgR bgG bgB bgA defaultTolerance then
    let visited1 := <[Z.to_nat pixelIndex := true]> visited in
    let '(visited2, e) :=
      floodFill (Z.to_nat (width * height)) [pixelIndex] visited1
                (mkExtents x x y y) in
    let w := maxX e - minX e + 1 in
    let h := maxY e - minY e + 1 in
    if (0 <? w) && (0 <? h)
    then (visited2, rawGlyphs ++ [newBlob glyphIdCounter e w h],
          glyphIdCounter + 1)
    else (visited2, rawGlyphs, glyphIdCounter)
  else st.

Definition scanRow (st : scanState) (y : Z) : scanState :=
  fold_left (scanPixel y) (seqZ 0 width) st.

Definition extractBlobs : list Glyph :=
  let visited := replicate (Z.to_nat (width * height)) false in
  let '(_, rawGlyphs, _) :=
    fold_left scanRow (seqZ 0 height) (visited, [], 0) in
  rawGlyphs.
End Scan.

(** *** Step 2 of detectGlyphs: merging vertical components *)

Definition overlapX (g1 g2 : Glyph) : Z :=
  let x1 := Z.max (Glyph.x g1) (Glyph.x g2) in
  let x2 := Z.min (Glyph.x g1 + Glyph.width g1) (Glyph.x g2 + Glyph.width g2) in
  x2 - x1.

Definition isHorizAligned (g1 g2 : Glyph) : bool := 0 <? overlapX g1 g2.

Definition distY (g1 g2 : Glyph) : Z :=
  let bottom1 := Glyph.y g1 + Glyph.height g1 in
  let top2 := Glyph.y g2 in
  top2 - bottom1.

Definition maxDim (g1 g2 : Glyph) : Z := Z.max (Glyph.height g1) (Glyph.height g2).

Definition allowedGap (g1 g2 : Glyph) : Q :=
  Qmax 5 (inject_Z (maxDim g1 g2) * 0.5)%Q.

(** The guard of the merge, [distY >= -5 && distY < allowedGap]. *)
Definition closeEnough (g1 g2 : Glyph) : bool :=
  (-5 <=? distY g1 g2) && Qltb (inject_Z (distY g1 g2)) (allowedGap g1 g2).

Definition shouldMerge (g1 g2 : Glyph) : bool :=
  isHorizAligned g1 g2 && closeEnough g1 g2.

(** "MERGE g2 into g1": the fields written to [g1]. *)
Definition mergeInto (g1 g2 : Glyph) : Glyph :=
  let newX := Z.min (Glyph.x g1) (Glyph.x g2) in
  let newY := Z.min (Glyph.y g1) (Glyph.y g2) in
  let newMaxX := Z.max (Glyph.x g1 + Glyph.width g1) (Glyph.x g2 + Glyph.width g2) in
  let newMaxY := Z.max (Glyph.y g1 + Glyph.height g1) (Glyph.y g2 + Glyph.height g2) in
  {| Glyph.id := Glyph.id g1;
     Glyph.char := Glyph.char g1;
     Glyph.x := newX;
     Glyph.y := newY;
     Glyph.width := newMaxX - newX;
     Glyph.height := newMaxY - newY;
     Glyph.xoffset := Glyph.xoffset g1;
     Glyph.yoffset := Glyph.yoffset g1;
     Glyph.xadvance := (newMaxX - newX) + 1 |}.

(** The inner [for j] loop at row [i], from index [j] on; [rest] is
    [rawGlyphs.slice(j)].  [Some l'] is the array after the merge that
    broke out of the loop, [None] a loop that ran to its end. *)
Fixpoint innerLoop (rawGlyphs : list Glyph) (i : nat) (g1 : Glyph)
         (j : nat) (rest : list Glyph) : option (list Glyph) :=
  match rest with
  | [] => None
  | g2 :: rest' =>
      if Nat.eqb i j then innerLoop rawGlyphs i g1 (S j) rest'
      else if shouldMerge g1 g2
           then Some (delete j (<[i := mergeInto g1 g2]> rawGlyphs))
           else innerLoop rawGlyphs i g1 (S j) rest'
  end.

(** The outer [for i] loop from index [i] on. *)
Fixpoint outerLoop (rawGlyphs : list Glyph) (i : nat) (rest : list Glyph)
  : option (list Glyph) :=
  match rest with
  | [] => None
  | g1 :: rest' =>
      match innerLoop rawGlyphs i g1 0 rawGlyphs with
      | Some l' => Some l'
      | None => outerLoop rawGlyphs (S i) rest'
      end
  end.

Definition sortByY : list Glyph -> list Glyph :=
  JS.sort (fun a b => Glyph.y a - Glyph.y b).

(** One pass of the two nested loops over the sorted array. *)
Definition mergePass (sorted : list Glyph) : option (list Glyph) :=
  outerLoop sorted 0 sorted.

(** [while (mergedOccurred)]: every iteration sorts and runs one pass.  A
    merge removes an element, so [S (length rawGlyphs)] iterations are
    enough (lemma [mergeLoop_fixed]). *)
Fixpoint mergeLoopFuel (fuel : nat) (rawGlyphs : list Glyph) : list Glyph :=
  match fuel with
  | O => rawGlyphs
  | S fuel' =>
      let sorted := sortByY rawGlyphs in
      match mergePass sorted with
      | Some merged => mergeLoopFuel fuel' merged
      | None => sorted
      end
  end.

Definition mergeLoop (rawGlyphs : list Glyph) : list Glyph :=
  mergeLoopFuel (S (length rawGlyphs)) rawGlyphs.

(** *** What the specification says of the merger *)

(** One merge: [g2], at index [j], is merged into [g1], at index [i], and
    spliced out. *)
Inductive mergeStep (l : list Glyph) : list Glyph -> Prop :=
| merge_at (i j : nat) (g1 g2 : Glyph) :
    l !! i = Some g1 -> l !! j = Some g2 -> i <> j ->
    shouldMerge g1 g2 = true ->
    mergeStep l (delete j (<[i := mergeInto g1 g2]> l)).

(** The invariant of the data model: a blob has a positive width and
    height. *)
Definition positiveSize (g : Glyph) : Prop :=
  0 < Glyph.width g /\ 0 < Glyph.height g.

(** The bounding box of [outer] contains that of [inner]. *)
Definition contains (outer inner : Glyph) : Prop :=
  Glyph.x outer <= Glyph.x inner /\
  Glyph.y outer <= Glyph.y inner /\
  Glyph.x inner + Glyph.width inner <= Glyph.x outer + Glyph.width outer /\
  Glyph.y inner + Glyph.height inner <= Glyph.y outer + Glyph.height outer.

Definition area (g : Glyph) : Z := Glyph.width g * Glyph.height g.

Definition advanceFits (g : Glyph) : Prop :=
  Glyph.xadvance g = Glyph.width g + 1.

(** What every blob satisfies when it is created: the sizes are positive (the
    guard [w > 0 && h > 0]) and the advance is the width plus one. *)
Definition freshBlob (g : Glyph) : Prop := positiveSize g /\ advanceFits g.

(** The rule in the words of the specification, for [g1] above and [g2]
    below: [-5 <= distY < max(5, 0.5 * max(height(g1), height(g2)))] with
    [distY = top(g2) - bottom(g1)]. *)
Definition gapWithinThreshold (g1 g2 : Glyph) : Prop :=
  let gap := Glyph.y g2 - (Glyph.y g1 + Glyph.height g1) in
  -5 <= gap /\
  (inject_Z gap
   < Qmax 5 (0.5 * inject_Z (Z.max (Glyph.height g1) (Glyph.height g2))))%Q.

(** The merger run on two blobs alone leaves one glyph. *)
Definition mergedTogether (a b : Glyph) : Prop :=
  length (mergeLoop [a; b]) = 1%nat.

(** The rule as the specification's property words it: of two blobs that
    overlap horizontally, [upper] the one that starts higher, the merger
    makes one exactly when the gap from the bottom of [upper] to the top of
    [lower] is within the threshold. *)
Definition claimedMergeRule : Prop :=
  forall upper lower : Glyph,
    Glyph.y upper <= Glyph.y lower ->
    0 < overlapX upper lower ->
    (mergedTogether upper lower <-> gapWithinThreshold upper lower).

(** *** Step 3: rough reading order *)

Definition roughCompare (a b : Glyph) : Z :=
  if 20 <? Z.abs (Glyph.y a - Glyph.y b)
  then Glyph.y a - Glyph.y b
  else Glyph.x a - Glyph.x b.

(** *** Step 4: grouping into rows *)

Definition joinsRow (g : Glyph) (currentRowY currentRowH : Z) : bool :=
  let centerG : Q := (inject_Z (Glyph.y g) + inject_Z (Glyph.height g) / 2)%Q in
  let centerRow : Q := (inject_Z currentRowY + inject_Z currentRowH / 2)%Q in
  Qltb (Qabs (centerG - centerRow))
       (inject_Z (Z.max (Glyph.height g) currentRowH) / 1.5)%Q.

(** [for (let i = 1; ...)] over [rest = rawGlyphs.slice(i)], and the
    [rows.push(currentRow)] that follows it. *)
Fixpoint groupLoop (rest : list Glyph) (rows : list (list Glyph))
         (currentRow : list Glyph) (currentRowY currentRowH : Z)
  : list (list Glyph) :=
  match rest with
  | [] => rows ++ [currentRow]
  | g :: rest' =>
      if joinsRow g currentRowY currentRowH then
        let currentRowY' := Z.min currentRowY (Glyph.y g) in
        let currentRowH' :=
          Z.max currentRowH (Glyph.height g + (Glyph.y g - currentRowY')) in
        groupLoop rest' rows (currentRow ++ [g]) currentRowY' currentRowH'
      else
        groupLoop rest' (rows ++ [currentRow]) [g] (Glyph.y g) (Glyph.height g)
  end.

Definition groupRows (rawGlyphs : list Glyph) : list (list Glyph) :=
  match rawGlyphs with
  | [] => []
  | g0 :: rest => groupLoop rest [] [g0] (Glyph.y g0) (Glyph.height g0)
  end.

(** *** Step 5: offsets within each row *)

(** [Math.min(...ys)]; [None] is the [Infinity] of an empty argument list. *)
Definition mathMin (ys : list Z) : option Z :=
  match ys with
  | [] => None
  | y0 :: ys' => Some (fold_left Z.min ys' y0)
  end.

Definition setYoffset (rowMinY : Z) (g : Glyph) : Glyph :=
  {| Glyph.id := Glyph.id g;
     Glyph.char := Glyph.char g;
     Glyph.x := Glyph.x g;
     Glyph.y := Glyph.y g;
     Glyph.width := Glyph.width g;
     Glyph.height := Glyph.height g;
     Glyph.xoffset := Glyph.xoffset g;
     Glyph.yoffset := Glyph.y g - rowMinY;
     Glyph.xadvance := Glyph.xadvance g |}.

(** The body of [rows.forEach]: the glyphs the row appends to
    [finalGlyphs].  An empty row has no minimum and its [forEach] runs no
    iteration. *)
Definition processRow (row : list Glyph) : list Glyph :=
  match mathMin (Glyph.y <$> row) with
  | Some rowMinY =>
      setYoffset rowMinY <$> JS.sort (fun a b => Glyph.x a - Glyph.x b) row
  | None => []
  end.

(** Steps 3 to 5.  The comparator of step 3 is not an ordering (it is not
    transitive), so engines may disagree on the array it leaves; what is
    proved below of the rows uses only that sorting permutes the array. *)
Definition organizeRows (rawGlyphs : list Glyph) : list Glyph :=
  let sorted := JS.sort roughCompare rawGlyphs in
  let rows := groupRows sorted in
  concat (processRow <$> rows).

(** *** detectGlyphs

    [ctx] is the 2D context of the canvas with the pixels it reads back for
    the image, or [None] when [canvas.getContext] returns [null]. *)
Definition detectGlyphs (ctx : option ImageData.t) : list Glyph :=
  match ctx with
  | None => []
  | Some imageData =>
      let rawGlyphs :=
        extractBlobs (ImageData.width imageData) (ImageData.height imageData)
                     (ImageData.data imageData) in
      organizeRows (mergeLoop rawGlyphs)
  end.

End ImageProcessor.

(** ** services/texturePacker.ts *)

Module TexturePacker.

(** An entry of [items].  Its [canvas], the crop of the glyph's pixels, is
    left out: the layout reads sizes only. *)
Record item : Type := mkItem {
  id : Z;
  w : Z;
  h : Z;
  originalGlyph : Glyph
}.

Definition toItem (g : Glyph) : item :=
  {| id := Glyph.id g; w := Glyph.width g; h := Glyph.height g;
     originalGlyph := g |}.

(** [{ ...item, newX, newY }] *)
Record packedItem : Type := mkPacked {
  packed : item;
  newX : Z;
  newY : Z
}.

Record atlas : Type := mkAtlas {
  glyphs : list Glyph;
  width : Z;
  height : Z
}.

Definition padding : Z := 2.

Definition totalArea (items : list item) : Z :=
  fold_left (fun acc it => acc + w it * h it) items 0.

(** [Math.ceil(Math.sqrt(totalArea * 1.1))]: the least integer whose square
    reaches the product, and 0 (for the comparison that follows, like the
    [NaN] of the source) when the product is not positive.  The double
    nearest to 1.1 lies above it, so the source can get one more than this
    when 1.1 times the area is a perfect square; such a side is a multiple
    of 11, never a power of two, and the width chosen below is the same. *)
Definition side (totalArea : Z) : Z :=
  Z.sqrt_up (Qceiling (inject_Z totalArea * 1.1)%Q).

(** [while (targetWidth < side) targetWidth *= 2]. *)
Fixpoint growWidth (fuel : nat) (targetWidth side : Z) : Z :=
  match fuel with
  | O => targetWidth
  | S fuel' =>
      if targetWidth <? side then growWidth fuel' (targetWidth * 2) side
      else targetWidth
  end.

(** [Z.log2_up side] doublings are enough (lemma [growWidth_reaches]). *)
Definition chooseWidth (side : Z) : Z :=
  growWidth (Z.to_nat (Z.log2_up side)) 128 side.

(** The cursor of the shelf packer and the items placed so far. *)
Record cursor : Type := mkCursor {
  cur_x : Z;
  cur_y : Z;
  currentRowHeight : Z;
  packedItems : list packedItem
}.

(** The body of [items.forEach]. *)
Definition placeItem (targetWidth : Z) (c : cursor) (it : item) : cursor :=
  let '(x, y, rowHeight) :=
    if targetWidth <? cur_x c + w it + padding
    then (padding, cur_y c + currentRowHeight c + padding, 0)
    else (cur_x c, cur_y c, currentRowHeight c) in
  {| cur_x := x + w it + padding;
     cur_y := y;
     currentRowHeight := Z.max rowHeight (h it);
     packedItems := packedItems c ++ [mkPacked it x y] |}.

Definition relocate (p : packedItem) : Glyph :=
  let g := originalGlyph (packed p) in
  {| Glyph.id := Glyph.id g;
     Glyph.char := Glyph.char g;
     Glyph.x := newX p;
     Glyph.y := newY p;
     Glyph.width := Glyph.width g;
     Glyph.height := Glyph.height g;
     Glyph.xoffset := Glyph.xoffset g;
     Glyph.yoffset := Glyph.yoffset g;
     Glyph.xadvance := Glyph.xadvance g |}.

Definition layout (glyphs : list Glyph) : atlas :=
  let items := JS.sort (fun a b => h b - h a) (toItem <$> glyphs) in
  let targetWidth := chooseWidth (side (totalArea items)) in
  let c := fold_left (placeItem targetWidth) items
                     (mkCursor padding padding 0 []) in
  let finalHeight := cur_y c + currentRowHeight c + padding in
  let newGlyphs := relocate <$> packedItems c in
  {| glyphs := JS.sort (fun a b => Glyph.id a - Glyph.id b) newGlyphs;
     width := targetWidth;
     height := finalHeight |}.

(** The promise: [Some] is the value it resolves with (without the encoded
    image), [None] a rejection.  [imageLoads] tells whether the source image
    fires [onload], [hasContext] whether the result canvas gives a 2D
    context. *)
Definition packTexture (imageLoads hasContext : bool) (glyphs : list Glyph)
  : option atlas :=
  if imageLoads then
    if hasContext then Some (layout glyphs) else None
  else None.

(** *** What the specification says of the atlas *)

(** The rectangles of two glyphs have a point in common (the test on the
    half-open boxes [x, x + width) x [y, y + height)). *)
Definition rectsIntersect (a b : Glyph) : Prop :=
  Glyph.x a < Glyph.x b + Glyph.width b /\
  Glyph.x b < Glyph.x a + Glyph.width a /\
  Glyph.y a < Glyph.y b + Glyph.height b /\
  Glyph.y b < Glyph.y a + Glyph.height a.

(** The pixel [(px, py)] lies in the rectangle of [g]. *)
Definition covers (g : Glyph) (px py : Z) : Prop :=
  Glyph.x g <= px < Glyph.x g + Glyph.width g /\
  Glyph.y g <= py < Glyph.y g + Glyph.height g.

Definition isPowerOfTwo (n : Z) : Prop := exists k : Z, 0 <= k /\ n = 2 ^ k.

(** What a glyph keeps when it is relocated. *)
Definition idAndSize (g : Glyph) : Z * Z * Z :=
  (Glyph.id g, Glyph.width g, Glyph.height g).

(** The sizes of an item are those of its glyph. *)
Definition itemFaithful (it : item) : Prop :=
  id it = Glyph.id (originalGlyph it) /\
  w it = Glyph.width (originalGlyph it) /\
  h it = Glyph.height (originalGlyph it).

(** Where a placed item lies with respect to the cursor: it ends above the
    bottom of the current shelf; it ends above the current shelf or left of
    the cursor; it starts at the padding or later, and at the padding unless
    it fits into the target width. *)
Definition placedOk (targetWidth : Z) (c : cursor) (p : packedItem) : Prop :=
  newY p + h (packed p) <= cur_y c + currentRowHeight c /\
  (newY p + h (packed p) <= cur_y c \/ newX p + w (packed p) <= cur_x c) /\
  padding <= newX p /\
  (newX p = padding \/ newX p + w (packed p) + padding <= targetWidth).

Definition disjointItems (p q : packedItem) : Prop :=
  ~ rectsIntersect (relocate p) (relocate q).

(** The invariant of the shelf packer. *)
Record shelfInv (targetWidth : Z) (c : cursor) : Prop := mkShelfInv {
  inv_x : padding <= cur_x c;
  inv_rowHeight : 0 <= currentRowHeight c;
  inv_faithful : Forall (fun p => itemFaithful (packed p)) (packedItems c);
  inv_placed : Forall (placedOk targetWidth c) (packedItems c);
  inv_disjoint : ForallOrdPairs disjointItems (packedItems c)
}.

End TexturePacker.

(** ** services/fntGenerator.ts *)

Module FntGenerator.

Definition dquote : JS.jsstring := [34].

Fixpoint showUint (d : Decimal.uint) : JS.jsstring :=
  match d with
  | Decimal.Nil => []
  | Decimal.D0 d => 48 :: showUint d
  | Decimal.D1 d => 49 :: showUint d
  | Decimal.D2 d => 50 :: showUint d
  | Decimal.D3 d => 51 :: showUint d
  | Decimal.D4 d => 52 :: showUint d
  | Decimal.D5 d => 53 :: showUint d
  | Decimal.D6 d => 54 :: showUint d
  | Decimal.D7 d => 55 :: showUint d
  | Decimal.D8 d => 56 :: showUint d
  | Decimal.D9 d => 57 :: showUint d
  end.

(** [`${n}`] for an integer [n]: its decimal digits after a minus sign when
    it is negative. *)
Definition showNumber (n : Z) : JS.jsstring :=
  match Z.to_int n with
  | Decimal.Pos d => showUint d
  | Decimal.Neg d => 45 :: showUint d
  end.

Definition infoLine (settings : FontSettings.t) : JS.jsstring :=
  JS.lit "info face=" ++ dquote ++ FontSettings.face settings ++ dquote
  ++ JS.lit " size=" ++ showNumber (FontSettings.size settings)
  ++ JS.lit " bold=" ++ showNumber (if FontSettings.bold settings then 1 else 0)
  ++ JS.lit " italic=" ++ showNumber (if FontSettings.italic settings then 1 else 0)
  ++ JS.lit " charset=" ++ dquote ++ dquote
  ++ JS.lit " unicode=1 stretchH=100 smooth=1 aa=1 padding=0,0,0,0 spacing=1,1 outline=0".

Definition commonLine (settings : FontSettings.t) : JS.jsstring :=
  JS.lit "common lineHeight=" ++ showNumber (FontSettings.lineHeight settings)
  ++ JS.lit " base=" ++ showNumber (FontSettings.base settings)
  ++ JS.lit " scaleW=" ++ showNumber (FontSettings.scaleW settings)
  ++ JS.lit " scaleH=" ++ showNumber (FontSettings.scaleH settings)
  ++ JS.lit " pages=1 packed=0 alphaChnl=1 redChnl=0 greenChnl=0 blueChnl=0".

Definition pageLine (imageFileName : JS.jsstring) : JS.jsstring :=
  JS.lit "page id=0 file=" ++ dquote ++ imageFileName ++ dquote.

Definition charsLine (glyphs : list Glyph) : JS.jsstring :=
  JS.lit "chars count=" ++ showNumber (Z.of_nat (length glyphs)).

(** [settings.tracking || 0] *)
Definition globalTracking (settings : FontSettings.t) : Z :=
  if FontSettings.tracking settings =? 0 then 0 else FontSettings.tracking settings.

(** [g.char.charCodeAt(0)] behind the guard [g.char && g.char.length > 0]:
    the first UTF-16 code unit of the string. *)
Definition charId (g : Glyph) : Z :=
  match Glyph.char g with
  | [] => -1
  | c :: _ => c
  end.

Definition charLine (settings : FontSettings.t) (g : Glyph) : JS.jsstring :=
  let finalXAdvance := Glyph.xadvance g + globalTracking settings in
  JS.lit "char id=" ++ showNumber (charId g)
  ++ JS.lit " x=" ++ showNumber (Glyph.x g)
  ++ JS.lit " y=" ++ showNumber (Glyph.y g)
  ++ JS.lit " width=" ++ showNumber (Glyph.width g)
  ++ JS.lit " height=" ++ showNumber (Glyph.height g)
  ++ JS.lit " xoffset=" ++ showNumber (Glyph.xoffset g)
  ++ JS.lit " yoffset=" ++ showNumber (Glyph.yoffset g)
  ++ JS.lit " xadvance=" ++ showNumber finalXAdvance
  ++ JS.lit " page=0 chnl=15".

(** The array [lines] when the function returns. *)
Definition fntLines (glyphs : list Glyph) (settings : FontSettings.t)
           (imageFileName : JS.jsstring) : list JS.jsstring :=
  [infoLine settings; commonLine settings; pageLine imageFileName;
   charsLine glyphs] ++ (charLine settings <$> glyphs).

(** [lines.join(sep)] *)
Fixpoint join (sep : JS.jsstring) (lines : list JS.jsstring) : JS.jsstring :=
  match lines with
  | [] => []
  | [l] => l
  | l :: ls => l ++ sep ++ join sep ls
  end.

Definition generateFnt (glyphs : list Glyph) (settings : FontSettings.t)
           (imageFileName : JS.jsstring) : JS.jsstring :=
  join [10] (fntLines glyphs settings imageFileName).

End FntGenerator.

(** ** Reading the export back *)

Module FntReader.

(** The reading side of the round trip the specification asks for.  The
    repository only writes the format, so this reader is not a translation of
    its code: it follows the char line of the exporter field by field, in the
    order and with the keys [generateFnt] writes them, every value a decimal
    integer with an optional minus sign. *)
Record charRecord : Type := mkChar {
  id : Z;
  x : Z;
  y : Z;
  width : Z;
  height : Z;
  xoffset : Z;
  yoffset : Z;
  xadvance : Z
}.

Definition digit (c : Z) : option (Decimal.uint -> Decimal.uint) :=
  if c =? 48 then Some Decimal.D0
  else if c =? 49 then Some Decimal.D1
  else if c =? 50 then Some Decimal.D2
  else if c =? 51 then Some Decimal.D3
  else if c =? 52 then Some Decimal.D4
  else if c =? 53 then Some Decimal.D5
  else if c =? 54 then Some Decimal.D6
  else if c =? 55 then Some Decimal.D7
  else if c =? 56 then Some Decimal.D8
  else if c =? 57 then Some Decimal.D9
  else None.

(** The longest run of digits at the head of [s], and what follows it. *)
Fixpoint readDigits (s : JS.jsstring) : Decimal.uint * JS.jsstring :=
  match s with
  | [] => (Decimal.Nil, [])
  | c :: s' =>
      match digit c with
      | Some D => let '(d, rest) := readDigits s' in (D d, rest)
      | None => (Decimal.Nil, s)
      end
  end.

Definition readUnsigned (s : JS.jsstring) : option (Decimal.uint * JS.jsstring) :=
  match readDigits s with
  | (Decimal.Nil, _) => None
  | (d, rest) => Some (d, rest)
  end.

Definition readNumber (s : JS.jsstring) : option (Z * JS.jsstring) :=
  match s with
  | c :: s' =>
      if c =? 45
      then '(d, rest) ← readUnsigned s'; Some (Z.of_int (Decimal.Neg d), rest)
      else '(d, rest) ← readUnsigned s; Some (Z.of_int (Decimal.Pos d), rest)
  | [] => None
  end.

(** [expect pre s] is what follows [pre] in [s], when [s] starts with it. *)
Fixpoint expect (pre s : JS.jsstring) : option JS.jsstring :=
  match pre with
  | [] => Some s
  | p :: pre' =>
      match s with
      | c :: s' => if c =? p then expect pre' s' else None
      | [] => None
      end
  end.

Definition readField (key : string) (s : JS.jsstring) : option (Z * JS.jsstring) :=
  s' ← expect (JS.lit key) s; readNumber s'.

Definition parseCharLine (line : JS.jsstring) : option charRecord :=
  '(id, s) ← readField "char id=" line;
  '(x, s) ← readField " x=" s;
  '(y, s) ← readField " y=" s;
  '(width, s) ← readField " width=" s;
  '(height, s) ← readField " height=" s;
  '(xoffset, s) ← readField " xoffset=" s;
  '(yoffset, s) ← readField " yoffset=" s;
  '(xadvance, s) ← readField " xadvance=" s;
  '(_, s) ← readField " page=" s;
  '(_, s) ← readField " chnl=" s;
  match s with
  | [] => Some (mkChar id x y width height xoffset yoffset xadvance)
  | _ :: _ => None
  end.

(** The text after a number does not go on with a digit. *)
Definition nonDigitHead (s : JS.jsstring) : Prop :=
  match s with
  | [] => True
  | c :: _ => digit c = None
  end.

(** The record the specification expects back for a glyph: the fields the
    glyph had. *)
Definition glyphTuple (g : Glyph) : charRecord :=
  mkChar (Glyph.id g) (Glyph.x g) (Glyph.y g) (Glyph.width g) (Glyph.height g)
         (Glyph.xoffset g) (Glyph.yoffset g) (Glyph.xadvance g).

(** The record the exporter writes for a glyph. *)
Definition exported (settings : FontSettings.t) (g : Glyph) : charRecord :=
  mkChar (FntGenerator.charId g) (Glyph.x g) (Glyph.y g) (Glyph.width g)
         (Glyph.height g) (Glyph.xoffset g) (Glyph.yoffset g)
         (Glyph.xadvance g + FntGenerator.globalTracking settings).

(** The id the specification expects on a char line: the Unicode code point
    of the glyph's character, or -1 without one. *)
Definition codePointId (g : Glyph) : Z :=
  match JS.codePointAt0 (Glyph.char g) with
  | Some codePoint => codePoint
  | None => -1
  end.

(** The char lines of an export are the lines after the four header
    lines. *)
Definition parseCharLines (lines : list JS.jsstring) : list (option charRecord) :=
  parseCharLine <$> drop 4 lines.

(** [text.split("\n")] *)
Fixpoint splitLines (text : JS.jsstring) : list JS.jsstring :=
  match text with
  | [] => [[]]
  | c :: text' =>
      if c =? 10 then [] :: splitLines text'
      else
        match splitLines text' with
        | line :: lines => (c :: line) :: lines
        | [] => [[c]]
        end
  end.

(** Reading the whole text of an export. *)
Definition parseExport (text : JS.jsstring) : list (option charRecord) :=
  parseCharLines (splitLines text).

(** The round trip as the specification's property words it: every glyph
    comes back with the fields it had. *)
Definition claimedRoundTrip : Prop :=
  forall (glyphs : list Glyph) (settings : FontSettings.t)
         (imageFileName : JS.jsstring),
    parseCharLines (FntGenerator.fntLines glyphs settings imageFileName)
    = (fun g => Some (glyphTuple g)) <$> glyphs.

(** The id of a char line as the specification's property words it. *)
Definition claimedCharId : Prop :=
  forall (settings : FontSettings.t) (g : Glyph),
    id <$> parseCharLine (FntGenerator.charLine settings g)
    = Some (codePointId g).

(** The string has no line feed in it. *)
Definition noLineFeed (s : JS.jsstring) : Prop := Forall (fun c => c <> 10) s.

End FntReader.

(** ** services/geminiService.ts *)

Module GeminiService.

Record IdentificationResult : Type := mkResult {
  index : nat;
  char : JS.jsstring
}.

(** What a call of [client.models.generateContent] and the [JSON.parse] of
    its text come to: the call throws, the text does not parse, or it
    parses to an array of strings. *)
Inductive apiOutcome : Type :=
| ApiFailure
| Unparseable
| CharArray (charArray : list JS.jsstring).

Section Service.
(** The service is outside the program: [World] is its state and
    [generateContent] one request to it. *)
Context {World : Type}.
Variable generateContent : World -> list JS.jsstring -> World * apiOutcome.
Variable hasApiKey : bool.

(** [None] is a thrown error (a rejected promise). *)
Definition identifyGlyphs (world : World) (base64Images : list JS.jsstring)
  : World * option (list IdentificationResult) :=
  if hasApiKey then
    match generateContent world base64Images with
    | (world', ApiFailure) => (world', None)
    | (world', Unparseable) => (world', Some [])
    | (world', CharArray charArray) =>
        (world', Some (imap (fun idx c => mkResult idx c) charArray))
    end
  else (world, None).
End Service.

End GeminiService.

(** ** App.tsx: the identification handler *)

Module App.

Inductive ToolState : Type := IDLE | PROCESSING_IMAGE | IDENTIFYING_CHARS.

(** The part of the component state the handler reads and writes. *)
Record state : Type := mkState {
  imageSrc : option JS.jsstring;
  glyphs : list Glyph;
  toolState : ToolState
}.

Definition BATCH_SIZE : nat := 50.

(** The values [i] takes in [for (let i = 0; i < n; i += BATCH_SIZE)]. *)
Definition batchStarts (n : nat) : list nat :=
  (fun k => k * BATCH_SIZE)%nat <$> seq 0 ((n + (BATCH_SIZE - 1)) / BATCH_SIZE)%nat.

Section Handler.
Context {World : Type}.
Variable generateContent :
  World -> list JS.jsstring -> World * GeminiService.apiOutcome.
Variable hasApiKey : bool.
(** [extractGlyphImages]: the encoded crop of a glyph, and whether the
    image loads and the canvas gives a context. *)
Variable crop : JS.jsstring -> Glyph -> JS.jsstring.
Variables imageLoads hasContext : bool.

Definition extractGlyphImages (src : JS.jsstring) (glyphs : list Glyph)
  : option (list JS.jsstring) :=
  if imageLoads then
    if hasContext then Some (crop src <$> glyphs) else None
  else None.

(** "Merge results": the [forEach] over [batchResults]. *)
Definition mergeResults (i : nat) (batchResults : list GeminiService.IdentificationResult)
           (allIdentifiedChars : gmap nat JS.jsstring) : gmap nat JS.jsstring :=
  fold_left
    (fun acc res =>
       <[(i + GeminiService.index res)%nat := GeminiService.char res]> acc)
    batchResults allIdentifiedChars.

(** The batch loop from the iteration at the head of [starts] on.  [None]
    is the error thrown out of the loop by a failing batch. *)
Fixpoint batchLoop (starts : list nat) (base64Images : list JS.jsstring)
         (allIdentifiedChars : gmap nat JS.jsstring) (world : World)
  : World * option (gmap nat JS.jsstring) :=
  match starts with
  | [] => (world, Some allIdentifiedChars)
  | i :: starts' =>
      let batch := take BATCH_SIZE (drop i base64Images) in
      match GeminiService.identifyGlyphs generateContent hasApiKey world batch with
      | (world', None) => (world', None)
      | (world', Some batchResults) =>
          batchLoop starts' base64Images
                    (mergeResults i batchResults allIdentifiedChars) world'
      end
  end.

(** The updater passed to [setGlyphs]. *)
Definition relabel (allIdentifiedChars : gmap nat JS.jsstring)
           (idx : nat) (g : Glyph) : Glyph :=
  match allIdentifiedChars !! idx with
  | Some (c :: cs) =>
      {| Glyph.id := Glyph.id g;
         Glyph.char := c :: cs;
         Glyph.x := Glyph.x g;
         Glyph.y := Glyph.y g;
         Glyph.width := Glyph.width g;
         Glyph.height := Glyph.height g;
         Glyph.xoffset := Glyph.xoffset g;
         Glyph.yoffset := Glyph.yoffset g;
         Glyph.xadvance := Glyph.xadvance g |}
  | _ => g
  end.

(** The handler: the world and the state when it is done, and whether it
    raised the failure alert. *)
Definition handleIdentifyChars (st : state) (world : World)
  : World * state * bool :=
  match imageSrc st with
  | None | Some [] => (world, st, false)
  | Some src =>
      if (length (glyphs st) =? 0)%nat then (world, st, false)
      else
        let idle g := mkState (imageSrc st) g IDLE in
        match extractGlyphImages src (glyphs st) with
        | None => (world, idle (glyphs st), true)
        | Some base64Images =>
            match batchLoop (batchStarts (length base64Images))
                            base64Images ∅ world with
            | (world', None) => (world', idle (glyphs st), true)
            | (world', Some allIdentifiedChars) =>
                (world', idle (imap (relabel allIdentifiedChars) (glyphs st)),
                 false)
            end
        end
  end.
(** What the specification's property says of a run in which the batch at
    [i] fails after the batches at [pre] have succeeded with the labels
    [all1]: those labels are on the glyph list afterwards. *)
Definition retainsPartialLabels (st : state) (world : World) : Prop :=
  forall (src : JS.jsstring) (base64Images : list JS.jsstring)
         (pre post : list nat) (i : nat) (all1 : gmap nat JS.jsstring)
         (world1 world2 : World),
    imageSrc st = Some src -> src <> [] -> glyphs st <> [] ->
    extractGlyphImages src (glyphs st) = Some base64Images ->
    batchStarts (length base64Images) = pre ++ i :: post ->
    batchLoop pre base64Images ∅ world = (world1, Some all1) ->
    GeminiService.identifyGlyphs generateContent hasApiKey world1
      (take BATCH_SIZE (drop i base64Images)) = (world2, None) ->
    glyphs (handleIdentifyChars st world).1.2
    = imap (relabel all1) (glyphs st).
End Handler.

End App.

(** ** The string methods the component uses *)

Module JSString.

Definition dot : Z := 46.

(** [s.lastIndexOf(c)] for a one-character [c]: the index of the last
    occurrence of [c] in [s], and -1 when there is none. *)
Fixpoint lastIndexOf (c : Z) (s : JS.jsstring) : Z :=
  match s with
  | [] => -1
  | d :: s' =>
      let r := lastIndexOf c s' in
      if 0 <=? r then r + 1 else if d =? c then 0 else -1
  end.

(** An index of [substring], brought into [0, length]. *)
Definition clampIndex (len : nat) (i : Z) : nat :=
  Z.to_nat (Z.min (Z.max i 0) (Z.of_nat len)).

(** [s.substring(indexStart, indexEnd)]: both indices are clamped and then
    put in order; [indexEnd] is [None] when it is not given. *)
Definition substring (s : JS.jsstring) (indexStart : Z) (indexEnd : option Z)
  : JS.jsstring :=
  let finalStart := clampIndex (length s) indexStart in
  let finalEnd :=
    match indexEnd with
    | Some e => clampIndex (length s) e
    | None => length s
    end in
  let from := Nat.min finalStart finalEnd in
  let to := Nat.max finalStart finalEnd in
  take (to - from) (drop from s).

(** [String.fromCharCode(code)]: the code is taken modulo 65536. *)
Definition fromCharCode (code : Z) : JS.jsstring := [code mod 65536].

End JSString.

(** ** App.tsx: the editing handlers *)

Module Editor.

(** The state of the component, without the zoom of the canvas. *)
Record state : Type := mkState {
  imageSrc : option JS.jsstring;
  originalFileName : JS.jsstring;
  glyphs : list Glyph;
  selectedGlyphIds : list Z;
  fontSettings : FontSettings.t;
  toolState : App.ToolState
}.

Definition initial : state :=
  mkState None (JS.lit "font.png") [] []
          (FontSettings.mk (JS.lit "CustomFont") 32 false false 32 24 512 512 0)
          App.IDLE.

(** [file.name.substring(0, file.name.lastIndexOf('.')) || file.name] *)
Definition nameWithoutExt (name : JS.jsstring) : JS.jsstring :=
  match JSString.substring name 0
                           (Some (JSString.lastIndexOf JSString.dot name)) with
  | [] => name
  | c :: s => c :: s
  end.

(** [handleFileUpload].  [file] is the name of the chosen file ([None] when
    no file is chosen), [fileRead] whether the reader fires [onload], [src]
    what it then gives, [imageLoads] whether the image of [src] fires
    [onload], [image] its pixels and [hasContext] whether the canvas of the
    detection gives a context. *)
Definition handleFileUpload (file : option JS.jsstring) (fileRead : bool)
           (src : JS.jsstring) (imageLoads : bool) (image : ImageData.t)
           (hasContext : bool) (st : state) : state :=
  match file with
  | None => st
  | Some name =>
      if fileRead then
        if imageLoads then
          let detected :=
            ImageProcessor.detectGlyphs
              (if hasContext then Some image else None) in
          let prev := fontSettings st in
          mkState (Some src) name detected (selectedGlyphIds st)
                  (FontSettings.mk
                     (nameWithoutExt name)
                     (FontSettings.size prev) (FontSettings.bold prev)
                     (FontSettings.italic prev)
                     (match detected with
                      | g :: _ => Glyph.height g + 2
                      | [] => 32
                      end)
                     (FontSettings.base prev)
                     (ImageData.width image) (ImageData.height image)
                     (FontSettings.tracking prev))
                  App.IDLE
        else
          mkState (Some src) name (glyphs st) (selectedGlyphIds st)
                  (fontSettings st) App.PROCESSING_IMAGE
      else
        mkState (imageSrc st) name (glyphs st) (selectedGlyphIds st)
                (fontSettings st) (toolState st)
  end.

(** [{ ...newG, char: glyphs[i].char, id: glyphs[i].id }]; the handler
    reads [glyphs[i]] only when the two arrays have the same length. *)
Definition keepLabel (glyphs : list Glyph) (i : nat) (newG : Glyph) : Glyph :=
  match glyphs !! i with
  | Some old =>
      Glyph.mk (Glyph.id old) (Glyph.char old) (Glyph.x newG) (Glyph.y newG)
               (Glyph.width newG) (Glyph.height newG) (Glyph.xoffset newG)
               (Glyph.yoffset newG) (Glyph.xadvance newG)
  | None => newG
  end.

(** [handleAlignBaseline]: [decode] gives the pixels of the image of a
    source, [None] when the image does not load. *)
Definition handleAlignBaseline (decode : JS.jsstring -> option ImageData.t)
           (hasContext : bool) (st : state) : state :=
  match imageSrc st with
  | None | Some [] => st
  | Some src =>
      match decode src with
      | None => st
      | Some image =>
          let detected :=
            ImageProcessor.detectGlyphs
              (if hasContext then Some image else None) in
          let updated :=
            if (length detected =? length (glyphs st))%nat
            then imap (keepLabel (glyphs st)) detected
            else detected in
          mkState (imageSrc st) (originalFileName st) updated
                  (selectedGlyphIds st) (fontSettings st) (toolState st)
      end
  end.

(** [handleRepack]: [atlasSrc] is the encoding of the canvas the packer
    has drawn. *)
Definition handleRepack (imageLoads hasContext : bool) (atlasSrc : JS.jsstring)
           (st : state) : state :=
  match imageSrc st with
  | None | Some [] => st
  | Some (_ :: _) =>
      if (length (glyphs st) =? 0)%nat then st
      else
        match TexturePacker.packTexture imageLoads hasContext (glyphs st) with
        | Some result =>
            let prev := fontSettings st in
            mkState (Some atlasSrc) (originalFileName st)
                    (TexturePacker.glyphs result) (selectedGlyphIds st)
                    (FontSettings.mk
                       (FontSettings.face prev) (FontSettings.size prev)
                       (FontSettings.bold prev) (FontSettings.italic prev)
                       (FontSettings.lineHeight prev) (FontSettings.base prev)
                       (TexturePacker.width result) (TexturePacker.height result)
                       (FontSettings.tracking prev))
                    App.IDLE
        | None =>
            mkState (imageSrc st) (originalFileName st) (glyphs st)
                    (selectedGlyphIds st) (fontSettings st) App.IDLE
        end
  end.

Definition handleUpdateGlyph (updated : Glyph) (st : state) : state :=
  mkState (imageSrc st) (originalFileName st)
          ((fun g => if Glyph.id g =? Glyph.id updated then updated else g)
             <$> glyphs st)
          (selectedGlyphIds st) (fontSettings st) (toolState st).

Definition handleDeleteGlyphs (st : state) : state :=
  match selectedGlyphIds st with
  | [] => st
  | _ :: _ =>
      mkState (imageSrc st) (originalFileName st)
              (filter (fun g => Glyph.id g ∉ selectedGlyphIds st) (glyphs st))
              [] (fontSettings st) (toolState st)
  end.

(** The running extremes of the union rectangle; [None] is the [Infinity]
    (for a maximum, the [-Infinity]) they start from. *)
Record bounds : Type := mkBounds {
  minX : option Z;
  minY : option Z;
  maxX : option Z;
  maxY : option Z
}.

Definition mathMin (acc : option Z) (v : Z) : option Z :=
  Some (match acc with None => v | Some a => Z.min a v end).

Definition mathMax (acc : option Z) (v : Z) : option Z :=
  Some (match acc with None => v | Some a => Z.max a v end).

(** The body of [targetGlyphs.forEach]. *)
Definition extend (b : bounds) (g : Glyph) : bounds :=
  mkBounds (mathMin (minX b) (Glyph.x g))
           (mathMin (minY b) (Glyph.y g))
           (mathMax (maxX b) (Glyph.x g + Glyph.width g))
           (mathMax (maxY b) (Glyph.y g + Glyph.height g)).

Definition unionRect (targetGlyphs : list Glyph) : bounds :=
  fold_left extend targetGlyphs (mkBounds None None None None).

(** [handleMergeGlyphs].  After the loop over a non-empty [targetGlyphs]
    the four extremes are numbers; the last case is never taken. *)
Definition handleMergeGlyphs (st : state) : state :=
  if (length (selectedGlyphIds st) <? 2)%nat then st
  else
    let targetGlyphs :=
      filter (fun g => Glyph.id g ∈ selectedGlyphIds st) (glyphs st) in
    match targetGlyphs with
    | [] => st
    | first :: _ =>
        match unionRect targetGlyphs with
        | mkBounds (Some minX) (Some minY) (Some maxX) (Some maxY) =>
            let newW := maxX - minX in
            let newH := maxY - minY in
            let mergedGlyph :=
              Glyph.mk (Glyph.id first) (Glyph.char first) minX minY newW newH
                       (Glyph.xoffset first) (Glyph.yoffset first) (newW + 1) in
            let remaining :=
              filter (fun g => Glyph.id g ∉ selectedGlyphIds st) (glyphs st) in
            mkState (imageSrc st) (originalFileName st)
                    (remaining ++ [mergedGlyph]) [Glyph.id mergedGlyph]
                    (fontSettings st) (toolState st)
        | _ => st
        end
    end.

(** [setSelectedGlyphIds], as the canvas calls it. *)
Definition select (ids : list Z) (st : state) : state :=
  mkState (imageSrc st) (originalFileName st) (glyphs st) ids
          (fontSettings st) (toolState st).

(** [originalFileName.substring(originalFileName.lastIndexOf('.'))] *)
Definition imageExtension (st : state) : JS.jsstring :=
  JSString.substring (originalFileName st)
                     (JSString.lastIndexOf JSString.dot (originalFileName st))
                     None.

Definition exportImageName (st : state) : JS.jsstring :=
  FontSettings.face (fontSettings st) ++ imageExtension st.

Definition hasNoChar (g : Glyph) : bool :=
  match Glyph.char g with
  | [] => true
  | _ :: _ => false
  end.

(** [handleExportFnt]: the name and the content of the download, [None]
    when the user declines the warning ([proceed] is the answer). *)
Definition handleExportFnt (proceed : bool) (st : state)
  : option (JS.jsstring * JS.jsstring) :=
  let emptyChars := length (List.filter hasNoChar (glyphs st)) in
  if (0 <? emptyChars)%nat && negb proceed then None
  else
    Some (FontSettings.face (fontSettings st) ++ JS.lit ".fnt",
          FntGenerator.generateFnt (glyphs st) (fontSettings st)
                                   (exportImageName st)).

(** [handleExportImage]: the name and the address of the download. *)
Definition handleExportImage (st : state) : option (JS.jsstring * JS.jsstring) :=
  match imageSrc st with
  | None | Some [] => None
  | Some src => Some (exportImageName st, src)
  end.

(** One user action on the editor. *)
Inductive edit : state -> state -> Prop :=
| edit_upload file fileRead src imageLoads image hasContext st :
    edit st (handleFileUpload file fileRead src imageLoads image hasContext st)
| edit_align decode hasContext st :
    edit st (handleAlignBaseline decode hasContext st)
| edit_repack imageLoads hasContext atlasSrc st :
    edit st (handleRepack imageLoads hasContext atlasSrc st)
| edit_update updated st : edit st (handleUpdateGlyph updated st)
| edit_delete st : edit st (handleDeleteGlyphs st)
| edit_merge st : edit st (handleMergeGlyphs st)
| edit_select ids st : edit st (select ids st).

(** The states the editor reaches from its initial state. *)
Inductive reachable : state -> Prop :=
| reachable_initial : reachable initial
| reachable_edit st st' : reachable st -> edit st st' -> reachable st'.

End Editor.

(** ** components/GlyphProperties.tsx *)

Module GlyphProperties.

Section Fields.
(** [parseInt] of the text of the field: [None] is [NaN].  (A text of
    hundreds of digits, which [parseInt] reads as [Infinity], is left
    out.) *)
Variable parseInt : JS.jsstring -> option Z.

Definition withChar (glyph : Glyph) (char : JS.jsstring) : Glyph :=
  Glyph.mk (Glyph.id glyph) char (Glyph.x glyph) (Glyph.y glyph)
           (Glyph.width glyph) (Glyph.height glyph) (Glyph.xoffset glyph)
           (Glyph.yoffset glyph) (Glyph.xadvance glyph).

(** [handleAsciiChange]: the glyph passed to [onUpdate], [None] when it is
    not called. *)
Definition handleAsciiChange (glyph : Glyph) (value : JS.jsstring)
  : option Glyph :=
  match parseInt value with
  | Some code =>
      if 0 <=? code then Some (withChar glyph (JSString.fromCharCode code))
      else match value with
           | [] => Some (withChar glyph [])
           | _ :: _ => None
           end
  | None =>
      match value with
      | [] => Some (withChar glyph [])
      | _ :: _ => None
      end
  end.

(** The code shown in the field: [glyph.char ? glyph.char.charCodeAt(0) : ''],
    [None] for the empty text. *)
Definition shownCode (glyph : Glyph) : option Z := JS.charCodeAt0 (Glyph.char glyph).
End Fields.

End GlyphProperties.

(** ** Reading the header of the export back *)

Module FntHeaderReader.

(** Like [FntReader], the reading side of the format and not a translation
    of code of the repository: the numbers of the common line and of the
    chars line, read with the keys [generateFnt] writes. *)
Definition parseCommonLine (line : JS.jsstring) : option (Z * Z * Z * Z) :=
  '(lineHeight, s) ← FntReader.readField "common lineHeight=" line;
  '(base, s) ← FntReader.readField " base=" s;
  '(scaleW, s) ← FntReader.readField " scaleW=" s;
  '(scaleH, s) ← FntReader.readField " scaleH=" s;
  Some (lineHeight, base, scaleW, scaleH).

Definition parseCharsCount (line : JS.jsstring) : option Z :=
  '(count, s) ← FntReader.readField "chars count=" line;
  match s with
  | [] => Some count
  | _ :: _ => None
  end.

End FntHeaderReader.

(** ** Views of a glyph *)

Module Views.

(** The fields of a glyph other than its [yoffset]. *)
Definition exceptYoffset (g : Glyph) : Z * JS.jsstring * Z * Z * Z * Z * Z * Z :=
  (Glyph.id g, Glyph.char g, Glyph.x g, Glyph.y g, Glyph.width g,
   Glyph.height g, Glyph.xoffset g, Glyph.xadvance g).

(** The fields of a glyph other than its position. *)
Definition exceptPosition (g : Glyph) : Z * JS.jsstring * Z * Z * Z * Z * Z :=
  (Glyph.id g, Glyph.char g, Glyph.width g, Glyph.height g,
   Glyph.xoffset g, Glyph.yoffset g, Glyph.xadvance g).

(** The fields of a glyph other than its label. *)
Definition exceptChar (g : Glyph) : Z * Z * Z * Z * Z * Z * Z * Z :=
  (Glyph.id g, Glyph.x g, Glyph.y g, Glyph.width g, Glyph.height g,
   Glyph.xoffset g, Glyph.yoffset g, Glyph.xadvance g).

(** The box of the glyph lies within an image of the given size. *)
Definition inImage (width height : Z) (g : Glyph) : Prop :=
  0 <= Glyph.x g /\ 0 <= Glyph.y g /\
  Glyph.x g + Glyph.width g <= width /\
  Glyph.y g + Glyph.height g <= height.

(** The scan has numbered the blobs from 0 in the order it found them, and
    its counter is their number. *)
Definition numbered (st : ImageProcessor.scanState) : Prop :=
  Glyph.id <$> st.1.2 = seqZ 0 (Z.of_nat (length st.1.2)) /\
  st.2 = Z.of_nat (length st.1.2).

(** The running extents of a flood fill lie within the image. *)
Definition extentsIn (width height : Z) (e : ImageProcessor.extents) : Prop :=
  0 <= ImageProcessor.minX e <= ImageProcessor.maxX e /\
  ImageProcessor.maxX e < width /\
  0 <= ImageProcessor.minY e <= ImageProcessor.maxY e /\
  ImageProcessor.maxY e < height.

(** The pixel data of an image whose [n] pixels all have the same colour. *)
Definition uniformData (n : nat) (r g b a : Z) : list Z :=
  concat (replicate n [r; g; b; a]).

(** The shelves start at the padding: the cursor and every placed item are
    at least the padding down from the top edge. *)
Definition marginInv (c : TexturePacker.cursor) : Prop :=
  TexturePacker.padding <= TexturePacker.cur_y c /\
  0 <= TexturePacker.currentRowHeight c /\
  Forall (fun p => TexturePacker.padding <= TexturePacker.newY p)
         (TexturePacker.packedItems c).

(** The id in the fields [exceptPosition] keeps. *)
Definition keptId (t : Z * JS.jsstring * Z * Z * Z * Z * Z) : Z :=
  t.1.1.1.1.1.1.

(** The glyph with the label [c], or as it is when [c] is empty. *)
Definition withLabel (c : JS.jsstring) (g : Glyph) : Glyph :=
  match c with
  | [] => g
  | _ :: _ =>
      Glyph.mk (Glyph.id g) c (Glyph.x g) (Glyph.y g) (Glyph.width g)
               (Glyph.height g) (Glyph.xoffset g) (Glyph.yoffset g)
               (Glyph.xadvance g)
  end.

(** The glyph moved to the origin, from the glyph and from the fields
    [exceptPosition] keeps; and the same for the records of the packer. *)
Definition atOrigin (g : Glyph) : Glyph :=
  Glyph.mk (Glyph.id g) (Glyph.char g) 0 0 (Glyph.width g) (Glyph.height g)
           (Glyph.xoffset g) (Glyph.yoffset g) (Glyph.xadvance g).

Definition keptGlyph (t : Z * JS.jsstring * Z * Z * Z * Z * Z) : Glyph :=
  let '(id, char, width, height, xoffset, yoffset, xadvance) := t in
  Glyph.mk id char 0 0 width height xoffset yoffset xadvance.

Definition itemAtOrigin (it : TexturePacker.item) : TexturePacker.item :=
  TexturePacker.mkItem (TexturePacker.id it) (TexturePacker.w it)
                       (TexturePacker.h it)
                       (atOrigin (TexturePacker.originalGlyph it)).

Definition packedAtOrigin (p : TexturePacker.packedItem)
  : TexturePacker.packedItem :=
  TexturePacker.mkPacked (itemAtOrigin (TexturePacker.packed p))
                         (TexturePacker.newX p) (TexturePacker.newY p).

Definition cursorAtOrigin (c : TexturePacker.cursor) : TexturePacker.cursor :=
  TexturePacker.mkCursor (TexturePacker.cur_x c) (TexturePacker.cur_y c)
                         (TexturePacker.currentRowHeight c)
                         (packedAtOrigin <$> TexturePacker.packedItems c).

(** The extremes of the box of one glyph. *)
Definition boundsOf (g : Glyph) : Editor.bounds :=
  Editor.mkBounds (Some (Glyph.x g)) (Some (Glyph.y g))
                  (Some (Glyph.x g + Glyph.width g))
                  (Some (Glyph.y g + Glyph.height g)).

(** What a new detection decides of a glyph, and what it can take over
    from the glyph that was there. *)
Definition geometry (g : Glyph) : Z * Z * Z * Z * Z * Z * Z :=
  (Glyph.x g, Glyph.y g, Glyph.width g, Glyph.height g, Glyph.xoffset g,
   Glyph.yoffset g, Glyph.xadvance g).

Definition idAndChar (g : Glyph) : Z * JS.jsstring := (Glyph.id g, Glyph.char g).

(** The glyph has no label and no horizontal offset, as a blob has. *)
Definition unlabelled (g : Glyph) : Prop :=
  Glyph.char g = [] /\ Glyph.xoffset g = 0.

End Views.

(** ** Sample inputs *)

Module Examples.

(** A blob as the extraction creates it. *)
Definition blob (id x y w h : Z) : Glyph :=
  Glyph.mk id [] x y w h 0 0 (w + 1).

(** The boundary example of the specification. *)
Definition stem : Glyph := blob 0 10 10 4 10.
Definition dot : Glyph := blob 1 11 2 2 2.

(** A dot two pixels nearer to the stem. *)
Definition nearDot : Glyph := blob 1 11 4 2 2.

(** A tall blob and a small one just under its top edge. *)
Definition tall : Glyph := blob 0 0 0 10 100.
Definition speck : Glyph := blob 1 0 2 3 3.

(** Two glyphs, the second wider than the 128 pixels of the atlas they
    get. *)
Definition wideSheet : list Glyph := [blob 0 5 5 10 14; blob 1 0 0 300 10].

(** What the packer makes of them. *)
Definition wideAtlas : TexturePacker.atlas :=
  TexturePacker.mkAtlas [blob 0 2 2 10 14; blob 1 2 18 300 10] 128 30.

(** A glyph labelled "A", with id 7, and settings with a tracking of 3. *)
Definition glyphA : Glyph := Glyph.mk 7 (JS.lit "A") 2 2 10 14 0 0 11.

Definition tracked : FontSettings.t :=
  FontSettings.mk (JS.lit "CustomFont") 32 false false 32 24 512 512 3.

Definition untracked : FontSettings.t :=
  FontSettings.mk (JS.lit "CustomFont") 32 false false 32 24 512 512 0.

(** A glyph labelled with U+1F600, the surrogate pair D83D DE00. *)
Definition glyphFace : Glyph := Glyph.mk 8 [55357; 56832] 2 2 10 14 0 0 11.

(** A sheet of 51 glyphs: two batches, of 50 and of 1. *)
Definition sheet51 : list Glyph :=
  (fun k => blob k (k * 12) 0 10 14) <$> seqZ 0 51.

Definition sheetState : App.state :=
  App.mkState (Some (JS.lit "sheet.png")) sheet51 App.IDLE.

(** The editor with the stem, another glyph and the dot, the stem and the
    dot selected. *)
Definition editing : Editor.state :=
  Editor.mkState (Some (JS.lit "data:sheet")) (JS.lit "sheet.png")
                 [stem; blob 2 40 2 8 18; dot] [0; 1] tracked App.IDLE.

(** A service that answers its first request with an "A" for every image
    and fails from the second request on; its state counts the requests. *)
Definition flakyService (requests : nat) (base64Images : list JS.jsstring)
  : nat * GeminiService.apiOutcome :=
  (S requests,
   if (requests =? 0)%nat
   then GeminiService.CharArray (replicate (length base64Images) (JS.lit "A"))
   else GeminiService.ApiFailure).

(** A service that answers every request with an "A" for every image. *)
Definition steadyService (requests : nat) (base64Images : list JS.jsstring)
  : nat * GeminiService.apiOutcome :=
  (S requests,
   GeminiService.CharArray (replicate (length base64Images) (JS.lit "A"))).

(** A service that labels every image with the first character of its
    text. *)
Definition echoService (requests : nat) (base64Images : list JS.jsstring)
  : nat * GeminiService.apiOutcome :=
  (S requests, GeminiService.CharArray (take 1 <$> base64Images)).

Definition plainCrop (src : JS.jsstring) (g : Glyph) : JS.jsstring :=
  FntGenerator.showNumber (Glyph.id g).

(** The images of the sheet and the labels of its first batch. *)
Definition sheetImages : list JS.jsstring := plainCrop (JS.lit "sheet.png") <$> sheet51.

Definition firstBatchLabels : gmap nat JS.jsstring :=
  App.mergeResults 0 (imap (fun idx c => GeminiService.mkResult idx c)
                           (replicate 50 (JS.lit "A"))) ∅.

(** A canvas with a transparent background and opaque black ink where [ink]
    says so. *)
Definition transparentCanvas (width height : Z) (ink : Z -> Z -> bool)
  : ImageData.t :=
  ImageData.mk width height
    (concat ((fun y =>
                concat ((fun x => [0; 0; 0; if ink x y then 255 else 0])
                          <$> seqZ 0 width))
               <$> seqZ 0 height)).

(** A canvas with a white background and black ink. *)
Definition whiteCanvas (width height : Z) (ink : Z -> Z -> bool) : ImageData.t :=
  ImageData.mk width height
    (concat ((fun y =>
                concat ((fun x => if ink x y then [0; 0; 0; 255]
                                  else [255; 255; 255; 255])
                          <$> seqZ 0 width))
               <$> seqZ 0 height)).

Definition inBox (x0 y0 w h x y : Z) : bool :=
  (x0 <=? x) && (x <? x0 + w) && (y0 <=? y) && (y <? y0 + h).

(** One 10 x 14 rectangle at (5, 5). *)
Definition rectangleImage : ImageData.t :=
  transparentCanvas 16 20 (inBox 5 5 10 14).

(** A letter i: a 2 x 2 dot and, two pixels below it, a 2 x 8 stem; and to
    its right a 3 x 10 bar. *)
Definition letterImage : ImageData.t :=
  whiteCanvas 12 16
    (fun x y => inBox 3 2 2 2 x y || inBox 3 6 2 8 x y || inBox 7 4 3 10 x y).

(** The editor after the upload of the letter image as "sheet.png", and
    after all its glyphs have then been selected and merged by hand. *)
Definition uploaded : Editor.state :=
  Editor.handleFileUpload (Some (JS.lit "sheet.png")) true (JS.lit "data:sheet")
                          true letterImage true Editor.initial.

Definition mergedByHand : Editor.state :=
  Editor.handleMergeGlyphs
    (Editor.select (Glyph.id <$> Editor.glyphs uploaded) uploaded).

(** What [parseInt] reads of a text that starts with decimal digits. *)
Definition decimal (value : JS.jsstring) : option Z :=
  fst <$> FntReader.readNumber value.

(** Two glyphs that fit side by side on one shelf. *)
Definition smallSheet : list Glyph := [blob 0 5 5 10 14; blob 1 30 5 4 10].

Definition smallAtlas : TexturePacker.atlas :=
  TexturePacker.mkAtlas [blob 0 2 2 10 14; blob 1 14 2 4 10] 128 18.

End Examples.

(** * Properties *)

(** ** The sort *)

Section SortFacts.
Context {A : Type} (cmp : A -> A -> Z).

Lemma insert_sorted_perm (a : A) (l : list A) :
  JS.insert_sorted cmp a l ≡ₚ a :: l.
Proof.
  induction l as [|b l IH]; simpl; [done|].
  destruct (cmp a b <=? 0); [done|].
  rewrite IH. apply perm_swap.
Qed.

Lemma sort_perm (l : list A) : JS.sort cmp l ≡ₚ l.
Proof.
  induction l as [|a l IH]; simpl; [done|].
  by rewrite insert_sorted_perm, IH.
Qed.

Lemma sort_length (l : list A) : length (JS.sort cmp l) = length l.
Proof. by rewrite sort_perm. Qed.

Lemma sort_elem_of (a : A) (l : list A) : a ∈ JS.sort cmp l ↔ a ∈ l.
Proof. by rewrite sort_perm. Qed.

Lemma sort_Forall (P : A -> Prop) (l : list A) :
  Forall P (JS.sort cmp l) ↔ Forall P l.
Proof. by rewrite sort_perm. Qed.

Lemma insert_sorted_head (a : A) (l : list A) :
  HdRel (JS.inOrder cmp) a l -> JS.insert_sorted cmp a l = a :: l.
Proof.
  destruct 1 as [|b l Hab]; simpl; [done|].
  unfold JS.inOrder in Hab. by destruct (Z.leb_spec (cmp a b) 0); [|lia].
Qed.

(** Sorting an array that is in order leaves it as it is. *)
Lemma sort_sorted_id (l : list A) : Sorted (JS.inOrder cmp) l -> JS.sort cmp l = l.
Proof.
  induction 1 as [|a l Hl IH Hhd]; simpl; [done|].
  rewrite IH. by apply insert_sorted_head.
Qed.

Hypothesis cmp_total : forall a b, cmp a b <= 0 \/ cmp b a <= 0.

Lemma insert_sorted_Sorted (a : A) (l : list A) :
  Sorted (JS.inOrder cmp) l -> Sorted (JS.inOrder cmp) (JS.insert_sorted cmp a l).
Proof.
  induction 1 as [|b l Hl IH Hhd]; simpl.
  - repeat constructor.
  - destruct (Z.leb_spec (cmp a b) 0) as [Hab|Hab].
    + constructor; [by constructor|by constructor].
    + constructor; [done|].
      destruct Hhd as [|c l Hbc]; simpl.
      * constructor. unfold JS.inOrder. destruct (cmp_total a b); lia.
      * destruct (cmp a c <=? 0); constructor; [|done].
        unfold JS.inOrder. destruct (cmp_total a b); lia.
Qed.

Lemma sort_Sorted (l : list A) : Sorted (JS.inOrder cmp) (JS.sort cmp l).
Proof.
  induction l as [|a l IH]; simpl; [constructor|].
  by apply insert_sorted_Sorted.
Qed.

Lemma sort_idemp (l : list A) : JS.sort cmp (JS.sort cmp l) = JS.sort cmp l.
Proof. apply sort_sorted_id, sort_Sorted. Qed.
End SortFacts.

(** ** The blob merger *)

Section MergeFacts.
Import ImageProcessor.

Lemma innerLoop_Some l i g1 j rest l' :
  (forall k, rest !! k = l !! (j + k)%nat) ->
  innerLoop l i g1 j rest = Some l' ->
  exists j' g2, l !! j' = Some g2 /\ i <> j' /\ shouldMerge g1 g2 = true /\
                l' = delete j' (<[i := mergeInto g1 g2]> l).
Proof.
  revert j. induction rest as [|g2 rest IH]; intros j Hrest; simpl; [done|].
  assert (Hrest' : forall k, rest !! k = l !! (S j + k)%nat).
  { intros k. replace (S j + k)%nat with (j + S k)%nat by lia.
    by rewrite <- Hrest. }
  destruct (Nat.eqb_spec i j) as [->|Hij]; [by apply IH|].
  destruct (shouldMerge g1 g2) eqn:Hm; [|by apply IH].
  intros [= <-]. exists j, g2. split_and!; try done.
  by rewrite <- (Nat.add_0_r j), <- Hrest.
Qed.

Lemma innerLoop_None l i g1 j rest :
  innerLoop l i g1 j rest = None ->
  forall k g2, rest !! k = Some g2 -> i <> (j + k)%nat -> shouldMerge g1 g2 = false.
Proof.
  revert j. induction rest as [|g rest IH]; intros j; simpl; [done|].
  intros Hloop k g2 Hk Hne.
  destruct k as [|k]; simpl in Hk.
  - injection Hk as ->. rewrite Nat.add_0_r in Hne.
    destruct (Nat.eqb_spec i j); [done|].
    by destruct (shouldMerge g1 g2).
  - assert (innerLoop l i g1 (S j) rest = None) as Hloop'.
    { destruct (i =? j)%nat; [done|]. by destruct (shouldMerge g1 g). }
    apply (IH _ Hloop' k); [done|lia].
Qed.

Lemma outerLoop_Some l i rest l' :
  (forall k, rest !! k = l !! (i + k)%nat) ->
  outerLoop l i rest = Some l' -> mergeStep l l'.
Proof.
  revert i. induction rest as [|g1 rest IH]; intros i Hrest; simpl; [done|].
  destruct (innerLoop l i g1 0 l) as [l1|] eqn:Hin.
  - intros [= <-].
    apply innerLoop_Some in Hin as (j & g2 & Hj & Hij & Hm & ->); [|done].
    apply merge_at; try done.
    by rewrite <- (Nat.add_0_r i), <- Hrest.
  - apply IH. intros k. replace (S i + k)%nat with (i + S k)%nat by lia.
    by rewrite <- Hrest.
Qed.

Lemma outerLoop_None l i rest :
  outerLoop l i rest = None ->
  forall k g1 j g2, rest !! k = Some g1 -> l !! j = Some g2 ->
                    (i + k)%nat <> j -> shouldMerge g1 g2 = false.
Proof.
  revert i. induction rest as [|g rest IH]; intros i; simpl; [done|].
  destruct (innerLoop l i g 0 l) eqn:Hin; [done|].
  intros Hout k g1 j g2 Hk Hj Hne. destruct k as [|k]; simpl in Hk.
  - injection Hk as ->. rewrite Nat.add_0_r in Hne.
    by apply (innerLoop_None _ _ _ _ _ Hin j).
  - apply (IH _ Hout k g1 j g2); [done|done|lia].
Qed.

Lemma mergePass_Some l l' : mergePass l = Some l' -> mergeStep l l'.
Proof. by apply outerLoop_Some. Qed.

(** A pass without a merge: no ordered pair of the array passes the test. *)
Lemma mergePass_None l :
  mergePass l = None <->
  (forall i j g1 g2, l !! i = Some g1 -> l !! j = Some g2 -> i <> j ->
                     shouldMerge g1 g2 = false).
Proof.
  split.
  - intros Hp i j g1 g2 Hi Hj Hne.
    by apply (outerLoop_None _ _ _ Hp i g1 j g2).
  - intros Hall. destruct (mergePass l) as [l'|] eqn:Hp; [|done].
    apply mergePass_Some in Hp. destruct Hp as [i j g1 g2 Hi Hj Hne Hm].
    by rewrite (Hall i j g1 g2) in Hm.
Qed.

Lemma mergeStep_length l l' : mergeStep l l' -> S (length l') = length l.
Proof.
  destruct 1 as [i j g1 g2 Hi Hj Hne Hm].
  apply lookup_lt_Some in Hj.
  rewrite length_delete; rewrite ?length_insert; [lia|].
  apply lookup_lt_is_Some. by rewrite length_insert.
Qed.

Lemma mergeStep_Forall (P : Glyph -> Prop) l l' :
  (forall g1 g2, P g1 -> P g2 -> P (mergeInto g1 g2)) ->
  mergeStep l l' -> Forall P l -> Forall P l'.
Proof.
  intros HP [i j g1 g2 Hi Hj Hne Hm] Hl.
  apply Forall_delete, Forall_insert; [done|].
  apply HP; by eapply Forall_lookup_1.
Qed.

(** The survivor of a merge is in the array after it. *)
Lemma mergeStep_survivor (l : list Glyph) i j g1 g2 :
  l !! i = Some g1 -> l !! j = Some g2 -> i <> j ->
  delete j (<[i := mergeInto g1 g2]> l)
    !! (if (i <? j)%nat then i else pred i) = Some (mergeInto g1 g2).
Proof.
  intros Hi Hj Hne. apply lookup_lt_Some in Hi as Hi'.
  destruct (Nat.ltb_spec i j).
  - rewrite list_lookup_delete_lt by done. by apply list_lookup_insert_eq.
  - rewrite list_lookup_delete_ge by lia.
    replace (S (pred i)) with i by lia. by apply list_lookup_insert_eq.
Qed.

Lemma sortByY_Sorted l :
  Sorted (JS.inOrder (fun a b => Glyph.y a - Glyph.y b)) (sortByY l).
Proof. apply sort_Sorted. intros a b. lia. Qed.

Lemma sortByY_idemp l : sortByY (sortByY l) = sortByY l.
Proof. apply sort_idemp. intros a b. lia. Qed.

(** The loop reaches its exit: with more fuel than elements the result is
    a sorted array on which a pass merges nothing. *)
Lemma mergeLoopFuel_fixed fuel l :
  (length l < fuel)%nat ->
  mergePass (mergeLoopFuel fuel l) = None /\
  sortByY (mergeLoopFuel fuel l) = mergeLoopFuel fuel l.
Proof.
  revert l. induction fuel as [|fuel IH]; intros l Hlen; [lia|]. simpl.
  destruct (mergePass (sortByY l)) as [merged|] eqn:Hp.
  - apply IH. apply mergePass_Some, mergeStep_length in Hp.
    unfold sortByY in Hp. rewrite sort_length in Hp. lia.
  - split; [done|apply sortByY_idemp].
Qed.

Lemma mergeLoop_fixed l :
  mergePass (mergeLoop l) = None /\ sortByY (mergeLoop l) = mergeLoop l.
Proof. apply mergeLoopFuel_fixed. lia. Qed.

(** More fuel than that changes nothing. *)
Lemma mergeLoopFuel_stable fuel1 fuel2 l :
  (length l < fuel1)%nat -> (length l < fuel2)%nat ->
  mergeLoopFuel fuel1 l = mergeLoopFuel fuel2 l.
Proof.
  revert fuel2 l. induction fuel1 as [|fuel1 IH]; intros fuel2 l H1 H2; [lia|].
  destruct fuel2 as [|fuel2]; [lia|]. simpl.
  destruct (mergePass (sortByY l)) as [merged|] eqn:Hp; [|done].
  apply mergePass_Some, mergeStep_length in Hp.
  unfold sortByY in Hp. rewrite sort_length in Hp.
  apply IH; lia.
Qed.

Lemma mergeLoopFuel_enough fuel l :
  (length l < fuel)%nat -> mergeLoopFuel fuel l = mergeLoop l.
Proof. intros Hlen. apply mergeLoopFuel_stable; [done|lia]. Qed.

Lemma mergeLoopFuel_Forall (P : Glyph -> Prop) fuel l :
  (forall g1 g2, P g1 -> P g2 -> P (mergeInto g1 g2)) ->
  Forall P l -> Forall P (mergeLoopFuel fuel l).
Proof.
  intros HP. revert l. induction fuel as [|fuel IH]; intros l Hl; simpl; [done|].
  assert (Forall P (sortByY l)) as Hs by by apply sort_Forall.
  destruct (mergePass (sortByY l)) as [merged|] eqn:Hp; [|done].
  apply IH. eapply mergeStep_Forall; [done| |done]. by apply mergePass_Some.
Qed.

Lemma mergeLoop_Forall (P : Glyph -> Prop) l :
  (forall g1 g2, P g1 -> P g2 -> P (mergeInto g1 g2)) ->
  Forall P l -> Forall P (mergeLoop l).
Proof. apply mergeLoopFuel_Forall. Qed.
End MergeFacts.

Section MergerClaims.
Import ImageProcessor.

Lemma Qltb_lt (a b : Q) : Qltb a b = true <-> (a < b)%Q.
Proof.
  unfold Qltb. rewrite negb_true_iff, <- not_true_iff_false, Qle_bool_iff.
  split; [apply Qnot_le_lt|apply Qlt_not_le].
Qed.

Lemma shouldMerge_spec (g1 g2 : Glyph) :
  shouldMerge g1 g2 = true <-> 0 < overlapX g1 g2 /\ gapWithinThreshold g1 g2.
Proof.
  unfold shouldMerge, isHorizAligned, closeEnough, gapWithinThreshold.
  rewrite !andb_true_iff, Z.ltb_lt, Z.leb_le, Qltb_lt.
  unfold allowedGap, distY, maxDim.
  assert (inject_Z (Z.max (Glyph.height g1) (Glyph.height g2)) * 0.5
          == 0.5 * inject_Z (Z.max (Glyph.height g1) (Glyph.height g2)))%Q as ->
    by ring.
  tauto.
Qed.

Lemma mergeLoop_pair (a b : Glyph) :
  mergeLoop [a; b] =
  let '(p, q) := if Glyph.y a - Glyph.y b <=? 0 then (a, b) else (b, a) in
  if shouldMerge p q then [mergeInto p q]
  else if shouldMerge q p then [mergeInto q p]
  else [p; q].
Proof.
  unfold mergeLoop, mergeLoopFuel, sortByY, mergePass. simpl.
  destruct (Glyph.y a - Glyph.y b <=? 0); simpl;
    repeat match goal with
           | |- context [shouldMerge ?u ?v] => destruct (shouldMerge u v); simpl
           end; reflexivity.
Qed.
Lemma mergeInto_contains_positive (g1 g2 : Glyph) :
  positiveSize g1 -> positiveSize g2 ->
  contains (mergeInto g1 g2) g1 /\ contains (mergeInto g1 g2) g2 /\
  Z.max (area g1) (area g2) <= area (mergeInto g1 g2) /\
  positiveSize (mergeInto g1 g2).
Proof.
  unfold positiveSize, contains, area, mergeInto. simpl.
  intros [Hw1 Hh1] [Hw2 Hh2].
  repeat split; try lia.
  apply Z.max_lub; apply Z.mul_le_mono_nonneg; lia.
Qed.

(** C2, as the specification words it, fails: with the tall blob above and
    the speck below it, the boxes overlap horizontally and the gap from the
    bottom of the upper to the top of the lower is -98, yet the merger fuses
    them (the pair passes the test in the other order, speck first, with a
    gap of -5). *)
Lemma merge_rule_counterexample :
  (Glyph.y Examples.tall <= Glyph.y Examples.speck /\
   0 < overlapX Examples.tall Examples.speck /\
   mergeLoop [Examples.tall; Examples.speck] = [Examples.blob 1 0 0 10 100] /\
   distY Examples.tall Examples.speck = -98 /\
   distY Examples.speck Examples.tall = -5) /\
  ~ claimedMergeRule.
Proof.
  split; [split_and!; [vm_compute; discriminate|reflexivity..]|].
  intros Hclaim.
  destruct (Hclaim Examples.tall Examples.speck) as [Hgap _];
    [vm_compute; discriminate|reflexivity|].
  destruct Hgap as [Hgap _]; [reflexivity|].
  vm_compute in Hgap. by apply Hgap.
Qed.

(** C2, amended: the test of an ordered pair (g1, g2) passes exactly when the
    boxes overlap horizontally and [distY = top(g2) - bottom(g1)] satisfies
    [-5 <= distY < max(5, 0.5 * max(height(g1), height(g2)))], the upper bound
    excluded; a pass over an array merges exactly when some ordered pair of
    its elements passes the test, so two blobs alone are merged exactly when
    the test passes in one of the two orders; for the stem and the dot
    [distY = 6] and [allowedGap = 5], so they are not merged. *)
Theorem merge_rule (g1 g2 : Glyph) :
  (shouldMerge g1 g2 = true <->
   0 < overlapX g1 g2 /\ gapWithinThreshold g1 g2) /\
  (forall sorted : list Glyph,
      mergePass sorted = None <->
      forall (i j : nat) (a b : Glyph),
        sorted !! i = Some a -> sorted !! j = Some b -> i <> j ->
        shouldMerge a b = false) /\
  (mergedTogether g1 g2 <->
   shouldMerge g1 g2 = true \/ shouldMerge g2 g1 = true) /\
  (distY Examples.dot Examples.stem = 6 /\
   (allowedGap Examples.dot Examples.stem == 5)%Q /\
   shouldMerge Examples.dot Examples.stem = false /\
   shouldMerge Examples.stem Examples.dot = false /\
   mergeLoop [Examples.stem; Examples.dot] = [Examples.dot; Examples.stem]).
Proof.
  split; [apply shouldMerge_spec|].
  split; [apply mergePass_None|].
  split; [|by vm_compute].
  unfold mergedTogether. rewrite mergeLoop_pair.
  destruct (Glyph.y g1 - Glyph.y g2 <=? 0);
    destruct (shouldMerge g1 g2), (shouldMerge g2 g1); simpl;
    intuition (try discriminate; try lia).
Qed.

(** C5: a pass of the merger that merges takes two blobs [g1] and [g2] of the
    array, at different indices, writes their union over [g1] and removes
    [g2]; the surviving box contains both input boxes and its area is at
    least the larger of the two input areas.  Blobs have a positive width and
    height. *)
Theorem merge_survivor_covers_inputs (sorted merged : list Glyph) :
  Forall positiveSize sorted ->
  mergePass sorted = Some merged ->
  exists (i j : nat) (g1 g2 : Glyph),
    sorted !! i = Some g1 /\ sorted !! j = Some g2 /\ i <> j /\
    shouldMerge g1 g2 = true /\
    merged = delete j (<[i := mergeInto g1 g2]> sorted) /\
    merged !! (if (i <? j)%nat then i else pred i) = Some (mergeInto g1 g2) /\
    contains (mergeInto g1 g2) g1 /\
    contains (mergeInto g1 g2) g2 /\
    Z.max (area g1) (area g2) <= area (mergeInto g1 g2).
Proof.
  intros Hpos Hpass. apply mergePass_Some in Hpass.
  destruct Hpass as [i j g1 g2 Hi Hj Hne Hm].
  exists i, j, g1, g2.
  destruct (mergeInto_contains_positive g1 g2) as (Hc1 & Hc2 & Harea & _);
    [by eapply Forall_lookup_1..|].
  split_and!; try done. by apply mergeStep_survivor.
Qed.

(** C5 on the stem and the dot two pixels above it. *)
Lemma merge_survivor_covers_inputs_witness :
  exists (i j : nat) (g1 g2 : Glyph),
    [Examples.nearDot; Examples.stem] !! i = Some g1 /\
    [Examples.nearDot; Examples.stem] !! j = Some g2 /\ i <> j /\
    shouldMerge g1 g2 = true /\
    [Examples.blob 1 10 4 4 16]
    = delete j (<[i := mergeInto g1 g2]> [Examples.nearDot; Examples.stem]) /\
    [Examples.blob 1 10 4 4 16] !! (if (i <? j)%nat then i else pred i)
    = Some (mergeInto g1 g2) /\
    contains (mergeInto g1 g2) g1 /\
    contains (mergeInto g1 g2) g2 /\
    Z.max (area g1) (area g2) <= area (mergeInto g1 g2).
Proof.
  apply (merge_survivor_covers_inputs [Examples.nearDot; Examples.stem]
                                      [Examples.blob 1 10 4 4 16]).
  - repeat constructor.
  - reflexivity.
Defined.

(** C6: the merger is idempotent.  Run on an array it has returned, its
    first pass merges nothing and the array comes back as it was. *)
Theorem mergeLoop_idempotent (rawGlyphs : list Glyph) :
  mergePass (sortByY (mergeLoop rawGlyphs)) = None /\
  mergeLoop (mergeLoop rawGlyphs) = mergeLoop rawGlyphs.
Proof.
  destruct (mergeLoop_fixed rawGlyphs) as [Hpass Hsorted].
  rewrite Hsorted. split; [done|].
  unfold mergeLoop at 1. simpl. by rewrite Hsorted, Hpass.
Qed.
End MergerClaims.

(** ** Rows *)

Section RowFacts.
Import ImageProcessor.

Lemma groupLoop_concat rest rows currentRow rowY rowH :
  concat (groupLoop rest rows currentRow rowY rowH)
  = concat rows ++ currentRow ++ rest.
Proof.
  revert rows currentRow rowY rowH.
  induction rest as [|g rest IH]; intros rows currentRow rowY rowH; simpl.
  - by rewrite concat_app; simpl.
  - destruct (joinsRow g rowY rowH); rewrite IH.
    + by rewrite <- (assoc_L (++)).
    + rewrite concat_app; simpl. by rewrite app_nil_r, <- (assoc_L (++)).
Qed.

(** The rows are consecutive stretches of the array they are cut from. *)
Lemma groupRows_concat (l : list Glyph) : concat (groupRows l) = l.
Proof. destruct l as [|g0 rest]; [done|]. simpl. by rewrite groupLoop_concat. Qed.

Lemma groupLoop_nonempty rest rows currentRow rowY rowH :
  Forall (fun row => row <> []) rows -> currentRow <> [] ->
  Forall (fun row => row <> []) (groupLoop rest rows currentRow rowY rowH).
Proof.
  revert rows currentRow rowY rowH.
  induction rest as [|g rest IH]; intros rows currentRow rowY rowH Hrows Hcur; simpl.
  - apply Forall_app; split; [done|by constructor].
  - destruct (joinsRow g rowY rowH); apply IH; try done.
    + by destruct currentRow.
    + apply Forall_app; split; [done|by constructor].
Qed.

Lemma groupRows_nonempty (l : list Glyph) :
  Forall (fun row => row <> []) (groupRows l).
Proof. destruct l as [|g0 rest]; [constructor|]. by apply groupLoop_nonempty. Qed.

Lemma fold_min_spec (ys : list Z) (a : Z) :
  let m := fold_left Z.min ys a in
  m <= a /\ Forall (fun y => m <= y) ys /\ (m = a \/ m ∈ ys).
Proof.
  revert a. induction ys as [|y ys IH]; intros a; simpl.
  - split; [lia|]. split; [constructor|by left].
  - destruct (IH (Z.min a y)) as (Hle & Hall & Hin).
    split; [lia|]. split; [constructor; [lia|done]|].
    destruct Hin as [Heq|Hin].
    + destruct (Z.min_spec a y) as [[_ Hm]|[_ Hm]].
      * left. by rewrite Heq.
      * right. rewrite Heq, Hm. apply elem_of_cons. by left.
    + right. apply elem_of_cons. by right.
Qed.

(** [Math.min] of a list that is not empty is its least element. *)
Lemma mathMin_Some (ys : list Z) (m : Z) :
  mathMin ys = Some m <-> m ∈ ys /\ Forall (fun y => m <= y) ys.
Proof.
  destruct ys as [|y0 ys]; simpl.
  - split; [done|]. intros [Hin _]. by apply elem_of_nil in Hin.
  - destruct (fold_min_spec ys y0) as (Hle & Hall & Hin). split.
    + intros [= <-]. split; [|by constructor].
      apply elem_of_cons. destruct Hin as [->|Hin]; [by left|by right].
    + intros [Hm Hmin]. f_equal.
      apply Forall_cons in Hmin as [Hm0 Hmin].
      apply Z.le_antisymm.
      * apply elem_of_cons in Hm as [->|Hm]; [done|].
        by apply (proj1 (Forall_forall _ _) Hall).
      * destruct Hin as [->|Hin]; [done|].
        by apply (proj1 (Forall_forall _ _) Hmin).
Qed.

Lemma mathMin_nonempty (ys : list Z) : ys <> [] -> exists m, mathMin ys = Some m.
Proof. destruct ys; [done|]. by eexists. Qed.

Lemma processRow_Some (row : list Glyph) (rowMinY : Z) :
  mathMin (Glyph.y <$> row) = Some rowMinY ->
  processRow row
  = setYoffset rowMinY <$> JS.sort (fun a b => Glyph.x a - Glyph.x b) row.
Proof. unfold processRow. by intros ->. Qed.

(** Every glyph of a processed row is a glyph of the row with a new
    [yoffset]. *)
Lemma processRow_elem_of (row : list Glyph) (g' : Glyph) :
  g' ∈ processRow row ->
  exists g rowMinY, g ∈ row /\ g' = setYoffset rowMinY g.
Proof.
  unfold processRow. destruct (mathMin (Glyph.y <$> row)) as [m|]; [|by intros ?%elem_of_nil].
  intros (g & -> & Hg)%list_elem_of_fmap. exists g, m.
  by rewrite sort_elem_of in Hg.
Qed.

Lemma organizeRows_elem_of (rawGlyphs : list Glyph) (g' : Glyph) :
  g' ∈ organizeRows rawGlyphs ->
  exists g rowMinY, g ∈ rawGlyphs /\ g' = setYoffset rowMinY g.
Proof.
  unfold organizeRows. rewrite list_elem_of_In, in_concat.
  intros (out & Hout & Hg).
  apply list_elem_of_In in Hout. apply list_elem_of_In in Hg.
  apply list_elem_of_fmap in Hout as (row & -> & Hrow).
  apply processRow_elem_of in Hg as (g & m & Hg & ->).
  exists g, m. split; [|done].
  rewrite <- (sort_elem_of roughCompare), <- (groupRows_concat (JS.sort _ _)).
  rewrite list_elem_of_In, in_concat. exists row.
  split; by apply list_elem_of_In.
Qed.

(** C7: the rows are consecutive stretches of the roughly sorted array and
    none is empty; in every row each glyph's [yoffset] is its [y] minus the
    least [y] of the row and is not negative, and the least [yoffset] of the
    row is 0; so every glyph of the result has a [yoffset] that is not
    negative. *)
Theorem row_offsets (rawGlyphs : list Glyph) :
  let rows := groupRows (JS.sort roughCompare rawGlyphs) in
  concat rows = JS.sort roughCompare rawGlyphs /\
  organizeRows rawGlyphs = concat (processRow <$> rows) /\
  Forall (fun row =>
            exists rowMinY,
              mathMin (Glyph.y <$> row) = Some rowMinY /\
              Forall (fun g => exists g0, g0 ∈ row /\
                                 Glyph.y g = Glyph.y g0 /\
                                 Glyph.yoffset g = Glyph.y g0 - rowMinY /\
                                 0 <= Glyph.yoffset g)
                     (processRow row) /\
              mathMin (Glyph.yoffset <$> processRow row) = Some 0) rows /\
  Forall (fun g => 0 <= Glyph.yoffset g) (organizeRows rawGlyphs).
Proof.
  intros rows.
  assert (Hrows : Forall (fun row =>
            exists rowMinY,
              mathMin (Glyph.y <$> row) = Some rowMinY /\
              Forall (fun g => exists g0, g0 ∈ row /\
                                 Glyph.y g = Glyph.y g0 /\
                                 Glyph.yoffset g = Glyph.y g0 - rowMinY /\
                                 0 <= Glyph.yoffset g)
                     (processRow row) /\
              mathMin (Glyph.yoffset <$> processRow row) = Some 0) rows).
  { eapply Forall_impl; [apply groupRows_nonempty|].
    intros row Hne. simpl in Hne.
    destruct (mathMin_nonempty (Glyph.y <$> row)) as [m Hm]; [by destruct row|].
    exists m. split; [done|].
    rewrite (processRow_Some _ _ Hm).
    apply mathMin_Some in Hm as [Hin Hmin].
    rewrite Forall_fmap in Hmin. split.
    - apply Forall_fmap, sort_Forall.
      eapply Forall_impl; [apply Forall_and; split; [exact Hmin|]|].
      + apply Forall_forall. intros g Hg. exact Hg.
      + intros g [Hle Hg]. simpl in *. exists g. repeat split; [done|lia].
    - apply mathMin_Some. split.
      + apply list_elem_of_fmap in Hin as (g & -> & Hg).
        apply list_elem_of_fmap. exists (setYoffset (Glyph.y g) g). split; [simpl; lia|].
        apply list_elem_of_fmap. exists g. split; [done|]. by apply sort_elem_of.
      + rewrite !Forall_fmap. apply sort_Forall.
        eapply Forall_impl; [exact Hmin|]. intros g Hg. simpl in *. lia. }
  split; [apply groupRows_concat|]. split; [done|]. split; [done|].
  unfold organizeRows. fold rows. apply Forall_concat, Forall_fmap.
  eapply Forall_impl; [exact Hrows|].
  intros row (m & _ & Hall & _). simpl.
  eapply Forall_impl; [exact Hall|]. by intros g (g0 & _ & _ & _ & Hge).
Qed.
End RowFacts.

(** ** The scan and detectGlyphs *)

Section ScanFacts.
Import ImageProcessor.
Variables (width height : Z) (data : list Z).

Lemma scanPixel_blobs (y x : Z) (st : scanState) :
  Forall freshBlob st.1.2 ->
  Forall freshBlob (scanPixel width height data y st x).1.2.
Proof.
  destruct st as [[visited rawGlyphs] counter]; simpl. intros Hall.
  destruct (isVisited visited (y * width + x)); [done|].
  destruct (isContentPixel _ _ _ _ _ _ _); [|done].
  destruct (floodFill _ _ _ _ _ _) as [visited2 e].
  destruct (Z.ltb_spec 0 (maxX e - minX e + 1)); simpl; [|done].
  destruct (Z.ltb_spec 0 (maxY e - minY e + 1)); simpl; [|done].
  apply Forall_app; split; [done|].
  repeat constructor; simpl; lia.
Qed.

Lemma scanRow_blobs (st : scanState) (y : Z) :
  Forall freshBlob st.1.2 ->
  Forall freshBlob (scanRow width height data st y).1.2.
Proof.
  unfold scanRow. generalize (seqZ 0 width). intros xs. revert st.
  induction xs as [|x xs IH]; intros st Hst; simpl; [done|].
  by apply IH, scanPixel_blobs.
Qed.

Lemma extractBlobs_fresh : Forall freshBlob (extractBlobs width height data).
Proof.
  unfold extractBlobs.
  assert (forall ys st, Forall freshBlob st.1.2 ->
            Forall freshBlob (fold_left (scanRow width height data) ys st).1.2) as Hfold.
  { induction ys as [|y ys IH]; intros st Hst; simpl; [done|].
    by apply IH, scanRow_blobs. }
  specialize (Hfold (seqZ 0 height)
                    (replicate (Z.to_nat (width * height)) false, [], 0)).
  destruct (fold_left _ _ _) as [[visited rawGlyphs] counter].
  apply Hfold. constructor.
Qed.
End ScanFacts.

Section FloodFillFacts.
Import ImageProcessor.
Variables (width height : Z) (data : list Z).

Lemma unvisited_insert (visited : list bool) (n : nat) :
  visited !! n = Some false ->
  S (unvisited (<[n := true]> visited)) = unvisited visited.
Proof.
  revert n. induction visited as [|v visited IH]; intros [|n]; simpl; try done.
  - by intros [= ->].
  - intros Hn. rewrite <- (IH n Hn). lia.
Qed.

Lemma unvisited_le_length (visited : list bool) :
  (unvisited visited <= length visited)%nat.
Proof. induction visited as [|[] visited IH]; simpl; lia. Qed.

Lemma isVisited_false (visited : list bool) (p : Z) :
  (Z.to_nat p < length visited)%nat -> isVisited visited p = false ->
  visited !! Z.to_nat p = Some false.
Proof.
  unfold isVisited. intros Hlt.
  destruct (lookup_lt_is_Some_2 visited _ Hlt) as [v ->]. by intros ->.
Qed.

(** A neighbour that is pushed was an unvisited pixel of the image. *)
Lemma visitNeighbor_measure (queue : list Z) (visited : list bool) (n : Z * Z) :
  length visited = Z.to_nat (width * height) ->
  let st' := visitNeighbor width height data (queue, visited) n in
  (length st'.1 + unvisited st'.2 = length queue + unvisited visited)%nat /\
  length st'.2 = length visited.
Proof.
  intros Hlen. destruct n as [nx ny]. unfold visitNeighbor.
  destruct (Z.leb_spec 0 nx); simpl; [|done].
  destruct (Z.ltb_spec nx width); simpl; [|done].
  destruct (Z.leb_spec 0 ny); simpl; [|done].
  destruct (Z.ltb_spec ny height); simpl; [|done].
  destruct (isVisited visited (ny * width + nx)) eqn:Hv; simpl; [done|].
  destruct (isContentPixel _ _ _ _ _ _ _); simpl; [|done].
  rewrite length_app, length_insert. simpl. split; [|done].
  assert (Z.to_nat (ny * width + nx) < length visited)%nat as Hlt.
  { rewrite Hlen. apply Z2Nat.inj_lt; nia. }
  pose proof (unvisited_insert visited _ (isVisited_false _ _ Hlt Hv)). lia.
Qed.

Lemma visitNeighbors_measure (ns : list (Z * Z)) (queue : list Z) (visited : list bool) :
  length visited = Z.to_nat (width * height) ->
  let st' := fold_left (visitNeighbor width height data) ns (queue, visited) in
  (length st'.1 + unvisited st'.2 = length queue + unvisited visited)%nat /\
  length st'.2 = length visited.
Proof.
  revert queue visited.
  induction ns as [|n ns IH]; intros queue visited Hlen; cbn [fold_left]; [done|].
  destruct (visitNeighbor_measure queue visited n Hlen) as [Hm Hl].
  destruct (visitNeighbor width height data (queue, visited) n) as [queue1 visited1].
  simpl in Hm, Hl.
  destruct (IH queue1 visited1) as [Hm' Hl']; [congruence|].
  cbv zeta. split; [rewrite Hm'; exact Hm|congruence].
Qed.

(** The flood fill reaches the end of its queue: any two amounts of fuel that
    cover the queue and the unvisited pixels give the same result. *)
Lemma floodFill_fuel (fuel1 fuel2 : nat) (queue : list Z) (visited : list bool)
      (e : extents) :
  length visited = Z.to_nat (width * height) ->
  (length queue + unvisited visited <= fuel1)%nat ->
  (length queue + unvisited visited <= fuel2)%nat ->
  floodFill width height data fuel1 queue visited e
  = floodFill width height data fuel2 queue visited e.
Proof.
  revert fuel2 queue visited e.
  induction fuel1 as [|fuel1 IH]; intros fuel2 queue visited e Hlen H1 H2.
  - destruct queue; [|simpl in H1; lia]. by destruct fuel2.
  - destruct fuel2 as [|fuel2].
    + destruct queue; [done|simpl in H2; lia].
    + cbn [floodFill]. destruct queue as [|curr queue]; [done|].
      pose proof (visitNeighbors_measure
                    (neighbors (Z.rem curr width) (curr / width))
                    queue visited Hlen) as [Hm Hl].
      destruct (fold_left _ _ _) as [queue1 visited1]. simpl in *.
      apply IH; [congruence|lia|lia].
Qed.

Lemma floodFill_length (fuel : nat) (queue : list Z) (visited : list bool)
      (e : extents) :
  length visited = Z.to_nat (width * height) ->
  length (floodFill width height data fuel queue visited e).1 = length visited.
Proof.
  revert queue visited e.
  induction fuel as [|fuel IH]; intros queue visited e Hlen; cbn [floodFill]; [done|].
  destruct queue as [|curr queue]; [done|].
  pose proof (visitNeighbors_measure
                (neighbors (Z.rem curr width) (curr / width))
                queue visited Hlen) as [_ Hl].
  destruct (fold_left _ _ _) as [queue1 visited1]. simpl in *.
  rewrite IH; congruence.
Qed.

(** The fuel [scanPixel] gives the flood fill, one unit a pixel, is enough. *)
Lemma scanPixel_fuel (visited : list bool) (x y : Z) (e : extents) (fuel : nat) :
  length visited = Z.to_nat (width * height) ->
  0 <= x < width -> 0 <= y < height ->
  isVisited visited (y * width + x) = false ->
  (Z.to_nat (width * height) <= fuel)%nat ->
  floodFill width height data (Z.to_nat (width * height)) [y * width + x]
            (<[Z.to_nat (y * width + x) := true]> visited) e
  = floodFill width height data fuel [y * width + x]
              (<[Z.to_nat (y * width + x) := true]> visited) e.
Proof.
  intros Hlen Hx Hy Hv Hfuel.
  assert (Z.to_nat (y * width + x) < length visited)%nat as Hlt.
  { rewrite Hlen. apply Z2Nat.inj_lt; nia. }
  pose proof (unvisited_insert visited _ (isVisited_false _ _ Hlt Hv)) as Hu.
  pose proof (unvisited_le_length visited).
  apply floodFill_fuel; rewrite ?length_insert; simpl; lia.
Qed.

(** The visited array keeps its length through the scan. *)
Lemma scanPixel_visited_length (y x : Z) (st : scanState) :
  length st.1.1 = Z.to_nat (width * height) ->
  length (scanPixel width height data y st x).1.1 = Z.to_nat (width * height).
Proof.
  destruct st as [[visited rawGlyphs] counter]; simpl. intros Hlen.
  destruct (isVisited visited (y * width + x)); [done|].
  destruct (isContentPixel _ _ _ _ _ _ _); [|done].
  pose proof (floodFill_length (Z.to_nat (width * height)) [y * width + x]
                (<[Z.to_nat (y * width + x) := true]> visited)
                (mkExtents x x y y)) as Hl.
  rewrite length_insert in Hl. specialize (Hl Hlen).
  destruct (floodFill _ _ _ _ _ _) as [visited2 e]. simpl in Hl.
  destruct ((0 <? _) && (0 <? _)); simpl; congruence.
Qed.
End FloodFillFacts.

Section DetectFacts.
Import ImageProcessor.

(** The examples of the specification, run through the embedding. *)
Example detectGlyphs_uniform :
  detectGlyphs (Some (Examples.transparentCanvas 8 8 (fun _ _ => false))) = [].
Proof. by vm_compute. Qed.

Example detectGlyphs_rectangle :
  detectGlyphs (Some Examples.rectangleImage) = [Examples.blob 0 5 5 10 14].
Proof. by vm_compute. Qed.

Example detectGlyphs_letter :
  detectGlyphs (Some Examples.letterImage)
  = [Glyph.mk 0 [] 3 2 2 12 0 0 3; Glyph.mk 1 [] 7 4 3 10 0 2 4].
Proof. by vm_compute. Qed.

Example detectGlyphs_no_context : detectGlyphs None = [].
Proof. reflexivity. Qed.

Lemma mergeInto_advanceFits (g1 g2 : Glyph) : advanceFits (mergeInto g1 g2).
Proof. reflexivity. Qed.

(** C10: every glyph [detectGlyphs] returns has [xadvance = width + 1]: a
    blob is created with it, a merge writes it again for the new width, and
    the sorts and the row offsets leave both fields alone. *)
Theorem detectGlyphs_advance (ctx : option ImageData.t) :
  Forall (fun g => Glyph.xadvance g = Glyph.width g + 1) (detectGlyphs ctx).
Proof.
  destruct ctx as [imageData|]; simpl; [|constructor].
  apply Forall_forall. intros g' Hg'.
  apply organizeRows_elem_of in Hg' as (g & m & Hg & ->). simpl.
  revert g Hg. apply Forall_forall.
  apply (mergeLoop_Forall advanceFits).
  - intros g1 g2 _ _. apply mergeInto_advanceFits.
  - eapply Forall_impl; [apply extractBlobs_fresh|].
    by intros g [_ Hg].
Qed.

(** The blobs the merger works on in [detectGlyphs] have positive sizes, as
    C5 takes them to have. *)
Lemma detectGlyphs_merger_input_positive (imageData : ImageData.t) :
  Forall positiveSize
    (extractBlobs (ImageData.width imageData) (ImageData.height imageData)
                  (ImageData.data imageData)).
Proof.
  eapply Forall_impl; [apply extractBlobs_fresh|]. by intros g [Hg _].
Qed.
End DetectFacts.

(** ** The texture packer *)

Section PackerFacts.
Import TexturePacker.

Lemma growWidth_power (fuel : nat) (targetWidth side : Z) :
  isPowerOfTwo targetWidth -> 128 <= targetWidth ->
  isPowerOfTwo (growWidth fuel targetWidth side) /\
  128 <= growWidth fuel targetWidth side.
Proof.
  revert targetWidth. induction fuel as [|fuel IH]; intros tw Hpow Hge; simpl; [done|].
  destruct (tw <? side); [|done]. apply IH; [|lia].
  destruct Hpow as (k & Hk & ->). exists (k + 1). split; [lia|].
  by rewrite Z.pow_add_r, Z.pow_1_r by lia.
Qed.

(** The loop leaves when the width has reached [side]. *)
Lemma growWidth_reaches (fuel : nat) (targetWidth side : Z) :
  0 < targetWidth -> side <= targetWidth * 2 ^ Z.of_nat fuel ->
  side <= growWidth fuel targetWidth side.
Proof.
  revert targetWidth. induction fuel as [|fuel IH]; intros tw Hpos Hle; simpl.
  - simpl in Hle. lia.
  - destruct (Z.ltb_spec tw side); [|done]. apply IH; [lia|].
    rewrite Nat2Z.inj_succ, Z.pow_succ_r in Hle by lia. lia.
Qed.

Lemma chooseWidth_power (side : Z) :
  isPowerOfTwo (chooseWidth side) /\ 128 <= chooseWidth side.
Proof. apply growWidth_power; [by exists 7|lia]. Qed.

Lemma chooseWidth_reaches (side : Z) : side <= chooseWidth side.
Proof.
  apply growWidth_reaches; [lia|].
  rewrite Z2Nat.id by apply Z.log2_up_nonneg.
  destruct (Z.le_gt_cases side 0) as [Hle|Hgt].
  - pose proof (Z.pow_pos_nonneg 2 (Z.log2_up side)) as Hp.
    specialize (Hp ltac:(lia) (Z.log2_up_nonneg side)). lia.
  - pose proof (Z.log2_log2_up_spec side Hgt) as [_ Hup]. lia.
Qed.
(** Ordered pairs of a list, for a symmetric relation. *)
Lemma ForallOrdPairs_snoc {A} (R : A -> A -> Prop) (l : list A) (a : A) :
  ForallOrdPairs R l -> Forall (fun b => R b a) l -> ForallOrdPairs R (l ++ [a]).
Proof.
  induction 1 as [|b l Hb Hl IH]; intros Ha; simpl.
  - repeat constructor.
  - apply Forall_cons in Ha as [Hba Ha]. constructor; [|by apply IH].
    apply Forall_app; split; [done|by constructor].
Qed.

Lemma ForallOrdPairs_perm {A} (R : A -> A -> Prop) (l l' : list A) :
  (forall a b, R a b -> R b a) ->
  l ≡ₚ l' -> ForallOrdPairs R l -> ForallOrdPairs R l'.
Proof.
  intros Hsym. induction 1 as [|a l l' Hp IH|a b l|l1 l2 l3 H12 IH12 H23 IH23]; intros Hl.
  - done.
  - inversion_clear Hl as [|? ? Ha Hl']. constructor; [by rewrite <- Hp|by apply IH].
  - inversion_clear Hl as [|? ? Hb Hl']. inversion_clear Hl' as [|? ? Ha Hl''].
    apply Forall_cons in Hb as [Hba Hb].
    constructor; [constructor; [by apply Hsym|done]|by constructor].
  - by apply IH23, IH12.
Qed.

Lemma ForallOrdPairs_fmap {A B} (f : A -> B) (R : B -> B -> Prop) (l : list A) :
  ForallOrdPairs (fun a b => R (f a) (f b)) l -> ForallOrdPairs R (f <$> l).
Proof.
  induction 1 as [|a l Ha Hl IH]; simpl; constructor; [|done].
  by apply Forall_fmap.
Qed.

Lemma ForallOrdPairs_lookup {A} (R : A -> A -> Prop) (l : list A) :
  (forall a b, R a b -> R b a) ->
  ForallOrdPairs R l ->
  forall i j a b, i <> j -> l !! i = Some a -> l !! j = Some b -> R a b.
Proof.
  intros Hsym Hl.
  assert (forall i j a b, (i < j)%nat -> l !! i = Some a -> l !! j = Some b -> R a b) as Hlt.
  { induction Hl as [|c l Hc Hl IH]; intros i j a b Hij Hi Hj; [done|].
    destruct j as [|j]; [lia|]. simpl in Hj. destruct i as [|i]; simpl in Hi.
    - injection Hi as ->. by apply (Forall_lookup_1 _ _ _ _ Hc Hj).
    - apply (IH i j); [lia|done|done]. }
  intros i j a b Hne Hi Hj.
  destruct (Nat.lt_total i j) as [Hij|[Hij|Hij]]; [by eapply Hlt|lia|].
  apply Hsym. by eapply Hlt.
Qed.

Lemma disjointItems_sym (p q : packedItem) : disjointItems p q -> disjointItems q p.
Proof. unfold disjointItems, rectsIntersect. tauto. Qed.

Lemma shelfInv_start (targetWidth : Z) :
  shelfInv targetWidth (mkCursor padding padding 0 []).
Proof. split; simpl; try done; constructor. Qed.

(** Placing an item keeps the invariant. *)
Lemma placeItem_inv (targetWidth : Z) (c : cursor) (it : item) :
  shelfInv targetWidth c -> itemFaithful it -> 0 <= w it ->
  shelfInv targetWidth (placeItem targetWidth c it).
Proof.
  intros [Hx Hh Hf Hp Hd] Hit Hw. unfold placeItem, padding in *.
  destruct (Z.ltb_spec targetWidth (cur_x c + w it + 2)) as [Hwrap|Hfit];
    split; simpl; unfold padding; try lia;
    try (apply Forall_app; split; [done|]; constructor; [done|constructor]).
  - apply Forall_app; split.
    + eapply Forall_impl; [exact Hp|]. unfold placedOk, padding; simpl.
      intros p. lia.
    + constructor; [|constructor]. unfold placedOk, padding; simpl. lia.
  - apply ForallOrdPairs_snoc; [done|].
    eapply Forall_impl; [apply Forall_and; split; [exact Hp|exact Hf]|].
    intros p [Hpl (_ & Hpw & Hph)].
    unfold placedOk, disjointItems, rectsIntersect, padding in *; simpl in *.
    destruct Hit as (_ & Hiw & Hih). lia.
  - apply Forall_app; split.
    + eapply Forall_impl; [exact Hp|]. unfold placedOk, padding; simpl.
      intros p. lia.
    + constructor; [|constructor]. unfold placedOk, padding; simpl. lia.
  - apply ForallOrdPairs_snoc; [done|].
    eapply Forall_impl; [apply Forall_and; split; [exact Hp|exact Hf]|].
    intros p [Hpl (_ & Hpw & Hph)].
    unfold placedOk, disjointItems, rectsIntersect, padding in *; simpl in *.
    destruct Hit as (_ & Hiw & Hih). lia.
Qed.

Lemma placeItems_inv (targetWidth : Z) (items : list item) (c : cursor) :
  shelfInv targetWidth c ->
  Forall itemFaithful items -> Forall (fun it => 0 <= w it) items ->
  shelfInv targetWidth (fold_left (placeItem targetWidth) items c).
Proof.
  revert c. induction items as [|it items IH]; intros c Hc Hf Hw; simpl; [done|].
  apply Forall_cons in Hf as [Hit Hf]. apply Forall_cons in Hw as [Hwit Hw].
  apply IH; [by apply placeItem_inv|done|done].
Qed.

(** The placed items are the items, in the order they were placed. *)
Lemma placeItems_packed (targetWidth : Z) (items : list item) (c : cursor) :
  packed <$> packedItems (fold_left (placeItem targetWidth) items c)
  = (packed <$> packedItems c) ++ items.
Proof.
  revert c. induction items as [|it items IH]; intros c; simpl.
  - by rewrite app_nil_r.
  - rewrite IH. unfold placeItem.
    destruct (targetWidth <? cur_x c + w it + padding); simpl;
      by rewrite fmap_app, <- (assoc_L (++)).
Qed.
Lemma toItem_faithful (g : Glyph) : itemFaithful (toItem g).
Proof. done. Qed.

(** The cursor after the layout loop of [layout]. *)
Lemma layout_inv (glyphs : list Glyph) :
  Forall (fun g => 0 <= Glyph.width g) glyphs ->
  let items := JS.sort (fun a b => h b - h a) (toItem <$> glyphs) in
  let targetWidth := chooseWidth (side (totalArea items)) in
  let c := fold_left (placeItem targetWidth) items (mkCursor padding padding 0 []) in
  shelfInv targetWidth c /\ packed <$> packedItems c = items.
Proof.
  intros Hw items targetWidth c. split.
  - apply placeItems_inv; [apply shelfInv_start|..]; apply sort_Forall, Forall_fmap.
    + apply Forall_forall. intros g _. apply toItem_faithful.
    + exact Hw.
  - unfold c. by rewrite placeItems_packed.
Qed.

Lemma layout_glyphs_perm (glyphs : list Glyph) :
  let items := JS.sort (fun a b => h b - h a) (toItem <$> glyphs) in
  let targetWidth := chooseWidth (side (totalArea items)) in
  let c := fold_left (placeItem targetWidth) items (mkCursor padding padding 0 []) in
  TexturePacker.glyphs (layout glyphs) ≡ₚ relocate <$> packedItems c.
Proof. apply sort_perm. Qed.

Lemma layout_idAndSize (glyphs : list Glyph) :
  idAndSize <$> TexturePacker.glyphs (layout glyphs) ≡ₚ idAndSize <$> glyphs.
Proof.
  rewrite layout_glyphs_perm.
  set (items := JS.sort (fun a b => h b - h a) (toItem <$> glyphs)).
  set (c := fold_left _ _ _).
  transitivity ((fun it => idAndSize (originalGlyph it)) <$> (packed <$> packedItems c)).
  { by rewrite <- !list_fmap_compose. }
  unfold c. rewrite placeItems_packed. simpl. unfold items.
  rewrite sort_perm. by rewrite <- list_fmap_compose.
Qed.

(** A pixel that two rectangles cover makes them intersect. *)
Lemma covers_intersect (a b : Glyph) (px py : Z) :
  covers a px py -> covers b px py -> rectsIntersect a b.
Proof. unfold covers, rectsIntersect. lia. Qed.

(** C1: in the atlas [packTexture] resolves with, for glyphs whose width is
    not negative (the data model has it positive), no two placed rectangles
    intersect, so no pixel is covered twice; the width is a power of two and
    at least 128; and the glyphs of the atlas carry the ids, widths and
    heights of the input glyphs: every output glyph has the width and height
    of an input glyph with its id. *)
Theorem packTexture_atlas (imageLoads hasContext : bool) (glyphs : list Glyph)
        (a : atlas) :
  Forall (fun g => 0 <= Glyph.width g) glyphs ->
  packTexture imageLoads hasContext glyphs = Some a ->
  (forall (i j : nat) (g1 g2 : Glyph),
      i <> j ->
      TexturePacker.glyphs a !! i = Some g1 ->
      TexturePacker.glyphs a !! j = Some g2 ->
      ~ rectsIntersect g1 g2 /\
      (forall px py, ~ (covers g1 px py /\ covers g2 px py))) /\
  (isPowerOfTwo (width a) /\ 128 <= width a) /\
  (idAndSize <$> TexturePacker.glyphs a ≡ₚ idAndSize <$> glyphs /\
   Forall (fun o => exists g, g ∈ glyphs /\ Glyph.id g = Glyph.id o /\
                     Glyph.width o = Glyph.width g /\
                     Glyph.height o = Glyph.height g)
          (TexturePacker.glyphs a)).
Proof.
  intros Hw Hpack. unfold packTexture in Hpack.
  destruct imageLoads; [|done]. destruct hasContext; [|done].
  injection Hpack as <-.
  destruct (layout_inv glyphs Hw) as [Hinv _].
  split; [|split].
  - assert (ForallOrdPairs (fun g1 g2 => ~ rectsIntersect g1 g2)
                           (TexturePacker.glyphs (layout glyphs))) as Hpairs.
    { eapply ForallOrdPairs_perm;
        [|symmetry; apply layout_glyphs_perm
         |apply ForallOrdPairs_fmap, (inv_disjoint _ _ Hinv)].
      unfold rectsIntersect. tauto. }
    intros i j g1 g2 Hne Hi Hj.
    assert (~ rectsIntersect g1 g2) as Hdis.
    { revert i j g1 g2 Hne Hi Hj. apply ForallOrdPairs_lookup; [|done].
      unfold rectsIntersect. tauto. }
    split; [done|]. intros px py [H1 H2]. by eapply Hdis, covers_intersect.
  - apply chooseWidth_power.
  - pose proof (layout_idAndSize glyphs) as Hperm. split; [done|].
    apply Forall_forall. intros o Ho.
    apply (list_elem_of_fmap_2 idAndSize) in Ho. rewrite Hperm in Ho.
    apply list_elem_of_fmap in Ho as (g & Heq & Hg).
    exists g. unfold idAndSize in Heq. injection Heq as Hid Hwd Hht. done.
Qed.

(** C1 on the sheet with the wide glyph. *)
Lemma packTexture_atlas_witness :
  (forall (i j : nat) (g1 g2 : Glyph),
      i <> j ->
      TexturePacker.glyphs Examples.wideAtlas !! i = Some g1 ->
      TexturePacker.glyphs Examples.wideAtlas !! j = Some g2 ->
      ~ rectsIntersect g1 g2 /\
      (forall px py, ~ (covers g1 px py /\ covers g2 px py))) /\
  (isPowerOfTwo (width Examples.wideAtlas) /\ 128 <= width Examples.wideAtlas) /\
  (idAndSize <$> TexturePacker.glyphs Examples.wideAtlas
   ≡ₚ idAndSize <$> Examples.wideSheet /\
   Forall (fun o => exists g, g ∈ Examples.wideSheet /\ Glyph.id g = Glyph.id o /\
                     Glyph.width o = Glyph.width g /\
                     Glyph.height o = Glyph.height g)
          (TexturePacker.glyphs Examples.wideAtlas)).
Proof.
  apply (packTexture_atlas true true Examples.wideSheet Examples.wideAtlas).
  - repeat constructor; vm_compute; discriminate.
  - reflexivity.
Defined.

(** Where a glyph wider than the target width less twice the padding ends
    up: at the left padding of a shelf; and past the right edge of the atlas
    when it is wider than the target width less the padding. *)
Lemma wide_glyph_placement (glyphs : list Glyph) (g : Glyph) :
  Forall (fun g => 0 <= Glyph.width g) glyphs ->
  g ∈ glyphs ->
  width (layout glyphs) - 2 * padding < Glyph.width g ->
  exists g', g' ∈ TexturePacker.glyphs (layout glyphs) /\
             idAndSize g' = idAndSize g /\
             Glyph.x g' = padding /\
             (width (layout glyphs) - padding < Glyph.width g ->
              width (layout glyphs) < Glyph.x g' + Glyph.width g').
Proof.
  intros Hw Hg Hwide.
  destruct (layout_inv glyphs Hw) as [Hinv Hitems].
  set (items := JS.sort (fun a b => h b - h a) (toItem <$> glyphs)) in *.
  set (c := fold_left _ _ _) in *.
  assert (toItem g ∈ packed <$> packedItems c) as Hin.
  { rewrite Hitems. unfold items. rewrite sort_elem_of. by apply list_elem_of_fmap_2. }
  apply list_elem_of_fmap in Hin as (p & Hp & Hpin).
  pose proof (proj1 (Forall_forall _ _) (inv_placed _ _ Hinv) p Hpin)
    as (_ & _ & Hpad & Hfit).
  rewrite <- Hp in Hfit. simpl in Hwide, Hfit. fold items in Hwide, Hfit.
  exists (relocate p). split; [|split; [|split]].
  - rewrite layout_glyphs_perm. by apply list_elem_of_fmap_2.
  - unfold idAndSize, relocate. simpl. by rewrite <- Hp.
  - simpl. unfold padding in *. lia.
  - simpl. rewrite <- Hp. simpl. fold items. unfold padding in *. lia.
Qed.

(** C9: there is an input on which the packer puts a glyph wider than the
    atlas width less twice the padding at [x = padding], its right edge past
    the width of the atlas: placements need not lie within the atlas. *)
Theorem packTexture_can_overflow :
  exists (glyphs : list Glyph) (a : atlas) (g g' : Glyph),
    packTexture true true glyphs = Some a /\
    g ∈ glyphs /\
    width a - 2 * padding < Glyph.width g /\
    g' ∈ TexturePacker.glyphs a /\
    idAndSize g' = idAndSize g /\
    Glyph.x g' = padding /\
    width a < Glyph.x g' + Glyph.width g'.
Proof.
  exists Examples.wideSheet, (layout Examples.wideSheet), (Examples.blob 1 0 0 300 10).
  destruct (wide_glyph_placement Examples.wideSheet (Examples.blob 1 0 0 300 10))
    as (g' & Hin & Hsame & Hx & Hover).
  - repeat constructor; vm_compute; discriminate.
  - apply elem_of_cons; right. apply elem_of_cons; by left.
  - by vm_compute.
  - exists g'. split_and!; try done.
    + apply elem_of_cons; right. apply elem_of_cons; by left.
    + apply Hover. by vm_compute.
Qed.
End PackerFacts.

(** ** The text export *)

Section ExportFacts.
Import FntGenerator FntReader.

Lemma expect_app (pre s : JS.jsstring) : expect pre (pre ++ s) = Some s.
Proof. induction pre as [|p pre IH]; simpl; [done|]. by rewrite Z.eqb_refl. Qed.

Lemma readDigits_show (d : Decimal.uint) (rest : JS.jsstring) :
  nonDigitHead rest -> readDigits (showUint d ++ rest) = (d, rest).
Proof.
  intros Hrest. induction d as [|d IH|d IH|d IH|d IH|d IH|d IH|d IH|d IH|d IH|d IH];
    simpl; try (by rewrite IH).
  destruct rest as [|c rest]; simpl in *; [done|]. by rewrite Hrest.
Qed.

Lemma readUnsigned_show (d : Decimal.uint) (rest : JS.jsstring) :
  d <> Decimal.Nil -> nonDigitHead rest ->
  readUnsigned (showUint d ++ rest) = Some (d, rest).
Proof.
  intros Hd Hrest. unfold readUnsigned. rewrite readDigits_show by done.
  by destruct d.
Qed.

Lemma showUint_head (d : Decimal.uint) (rest : JS.jsstring) :
  d <> Decimal.Nil ->
  exists c s, showUint d ++ rest = c :: s /\ (c =? 45) = false.
Proof. destruct d; [done|..]; intros _; simpl; by eexists _, _. Qed.

Lemma to_int_nonnil (n : Z) :
  match Z.to_int n with
  | Decimal.Pos d | Decimal.Neg d => d <> Decimal.Nil
  end.
Proof. destruct n; simpl; [done|..]; apply Unsigned.to_uint_nonnil. Qed.

(** Reading a written number gives the number back. *)
Lemma readNumber_show (n : Z) (rest : JS.jsstring) :
  nonDigitHead rest -> readNumber (showNumber n ++ rest) = Some (n, rest).
Proof.
  intros Hrest. unfold showNumber.
  pose proof (to_int_nonnil n) as Hd. pose proof (DecimalZ.of_to n) as Hn.
  destruct (Z.to_int n) as [d|d].
  - destruct (showUint_head d rest Hd) as (c & s & Heq & Hc).
    unfold readNumber. rewrite Heq, Hc, <- Heq.
    rewrite readUnsigned_show by done. simpl. by rewrite <- Hn.
  - simpl. rewrite readUnsigned_show by done. simpl. by rewrite <- Hn.
Qed.

Lemma readField_show (key : string) (n : Z) (rest : JS.jsstring) :
  nonDigitHead rest ->
  readField key (JS.lit key ++ showNumber n ++ rest) = Some (n, rest).
Proof.
  intros Hrest. unfold readField. rewrite expect_app. simpl.
  by apply readNumber_show.
Qed.

(** The reader recovers from a char line the record the exporter wrote. *)
Lemma parseCharLine_charLine (settings : FontSettings.t) (g : Glyph) :
  parseCharLine (charLine settings g) = Some (exported settings g).
Proof.
  unfold parseCharLine, charLine.
  repeat (rewrite readField_show by reflexivity; cbn [mbind option_bind]).
  reflexivity.
Qed.

Lemma parseCharLines_fntLines (glyphs : list Glyph) (settings : FontSettings.t)
      (imageFileName : JS.jsstring) :
  parseCharLines (fntLines glyphs settings imageFileName)
  = (fun g => Some (exported settings g)) <$> glyphs.
Proof.
  unfold parseCharLines, fntLines. cbn [app drop]. rewrite drop_0.
  rewrite <- list_fmap_compose. apply list_fmap_ext.
  intros i g _. apply parseCharLine_charLine.
Qed.
Lemma splitLines_line (line text : JS.jsstring) :
  noLineFeed line -> splitLines (line ++ 10 :: text) = line :: splitLines text.
Proof.
  induction 1 as [|c line Hc Hline IH]; simpl; [done|].
  destruct (Z.eqb_spec c 10); [done|]. by rewrite IH.
Qed.

Lemma splitLines_last (line : JS.jsstring) :
  noLineFeed line -> splitLines line = [line].
Proof.
  induction 1 as [|c line Hc Hline IH]; simpl; [done|].
  destruct (Z.eqb_spec c 10); [done|]. by rewrite IH.
Qed.

(** Splitting the joined lines gives the lines back. *)
Lemma splitLines_join (lines : list JS.jsstring) :
  lines <> [] -> Forall noLineFeed lines -> splitLines (join [10] lines) = lines.
Proof.
  intros Hne Hall. induction Hall as [|line lines Hline Hlines IH]; [done|].
  destruct lines as [|line' lines]; simpl.
  - by apply splitLines_last.
  - rewrite splitLines_line by done. f_equal. by apply IH.
Qed.

Lemma noLineFeed_lit (s : string) :
  forallb (fun c => negb (c =? 10)) (JS.lit s) = true -> noLineFeed (JS.lit s).
Proof.
  unfold noLineFeed. generalize (JS.lit s). intros l.
  induction l as [|c l IH]; simpl; [constructor|].
  destruct (Z.eqb_spec c 10); simpl; [done|]. intros Hl. constructor; auto.
Qed.

Lemma noLineFeed_showUint (d : Decimal.uint) : noLineFeed (showUint d).
Proof. induction d; simpl; constructor; done. Qed.

Lemma noLineFeed_showNumber (n : Z) : noLineFeed (showNumber n).
Proof.
  unfold showNumber. destruct (Z.to_int n); [|constructor; [done|]];
    apply noLineFeed_showUint.
Qed.

Ltac no_line_feed :=
  repeat (apply Forall_app; split);
  first [ assumption
        | apply noLineFeed_showNumber
        | apply noLineFeed_lit; reflexivity
        | repeat constructor; done ].

Lemma fntLines_noLineFeed (glyphs : list Glyph) (settings : FontSettings.t)
      (imageFileName : JS.jsstring) :
  noLineFeed (FontSettings.face settings) -> noLineFeed imageFileName ->
  Forall noLineFeed (fntLines glyphs settings imageFileName).
Proof.
  intros Hface Hfile. unfold fntLines. apply Forall_app; split.
  - repeat constructor; unfold infoLine, commonLine, pageLine, charsLine, dquote;
      unfold noLineFeed; no_line_feed.
  - apply Forall_fmap, Forall_forall. intros g _. simpl.
    unfold charLine, noLineFeed. no_line_feed.
Qed.

(** C4, as the specification words it, fails: for the glyph with id 7,
    label "A" and advance 11, exported with a tracking of 3, the char line
    reads back with id 65 and xadvance 14. *)
Lemma export_roundtrip_counterexample :
  (parseCharLines (fntLines [Examples.glyphA] Examples.tracked (JS.lit "font.png"))
   = [Some (mkChar 65 2 2 10 14 0 0 14)] /\
   glyphTuple Examples.glyphA = mkChar 7 2 2 10 14 0 0 11) /\
  ~ claimedRoundTrip.
Proof.
  split; [split; by vm_compute|].
  intros Hclaim.
  specialize (Hclaim [Examples.glyphA] Examples.tracked (JS.lit "font.png")).
  vm_compute in Hclaim. discriminate.
Qed.

(** C4, amended: for every glyph list and font settings, reading the char
    lines of the export back gives, glyph by glyph and in order, the glyph's
    x, y, width, height, xoffset and yoffset unchanged, its xadvance plus the
    tracking of the settings, and as id the code of the glyph's character
    (or -1), not the glyph's own id.  That holds for the lines the exporter
    pushes, and for the lines of the text it returns when the face and the
    file name, which it copies into the header, have no line feed in them. *)
Theorem export_roundtrip (glyphs : list Glyph) (settings : FontSettings.t)
        (imageFileName : JS.jsstring) :
  let recovered :=
    (fun g => Some (mkChar (charId g) (Glyph.x g) (Glyph.y g) (Glyph.width g)
                           (Glyph.height g) (Glyph.xoffset g) (Glyph.yoffset g)
                           (Glyph.xadvance g + FontSettings.tracking settings)))
      <$> glyphs in
  parseCharLines (fntLines glyphs settings imageFileName) = recovered /\
  (noLineFeed (FontSettings.face settings) -> noLineFeed imageFileName ->
   parseExport (generateFnt glyphs settings imageFileName) = recovered).
Proof.
  intros recovered.
  assert (parseCharLines (fntLines glyphs settings imageFileName) = recovered) as Hlines.
  { rewrite parseCharLines_fntLines. apply list_fmap_ext. intros _ g _.
    unfold exported, globalTracking.
    by destruct (Z.eqb_spec (FontSettings.tracking settings) 0) as [->|]. }
  split; [done|]. intros Hface Hfile.
  unfold parseExport, generateFnt.
  rewrite splitLines_join; [done|done|by apply fntLines_noLineFeed].
Qed.

Lemma codePointAt0_charCode (s : JS.jsstring) :
  s <> [] ->
  (JS.codePointAt0 s = JS.charCodeAt0 s <-> JS.startsWithSurrogatePair s = false).
Proof.
  destruct s as [|hi [|lo s]]; [done|done|]. intros _. simpl.
  destruct (JS.isHighSurrogate hi) eqn:Hhi; simpl; [|done].
  destruct (JS.isLowSurrogate lo) eqn:Hlo; simpl; [|done].
  unfold JS.isHighSurrogate, JS.isLowSurrogate in *.
  split; [|done]. intros [= Heq]. lia.
Qed.

(** C8, as the specification words it, fails: for the glyph labelled with
    U+1F600 (code point 128512) the char line carries the id 55357, the
    first UTF-16 code unit of the label. *)
Lemma char_id_counterexample :
  (JS.wf_string (Glyph.char Examples.glyphFace) /\
   JS.codePointAt0 (Glyph.char Examples.glyphFace) = Some 128512 /\
   FntReader.id <$> parseCharLine (charLine Examples.untracked Examples.glyphFace)
   = Some 55357) /\
  ~ claimedCharId.
Proof.
  split.
  - split; [|by vm_compute]. repeat constructor; vm_compute; discriminate.
  - intros Hclaim. specialize (Hclaim Examples.untracked Examples.glyphFace).
    vm_compute in Hclaim. discriminate.
Qed.

(** C8, amended: the id of a glyph's char line is -1 when char is the empty
    string and otherwise the first UTF-16 code unit of char
    ([charCodeAt(0)]); that is the Unicode code point of the first character
    exactly when char does not start with a surrogate pair, that is, when
    the character lies in the Basic Multilingual Plane. *)
Theorem char_id (settings : FontSettings.t) (g : Glyph) :
  FntReader.id <$> parseCharLine (charLine settings g) = Some (charId g) /\
  (Glyph.char g = [] -> charId g = -1) /\
  (Glyph.char g <> [] ->
   JS.charCodeAt0 (Glyph.char g) = Some (charId g) /\
   (JS.codePointAt0 (Glyph.char g) = Some (charId g) <->
    JS.startsWithSurrogatePair (Glyph.char g) = false)).
Proof.
  split; [by rewrite parseCharLine_charLine|].
  unfold charId. destruct (Glyph.char g) as [|c s] eqn:Hc; [done|].
  split; [done|]. intros Hne. split; [done|].
  by rewrite <- (codePointAt0_charCode (c :: s)).
Qed.
End ExportFacts.

(** ** The identification handler *)

Section HandlerFacts.
Import App.
Context {World : Type}.
Variable generateContent :
  World -> list JS.jsstring -> World * GeminiService.apiOutcome.
Variable hasApiKey : bool.
Variable crop : JS.jsstring -> Glyph -> JS.jsstring.
Variables imageLoads hasContext : bool.

Local Abbreviation batchLoop := (App.batchLoop generateContent hasApiKey).
Local Abbreviation identifyGlyphs :=
  (GeminiService.identifyGlyphs generateContent hasApiKey).

(** The loop variable takes the multiples of the batch size below [n]. *)
Lemma batchStarts_spec (n i : nat) :
  i ∈ batchStarts n <-> (exists k, i = (k * BATCH_SIZE)%nat) /\ (i < n)%nat.
Proof.
  unfold batchStarts, BATCH_SIZE. change (50 - 1)%nat with 49%nat.
  pose proof (Nat.div_mod_eq (n + 49) 50) as Hdiv.
  pose proof (Nat.mod_upper_bound (n + 49) 50 ltac:(lia)) as Hmod.
  rewrite list_elem_of_fmap. split.
  - intros (k & -> & Hk). apply elem_of_seq in Hk as [_ Hk].
    split; [by exists k|lia].
  - intros [[k ->] Hlt]. exists k. split; [done|]. apply elem_of_seq. lia.
Qed.

(** The loop over a run of batches followed by another run. *)
Lemma batchLoop_app (pre post : list nat) (base64Images : list JS.jsstring)
      (allIdentifiedChars : gmap nat JS.jsstring) (world : World) :
  batchLoop (pre ++ post) base64Images allIdentifiedChars world
  = match batchLoop pre base64Images allIdentifiedChars world with
    | (world1, Some all1) => batchLoop post base64Images all1 world1
    | (world1, None) => (world1, None)
    end.
Proof.
  revert allIdentifiedChars world.
  induction pre as [|i pre IH]; intros allIdentifiedChars world; simpl; [done|].
  destruct (GeminiService.identifyGlyphs _ _ _ _) as [world1 [batchResults|]]; [|done].
  apply IH.
Qed.

(** A failing batch ends the loop: the batches after it are not requested. *)
Lemma batchLoop_abort (pre post : list nat) (i : nat)
      (base64Images : list JS.jsstring) (all1 : gmap nat JS.jsstring)
      (world world1 world2 : World) :
  batchLoop pre base64Images ∅ world = (world1, Some all1) ->
  identifyGlyphs world1 (take BATCH_SIZE (drop i base64Images)) = (world2, None) ->
  batchLoop (pre ++ i :: post) base64Images ∅ world = (world2, None).
Proof. intros Hpre Hfail. rewrite batchLoop_app, Hpre. simpl. by rewrite Hfail. Qed.

(** C3, amended: when a batch of the identification loop fails, the batches
    after it are not requested (the service is left in the state the failing
    request put it in), the failure alert is raised, the tool goes back to
    idle, and the glyph list is left as it was: the labels that the batches
    before the failing one returned are dropped with the local table that
    held them. *)
Theorem failing_batch_discards_labels
        (st : state) (world world1 world2 : World) (src : JS.jsstring)
        (base64Images : list JS.jsstring) (pre post : list nat) (i : nat)
        (all1 : gmap nat JS.jsstring) :
  imageSrc st = Some src -> src <> [] -> glyphs st <> [] ->
  extractGlyphImages crop imageLoads hasContext src (glyphs st) = Some base64Images ->
  batchStarts (length base64Images) = pre ++ i :: post ->
  batchLoop pre base64Images ∅ world = (world1, Some all1) ->
  identifyGlyphs world1 (take BATCH_SIZE (drop i base64Images)) = (world2, None) ->
  handleIdentifyChars generateContent hasApiKey crop imageLoads hasContext st world
  = (world2, mkState (imageSrc st) (glyphs st) IDLE, true).
Proof.
  intros Hsrc Hne Hglyphs Himages Hstarts Hpre Hfail.
  unfold handleIdentifyChars. rewrite Hsrc.
  destruct src as [|c src]; [done|].
  destruct (glyphs st) as [|g0 gs] eqn:Hg; [done|]. simpl length. simpl Nat.eqb.
  cbv iota. rewrite Himages, Hstarts.
  by rewrite (batchLoop_abort pre post i base64Images all1 world world1 world2).
Qed.
End HandlerFacts.

(** When every batch succeeds the labels of all batches reach the glyph
    list: the 51 glyphs of the sheet, two requests, 51 labels. *)
Example handleIdentifyChars_labels_all :
  let '(requests, st, alerted) :=
    App.handleIdentifyChars Examples.steadyService true Examples.plainCrop
                            true true Examples.sheetState 0%nat in
  requests = 2%nat /\ alerted = false /\ App.toolState st = App.IDLE /\
  Glyph.char <$> App.glyphs st = replicate 51 (JS.lit "A").
Proof. by vm_compute. Qed.

(** C3, as the specification words it, fails: on the sheet of 51 glyphs the
    first batch succeeds and labels glyph 0 with "A", the second batch fails,
    and the handler leaves glyph 0 without a label. *)
Lemma partial_labels_counterexample :
  (App.batchLoop Examples.flakyService true [0%nat] Examples.sheetImages ∅ 0%nat
   = (1%nat, Some Examples.firstBatchLabels) /\
   Examples.firstBatchLabels !! 0%nat = Some (JS.lit "A") /\
   GeminiService.identifyGlyphs Examples.flakyService true 1%nat
     (take App.BATCH_SIZE (drop 50 Examples.sheetImages)) = (2%nat, None) /\
   Glyph.char <$>
     App.glyphs (App.handleIdentifyChars Examples.flakyService true
                   Examples.plainCrop true true Examples.sheetState 0%nat).1.2 !! 0%nat
   = Some []) /\
  ~ App.retainsPartialLabels Examples.flakyService true Examples.plainCrop
      true true Examples.sheetState 0%nat.
Proof.
  split; [split_and!; by vm_compute|].
  intros Hclaim.
  specialize (Hclaim (JS.lit "sheet.png") Examples.sheetImages [0%nat] [] 50%nat
                     Examples.firstBatchLabels 1%nat 2%nat).
  assert (Glyph.char <$>
            App.glyphs (App.handleIdentifyChars Examples.flakyService true
                          Examples.plainCrop true true Examples.sheetState 0%nat).1.2
            !! 0%nat
          = Glyph.char <$>
              imap (App.relabel Examples.firstBatchLabels)
                   (App.glyphs Examples.sheetState) !! 0%nat) as Heq.
  { rewrite Hclaim; [done|reflexivity|discriminate|discriminate|reflexivity..]. }
  vm_compute in Heq. discriminate.
Qed.

(** C3, amended, on the sheet of 51 glyphs and the service that fails from
    its second request on. *)
Lemma failing_batch_discards_labels_witness :
  App.handleIdentifyChars Examples.flakyService true Examples.plainCrop true true
                          Examples.sheetState 0%nat
  = (2%nat,
     App.mkState (App.imageSrc Examples.sheetState)
                 (App.glyphs Examples.sheetState) App.IDLE,
     true).
Proof.
  apply (failing_batch_discards_labels
           Examples.flakyService true Examples.plainCrop true true
           Examples.sheetState 0%nat 1%nat 2%nat (JS.lit "sheet.png")
           Examples.sheetImages [0%nat] [] 50%nat Examples.firstBatchLabels).
  - reflexivity.
  - discriminate.
  - discriminate.
  - reflexivity.
  - reflexivity.
  - reflexivity.
  - reflexivity.
Defined.

(** * Further properties of the code *)

(** ** The merger and the rows, beyond the claims *)

Section MoreMergeFacts.
Import ImageProcessor Views.

Lemma Sorted_weaken {A} (R R' : A -> A -> Prop) (l : list A) :
  (forall a b, R a b -> R' a b) -> Sorted R l -> Sorted R' l.
Proof.
  intros HR. induction 1 as [|a l Hl IH Hhd]; constructor; [done|].
  destruct Hhd; constructor. by apply HR.
Qed.

Lemma contains_refl (g : Glyph) : contains g g.
Proof. unfold contains. lia. Qed.

Lemma contains_trans (a b c : Glyph) : contains a b -> contains b c -> contains a c.
Proof. unfold contains. lia. Qed.

Lemma mergeInto_contains (g1 g2 : Glyph) :
  contains (mergeInto g1 g2) g1 /\ contains (mergeInto g1 g2) g2.
Proof. unfold contains, mergeInto; simpl. lia. Qed.

(** The glyphs of the array after a merge: the survivor, and the glyphs
    that were at neither index. *)
Lemma mergeStep_covers (l l' : list Glyph) (g : Glyph) :
  mergeStep l l' -> g ∈ l -> exists g', g' ∈ l' /\ contains g' g.
Proof.
  intros [i j g1 g2 Hi Hj Hne Hm] Hg.
  apply list_elem_of_lookup in Hg as [k Hk].
  destruct (mergeInto_contains g1 g2) as [H1 H2].
  pose proof (mergeStep_survivor l i j g1 g2 Hi Hj Hne) as Hs.
  apply list_elem_of_lookup_2 in Hs.
  destruct (decide (k = i)) as [->|Hki].
  { exists (mergeInto g1 g2). split; [done|]. congruence. }
  destruct (decide (k = j)) as [->|Hkj].
  { exists (mergeInto g1 g2). split; [done|]. congruence. }
  exists g. split; [|apply contains_refl].
  apply list_elem_of_lookup.
  destruct (Nat.lt_ge_cases k j).
  - exists k. rewrite list_lookup_delete_lt by done.
    by rewrite list_lookup_insert_ne.
  - exists (pred k). rewrite list_lookup_delete_ge by lia.
    replace (S (pred k)) with k by lia. by rewrite list_lookup_insert_ne.
Qed.

Lemma mergeLoopFuel_covers (fuel : nat) (l : list Glyph) (g : Glyph) :
  g ∈ l -> exists g', g' ∈ mergeLoopFuel fuel l /\ contains g' g.
Proof.
  revert l g. induction fuel as [|fuel IH]; intros l g Hg; simpl.
  - exists g. split; [done|apply contains_refl].
  - assert (g ∈ sortByY l) as Hs by by apply sort_elem_of.
    destruct (mergePass (sortByY l)) as [merged|] eqn:Hp.
    + apply mergePass_Some in Hp.
      destruct (mergeStep_covers _ _ g Hp Hs) as (g1 & Hg1 & Hc1).
      destruct (IH merged g1 Hg1) as (g' & Hg' & Hc').
      exists g'. split; [done|]. by eapply contains_trans.
    + exists g. split; [done|apply contains_refl].
Qed.

Lemma mergeLoopFuel_length (fuel : nat) (l : list Glyph) :
  (length (mergeLoopFuel fuel l) <= length l)%nat.
Proof.
  revert l. induction fuel as [|fuel IH]; intros l; simpl; [done|].
  destruct (mergePass (sortByY l)) as [merged|] eqn:Hp.
  - apply mergePass_Some, mergeStep_length in Hp.
    unfold sortByY in Hp. rewrite sort_length in Hp.
    specialize (IH merged). lia.
  - unfold sortByY. by rewrite sort_length.
Qed.

(** The merger loses no ink and makes no glyph: every blob it is given lies
    within the box of a glyph it returns, it returns no more glyphs than it
    was given, in order of their top edge, and every id it returns is the id
    of a blob it was given. *)
Theorem mergeLoop_covers (rawGlyphs : list Glyph) :
  (forall g, g ∈ rawGlyphs ->
             exists g', g' ∈ mergeLoop rawGlyphs /\ contains g' g) /\
  (length (mergeLoop rawGlyphs) <= length rawGlyphs)%nat /\
  Sorted (fun a b => Glyph.y a <= Glyph.y b) (mergeLoop rawGlyphs) /\
  (forall g', g' ∈ mergeLoop rawGlyphs ->
              exists g, g ∈ rawGlyphs /\ Glyph.id g = Glyph.id g').
Proof.
  split; [intros g; apply mergeLoopFuel_covers|].
  split; [apply mergeLoopFuel_length|]. split.
  - destruct (mergeLoop_fixed rawGlyphs) as [_ <-].
    eapply Sorted_weaken; [|apply sortByY_Sorted].
    intros a b. unfold JS.inOrder. lia.
  - apply Forall_forall.
    apply (mergeLoop_Forall (fun g' => exists g, g ∈ rawGlyphs /\ Glyph.id g = Glyph.id g')).
    + intros g1 g2 Hg1 _. exact Hg1.
    + apply Forall_forall. intros g Hg. by exists g.
Qed.
End MoreMergeFacts.

Section MoreRowFacts.
Import ImageProcessor Views.

Lemma processRow_keeps (row : list Glyph) :
  exceptYoffset <$> processRow row ≡ₚ exceptYoffset <$> row.
Proof.
  unfold processRow. destruct (mathMin (Glyph.y <$> row)) as [m|] eqn:Hm.
  - rewrite <- list_fmap_compose.
    rewrite (list_fmap_ext (exceptYoffset ∘ setYoffset m) exceptYoffset)
      by (by intros ? []).
    by rewrite sort_perm.
  - by destruct row.
Qed.

Lemma processRows_keeps (rows : list (list Glyph)) :
  exceptYoffset <$> concat (processRow <$> rows) ≡ₚ exceptYoffset <$> concat rows.
Proof.
  induction rows as [|row rows IH]; simpl; [done|].
  by rewrite !fmap_app, IH, processRow_keeps.
Qed.

Lemma organizeRows_exceptYoffset (rawGlyphs : list Glyph) :
  exceptYoffset <$> organizeRows rawGlyphs ≡ₚ exceptYoffset <$> rawGlyphs.
Proof.
  unfold organizeRows. rewrite processRows_keeps, groupRows_concat.
  by rewrite sort_perm.
Qed.

(** The row organisation keeps every glyph and writes nothing but
    [yoffset]: up to order, the result has the ids, labels, boxes, x offsets
    and advances it was given, and as many glyphs. *)
Theorem organizeRows_keeps (rawGlyphs : list Glyph) :
  exceptYoffset <$> organizeRows rawGlyphs ≡ₚ exceptYoffset <$> rawGlyphs /\
  length (organizeRows rawGlyphs) = length rawGlyphs.
Proof.
  pose proof (organizeRows_exceptYoffset rawGlyphs) as Hperm.
  split; [done|].
  apply Permutation_length in Hperm. by rewrite !length_fmap in Hperm.
Qed.

(** Reading order: the result is row after row, and within a row the glyphs
    come from left to right. *)
Theorem organizeRows_order (rawGlyphs : list Glyph) :
  let rows := processRow <$> groupRows (JS.sort roughCompare rawGlyphs) in
  organizeRows rawGlyphs = concat rows /\
  Forall (fun row => row <> [] /\
                     Sorted (fun a b => Glyph.x a <= Glyph.x b) row) rows.
Proof.
  split; [done|]. apply Forall_fmap.
  eapply Forall_impl; [apply groupRows_nonempty|]. intros row Hne. simpl in *.
  destruct (mathMin_nonempty (Glyph.y <$> row)) as [m Hm]; [by destruct row|].
  rewrite (processRow_Some _ _ Hm). split.
  - intros Hnil%fmap_nil_inv. apply Hne.
    apply Permutation_nil_r. by rewrite <- (sort_perm (fun a b => Glyph.x a - Glyph.x b)), Hnil.
  - apply Sorted_fmap with (R1 := fun a b => Glyph.x a <= Glyph.x b); [done|].
    eapply Sorted_weaken; [|apply sort_Sorted; intros a b; lia].
    intros a b. unfold JS.inOrder. lia.
Qed.
End MoreRowFacts.

Section IdFacts.
Import ImageProcessor Views.
Variables (width height : Z) (data : list Z).

Lemma scanPixel_numbered (y x : Z) (st : scanState) :
  numbered st -> numbered (scanPixel width height data y st x).
Proof.
  destruct st as [[visited rawGlyphs] counter]. unfold numbered; simpl.
  intros [Hids ->].
  destruct (isVisited visited (y * width + x)); [done|].
  destruct (isContentPixel _ _ _ _ _ _ _); [|done].
  destruct (floodFill _ _ _ _ _ _) as [visited2 e].
  destruct ((0 <? _) && (0 <? _)); simpl; [|done].
  rewrite fmap_app, length_app, Hids. simpl.
  split; [|lia].
  replace (length rawGlyphs + 1)%nat with (S (length rawGlyphs)) by lia.
  by rewrite seqZ_S.
Qed.

Lemma scan_numbered (ys : list Z) (st : scanState) :
  numbered st -> numbered (fold_left (scanRow width height data) ys st).
Proof.
  revert st. induction ys as [|y ys IH]; intros st Hst; simpl; [done|].
  apply IH. unfold scanRow. generalize (seqZ 0 width). intros xs.
  revert st Hst. induction xs as [|x xs IHx]; intros st Hst; simpl; [done|].
  by apply IHx, scanPixel_numbered.
Qed.

Lemma extractBlobs_ids :
  Glyph.id <$> extractBlobs width height data
  = seqZ 0 (Z.of_nat (length (extractBlobs width height data))).
Proof.
  unfold extractBlobs.
  pose proof (scan_numbered (seqZ 0 height)
                (replicate (Z.to_nat (width * height)) false, [], 0)) as Hn.
  destruct (fold_left _ _ _) as [[visited rawGlyphs] counter].
  by apply Hn.
Qed.
(** What holds of every new blob holds of every blob the scan returns. *)
Lemma extractBlobs_Forall (P : Glyph -> Prop) :
  (forall id e w h, 0 < w -> 0 < h -> P (newBlob id e w h)) ->
  Forall P (extractBlobs width height data).
Proof.
  intros HP. unfold extractBlobs.
  assert (forall y st x, Forall P st.1.2 ->
            Forall P (scanPixel width height data y st x).1.2) as Hpixel.
  { intros y [[visited rawGlyphs] counter] x; simpl. intros Hall.
    destruct (isVisited visited (y * width + x)); [done|].
    destruct (isContentPixel _ _ _ _ _ _ _); [|done].
    destruct (floodFill _ _ _ _ _ _) as [visited2 e].
    destruct (Z.ltb_spec 0 (maxX e - minX e + 1)); simpl; [|done].
    destruct (Z.ltb_spec 0 (maxY e - minY e + 1)); simpl; [|done].
    apply Forall_app; split; [done|]. constructor; [by apply HP|constructor]. }
  assert (forall ys st, Forall P st.1.2 ->
            Forall P (fold_left (scanRow width height data) ys st).1.2) as Hfold.
  { induction ys as [|y ys IH]; intros st Hst; simpl; [done|].
    apply IH. unfold scanRow. generalize (seqZ 0 width). intros xs.
    revert st Hst. induction xs as [|x xs IHx]; intros st Hst; simpl; [done|].
    by apply IHx, Hpixel. }
  specialize (Hfold (seqZ 0 height)
                    (replicate (Z.to_nat (width * height)) false, [], 0)).
  destruct (fold_left _ _ _) as [[visited rawGlyphs] counter].
  apply Hfold. constructor.
Qed.
End IdFacts.

Section DetectIdFacts.
Import ImageProcessor Views.

Lemma mergeStep_ids (l l' : list Glyph) :
  mergeStep l l' -> Glyph.id <$> l' `sublist_of` Glyph.id <$> l.
Proof.
  intros [i j g1 g2 Hi Hj Hne Hm].
  rewrite list_fmap_delete, list_fmap_insert. simpl.
  rewrite list_insert_id by (by rewrite list_lookup_fmap, Hi).
  apply sublist_delete.
Qed.

Lemma mergeLoopFuel_NoDup (fuel : nat) (l : list Glyph) :
  NoDup (Glyph.id <$> l) -> NoDup (Glyph.id <$> mergeLoopFuel fuel l).
Proof.
  revert l. induction fuel as [|fuel IH]; intros l Hl; simpl; [done|].
  assert (NoDup (Glyph.id <$> sortByY l)) as Hs.
  { unfold sortByY. by rewrite sort_perm. }
  destruct (mergePass (sortByY l)) as [merged|] eqn:Hp; [|done].
  apply IH. apply (sublist_NoDup _ (Glyph.id <$> sortByY l)); [exact Hs|].
  by apply mergeStep_ids, mergePass_Some.
Qed.

Lemma mergeInto_unlabelled (g1 g2 : Glyph) :
  unlabelled g1 -> unlabelled g2 -> unlabelled (mergeInto g1 g2).
Proof. by intros [? ?] _. Qed.

Lemma detectGlyphs_NoDup (ctx : option ImageData.t) :
  NoDup (Glyph.id <$> detectGlyphs ctx).
Proof.
  destruct ctx as [imageData|]; simpl; [|constructor].
  set (raw := extractBlobs _ _ _).
  pose proof (organizeRows_exceptYoffset (mergeLoop raw)) as Hkeep.
  apply (fmap_Permutation (fun t => t.1.1.1.1.1.1.1)) in Hkeep.
  rewrite <- !list_fmap_compose in Hkeep.
  change (NoDup ((fun t => t.1.1.1.1.1.1.1) ∘ exceptYoffset
                   <$> organizeRows (mergeLoop raw))).
  rewrite Hkeep. apply (mergeLoopFuel_NoDup _ raw).
  unfold raw. rewrite extractBlobs_ids. apply NoDup_seqZ.
Qed.

(** The glyphs [detectGlyphs] returns have ids that differ from one another,
    no label and no horizontal offset. *)
Theorem detectGlyphs_ids (ctx : option ImageData.t) :
  NoDup (Glyph.id <$> detectGlyphs ctx) /\
  Forall (fun g => Glyph.char g = [] /\ Glyph.xoffset g = 0) (detectGlyphs ctx).
Proof.
  split; [apply detectGlyphs_NoDup|].
  destruct ctx as [imageData|]; simpl; [|constructor].
  set (raw := extractBlobs _ _ _).
  - apply Forall_forall. intros g' Hg'.
    apply organizeRows_elem_of in Hg' as (g & m & Hg & ->). simpl.
    revert g Hg. apply Forall_forall.
    apply (mergeLoop_Forall unlabelled); [apply mergeInto_unlabelled|].
    apply extractBlobs_Forall. by intros.
Qed.
End DetectIdFacts.

(** ** The scan, beyond the claims *)

Section BoundsFacts.
Import ImageProcessor Views.
Variables (width height : Z) (data : list Z).

Lemma visitNeighbor_inrange (queue : list Z) (visited : list bool) (n : Z * Z) :
  Forall (fun p => 0 <= p < width * height) queue ->
  Forall (fun p => 0 <= p < width * height)
         (visitNeighbor width height data (queue, visited) n).1.
Proof.
  intros Hq. destruct n as [nx ny]. unfold visitNeighbor.
  destruct (Z.leb_spec 0 nx); simpl; [|done].
  destruct (Z.ltb_spec nx width); simpl; [|done].
  destruct (Z.leb_spec 0 ny); simpl; [|done].
  destruct (Z.ltb_spec ny height); simpl; [|done].
  destruct (negb _); [|done].
  destruct (isContentPixel _ _ _ _ _ _ _); simpl; [|done].
  apply Forall_app; split; [done|]. constructor; [nia|constructor].
Qed.

Lemma visitNeighbors_inrange (ns : list (Z * Z)) (queue : list Z) (visited : list bool) :
  Forall (fun p => 0 <= p < width * height) queue ->
  Forall (fun p => 0 <= p < width * height)
         (fold_left (visitNeighbor width height data) ns (queue, visited)).1.
Proof.
  revert queue visited.
  induction ns as [|n ns IH]; intros queue visited Hq; cbn [fold_left]; [done|].
  pose proof (visitNeighbor_inrange queue visited n Hq) as Hq1.
  destruct (visitNeighbor width height data (queue, visited) n) as [queue1 visited1].
  by apply IH.
Qed.

Lemma stretch_in (e : extents) (cx cy : Z) :
  extentsIn width height e -> 0 <= cx < width -> 0 <= cy < height ->
  extentsIn width height (stretch e cx cy).
Proof.
  unfold extentsIn, stretch. simpl. intros He Hx Hy.
  destruct (Z.ltb_spec cx (minX e)), (Z.ltb_spec (maxX e) cx),
    (Z.ltb_spec cy (minY e)), (Z.ltb_spec (maxY e) cy); lia.
Qed.

(** The extents a flood fill returns lie within the image. *)
Lemma floodFill_extents (fuel : nat) (queue : list Z) (visited : list bool)
      (e : extents) :
  0 < width ->
  Forall (fun p => 0 <= p < width * height) queue ->
  extentsIn width height e ->
  extentsIn width height (floodFill width height data fuel queue visited e).2.
Proof.
  intros Hw. revert queue visited e.
  induction fuel as [|fuel IH]; intros queue visited e Hq He; cbn [floodFill]; [done|].
  destruct queue as [|curr queue]; [done|].
  apply Forall_cons in Hq as [Hcurr Hq].
  pose proof (visitNeighbors_inrange
                (neighbors (Z.rem curr width) (curr / width)) queue visited Hq) as Hq1.
  destruct (fold_left _ _ _) as [queue1 visited1]. simpl in Hq1.
  apply IH; [done|]. apply stretch_in; [done|..].
  - apply Z.rem_bound_pos; lia.
  - split; [apply Z.div_pos; lia|]. apply Z.div_lt_upper_bound; lia.
Qed.

Lemma scanPixel_in_image (y x : Z) (st : scanState) :
  0 <= x < width -> 0 <= y < height ->
  Forall (fun g => positiveSize g /\ inImage width height g) st.1.2 ->
  Forall (fun g => positiveSize g /\ inImage width height g)
         (scanPixel width height data y st x).1.2.
Proof.
  intros Hx Hy. destruct st as [[visited rawGlyphs] counter]; simpl. intros Hall.
  destruct (isVisited visited (y * width + x)); [done|].
  destruct (isContentPixel _ _ _ _ _ _ _); [|done].
  pose proof (floodFill_extents (Z.to_nat (width * height)) [y * width + x]
                (<[Z.to_nat (y * width + x) := true]> visited)
                (mkExtents x x y y)) as He.
  destruct (floodFill _ _ _ _ _ _) as [visited2 e]. simpl in He.
  destruct He as (HminX & HmaxX & HminY & HmaxY).
  { lia. }
  { constructor; [nia|constructor]. }
  { unfold extentsIn; simpl. lia. }
  destruct (Z.ltb_spec 0 (maxX e - minX e + 1)); simpl; [|done].
  destruct (Z.ltb_spec 0 (maxY e - minY e + 1)); simpl; [|done].
  apply Forall_app; split; [done|]. constructor; [|constructor].
  unfold positiveSize, inImage; simpl. lia.
Qed.

Lemma extractBlobs_in_image :
  Forall (fun g => positiveSize g /\ inImage width height g)
         (extractBlobs width height data).
Proof.
  unfold extractBlobs.
  assert (forall xs y st,
             Forall (fun x => 0 <= x < width) xs -> 0 <= y < height ->
             Forall (fun g => positiveSize g /\ inImage width height g) st.1.2 ->
             Forall (fun g => positiveSize g /\ inImage width height g)
                    (fold_left (scanPixel width height data y) xs st).1.2) as Hrow.
  { induction xs as [|x xs IH]; intros y st Hxs Hy Hst; simpl; [done|].
    apply Forall_cons in Hxs as [Hx Hxs].
    apply IH; [done|done|]. by apply scanPixel_in_image. }
  assert (forall ys st,
             Forall (fun y => 0 <= y < height) ys ->
             Forall (fun g => positiveSize g /\ inImage width height g) st.1.2 ->
             Forall (fun g => positiveSize g /\ inImage width height g)
                    (fold_left (scanRow width height data) ys st).1.2) as Hfold.
  { induction ys as [|y ys IH]; intros st Hys Hst; simpl; [done|].
    apply Forall_cons in Hys as [Hy Hys].
    apply IH; [done|]. apply Hrow; [|done|done].
    apply Forall_forall. intros x Hx%elem_of_seqZ. lia. }
  specialize (Hfold (seqZ 0 height)
                    (replicate (Z.to_nat (width * height)) false, [], 0)).
  destruct (fold_left _ _ _) as [[visited rawGlyphs] counter].
  apply Hfold; [|constructor].
  apply Forall_forall. intros y Hy%elem_of_seqZ. lia.
Qed.
End BoundsFacts.

Section DetectBoundsFacts.
Import ImageProcessor Views.

Lemma mergeInto_in_image (width height : Z) (g1 g2 : Glyph) :
  positiveSize g1 /\ inImage width height g1 ->
  positiveSize g2 /\ inImage width height g2 ->
  positiveSize (mergeInto g1 g2) /\ inImage width height (mergeInto g1 g2).
Proof. unfold positiveSize, inImage, mergeInto; simpl. lia. Qed.

(** Every glyph [detectGlyphs] returns has a positive width and height and
    a box that lies within the image. *)
Theorem detectGlyphs_in_image (imageData : ImageData.t) :
  Forall (fun g =>
            0 < Glyph.width g /\ 0 < Glyph.height g /\
            0 <= Glyph.x g /\ 0 <= Glyph.y g /\
            Glyph.x g + Glyph.width g <= ImageData.width imageData /\
            Glyph.y g + Glyph.height g <= ImageData.height imageData)
         (detectGlyphs (Some imageData)).
Proof.
  simpl. apply Forall_forall. intros g' Hg'.
  apply organizeRows_elem_of in Hg' as (g & m & Hg & ->). simpl.
  revert g Hg. apply Forall_forall.
  eapply Forall_impl.
  - apply (mergeLoop_Forall
             (fun g => positiveSize g /\
                       inImage (ImageData.width imageData)
                               (ImageData.height imageData) g)).
    + apply mergeInto_in_image.
    + apply extractBlobs_in_image.
  - unfold positiveSize, inImage. intros g. simpl. tauto.
Qed.
End DetectBoundsFacts.

Section UniformFacts.
Import ImageProcessor Views.

Lemma uniformData_lookup (n : nat) (r g b a : Z) (p k : nat) :
  (k < 4)%nat ->
  uniformData n r g b a !! (4 * p + k)%nat
  = if (p <? n)%nat then [r; g; b; a] !! k else None.
Proof.
  intros Hk. unfold uniformData. revert p.
  induction n as [|n IH]; intros p; [done|].
  destruct p as [|p].
  - by do 4 (destruct k as [|k]; [done|]); lia.
  - change (concat (replicate (S n) [r; g; b; a]))
      with ([r; g; b; a] ++ concat (replicate n [r; g; b; a])).
    rewrite lookup_app_r by (simpl; lia).
    replace (4 * S p + k - length [r; g; b; a])%nat with (4 * p + k)%nat
      by (simpl; lia).
    rewrite IH. by destruct (Nat.ltb_spec p n), (Nat.ltb_spec (S p) (S n)); try lia.
Qed.

(** No pixel of a uniform image is content. *)
Lemma isContentPixel_uniform (n : nat) (r g b a : Z) (q : Z) :
  0 <= q ->
  let data := uniformData n r g b a in
  isContentPixel data (q * 4) (data !! 0%nat) (data !! 1%nat) (data !! 2%nat)
                 (data !! 3%nat) defaultTolerance = false.
Proof.
  intros Hq data. unfold isContentPixel.
  replace (Z.to_nat (q * 4)) with (4 * Z.to_nat q + 0)%nat by lia.
  replace (Z.to_nat (q * 4 + 1)) with (4 * Z.to_nat q + 1)%nat by lia.
  replace (Z.to_nat (q * 4 + 2)) with (4 * Z.to_nat q + 2)%nat by lia.
  replace (Z.to_nat (q * 4 + 3)) with (4 * Z.to_nat q + 3)%nat by lia.
  change (data !! 0%nat) with (data !! (4 * 0 + 0)%nat).
  change (data !! 1%nat) with (data !! (4 * 0 + 1)%nat).
  change (data !! 2%nat) with (data !! (4 * 0 + 2)%nat).
  change (data !! 3%nat) with (data !! (4 * 0 + 3)%nat).
  unfold data. rewrite !uniformData_lookup by lia.
  destruct n as [|n]; [done|]. simpl.
  destruct (Z.to_nat q <? S n)%nat; simpl.
  - destruct a; [done|..];
      by replace ((r - r) ^ 2 + (g - g) ^ 2 + (b - b) ^ 2) with 0 by lia.
  - by destruct a.
Qed.

(** An image whose pixels all have one colour has no glyph: whatever the
    colour, and the size, the scan finds no content pixel. *)
Theorem detectGlyphs_flat_image (width height : Z) (n : nat) (r g b a : Z) :
  detectGlyphs (Some (ImageData.mk width height (uniformData n r g b a))) = [].
Proof.
  unfold detectGlyphs. cbn [ImageData.width ImageData.height ImageData.data].
  assert (extractBlobs width height (uniformData n r g b a) = []) as ->; [|done].
  unfold extractBlobs.
  assert (forall y x st, 0 <= x < width -> 0 <= y ->
             scanPixel width height (uniformData n r g b a) y st x = st) as Hpixel.
  { intros y x [[visited rawGlyphs] counter] Hx Hy. unfold scanPixel.
    destruct (isVisited visited (y * width + x)); [done|].
    pose proof (isContentPixel_uniform n r g b a (y * width + x)) as Hc.
    cbv zeta in Hc. by rewrite Hc by nia. }
  assert (forall xs y st, Forall (fun x => 0 <= x < width) xs -> 0 <= y ->
             fold_left (scanPixel width height (uniformData n r g b a) y) xs st
             = st) as Hrow.
  { induction xs as [|x xs IH]; intros y st Hxs Hy; cbn [fold_left]; [done|].
    apply Forall_cons in Hxs as [Hx Hxs]. rewrite Hpixel by done. by apply IH. }
  assert (forall ys st, Forall (fun y => 0 <= y) ys ->
             fold_left (scanRow width height (uniformData n r g b a)) ys st
             = st) as Hfold.
  { induction ys as [|y ys IH]; intros st Hys; cbn [fold_left]; [done|].
    apply Forall_cons in Hys as [Hy Hys]. unfold scanRow at 2.
    rewrite Hrow; [by apply IH| |done].
    apply Forall_forall. intros x Hx%elem_of_seqZ. lia. }
  rewrite Hfold; [done|].
  apply Forall_forall. intros y Hy%elem_of_seqZ. lia.
Qed.
End UniformFacts.

(** ** The texture packer, beyond the claims *)

Section MorePackerFacts.
Import TexturePacker Views.

Lemma totalArea_fold (items : list item) (acc : Z) :
  fold_left (fun acc it => acc + w it * h it) items acc = acc + totalArea items.
Proof.
  unfold totalArea. revert acc.
  induction items as [|it items IH]; intros acc; simpl; [lia|].
  rewrite IH, (IH (0 + _)). lia.
Qed.

Lemma totalArea_perm (items items' : list item) :
  items ≡ₚ items' -> totalArea items = totalArea items'.
Proof.
  unfold totalArea.
  induction 1 as [|it l l' Hp IH|a b l|l1 l2 l3 H12 IH12 H23 IH23]; simpl.
  - done.
  - rewrite !totalArea_fold. unfold totalArea in *. lia.
  - rewrite !totalArea_fold. lia.
  - congruence.
Qed.

(** The side covers 1.1 times the area, and is the least that does. *)
Lemma side_spec (area : Z) :
  0 <= side area /\ 11 * area <= 10 * (side area * side area) /\
  (forall k, 0 <= k -> 11 * area <= 10 * (k * k) -> side area <= k).
Proof.
  unfold side. set (c := Qceiling (inject_Z area * 1.1)).
  assert (11 * area <= 10 * c) as Hc.
  { pose proof (Qle_ceiling (inject_Z area * 1.1)) as Hle. fold c in Hle.
    unfold Qle in Hle. simpl in Hle. lia. }
  split; [apply Z.sqrt_up_nonneg|]. split.
  - destruct (Z.lt_ge_cases 0 c) as [Hpos|Hneg].
    + pose proof (Z.sqrt_up_spec c Hpos) as [_ Hup]. unfold Z.square in *. lia.
    + pose proof (Z.sqrt_up_nonneg c). nia.
  - intros k Hk Harea.
    assert (c <= k * k) as Hck.
    { rewrite <- (Qceiling_Z (k * k)). apply Qceiling_resp_le.
      unfold Qle. simpl. lia. }
    destruct (Z.lt_ge_cases c 0) as [Hneg|Hpos].
    + rewrite Z.sqrt_up_eqn0 by lia. done.
    + by apply Z.sqrt_up_le_square.
Qed.

Lemma growWidth_least (fuel : nat) (targetWidth side : Z) :
  growWidth fuel targetWidth side = targetWidth \/
  growWidth fuel targetWidth side < 2 * side.
Proof.
  revert targetWidth. induction fuel as [|fuel IH]; intros tw; simpl; [by left|].
  destruct (Z.ltb_spec tw side); [|by left].
  destruct (IH (tw * 2)) as [->|Hlt]; right; lia.
Qed.

Lemma powerOfTwo_le (a b : Z) :
  isPowerOfTwo a -> isPowerOfTwo b -> a < 2 * b -> a <= b.
Proof.
  intros (i & Hi & ->) (j & Hj & ->) Hlt.
  replace (2 * 2 ^ j) with (2 ^ (j + 1)) in Hlt
    by (rewrite Z.pow_add_r, Z.pow_1_r by lia; lia).
  apply Z.pow_lt_mono_r_iff in Hlt; [|lia|lia].
  apply Z.pow_le_mono_r; lia.
Qed.

(** The width of the atlas is the least power of two from 128 on whose
    square is at least 1.1 times the total area of the glyphs. *)
Theorem layout_width_least (glyphs : list Glyph) :
  let area := totalArea (toItem <$> glyphs) in
  let W := width (layout glyphs) in
  isPowerOfTwo W /\ 128 <= W /\ 11 * area <= 10 * (W * W) /\
  (forall k, isPowerOfTwo k -> 128 <= k -> 11 * area <= 10 * (k * k) -> W <= k).
Proof.
  intros area W.
  assert (W = chooseWidth (side area)) as HW.
  { unfold W, area. simpl. f_equal. f_equal. apply totalArea_perm, sort_perm. }
  destruct (side_spec area) as (Hs0 & Hcover & Hleast).
  destruct (chooseWidth_power (side area)) as [Hpow H128].
  pose proof (chooseWidth_reaches (side area)) as Hreach.
  rewrite HW. split; [done|]. split; [done|]. split; [nia|].
  intros k Hk Hk128 Hkarea.
  specialize (Hleast k ltac:(lia) Hkarea).
  destruct (growWidth_least (Z.to_nat (Z.log2_up (side area))) 128 (side area))
    as [Heq|Hlt]; unfold chooseWidth.
  - rewrite Heq. done.
  - apply powerOfTwo_le; [done|done|]. unfold chooseWidth in *. lia.
Qed.
Lemma placeItem_margin (targetWidth : Z) (c : cursor) (it : item) :
  marginInv c -> marginInv (placeItem targetWidth c it).
Proof.
  unfold marginInv, placeItem, padding. intros (Hy & Hh & Hall).
  destruct (targetWidth <? cur_x c + w it + 2); simpl;
    (split; [lia|]; split; [lia|]);
    (apply Forall_app; split; [done|]; constructor; [simpl; lia|constructor]).
Qed.

Lemma placeItems_margin (targetWidth : Z) (items : list item) (c : cursor) :
  marginInv c -> marginInv (fold_left (placeItem targetWidth) items c).
Proof.
  revert c. induction items as [|it items IH]; intros c Hc; simpl; [done|].
  by apply IH, placeItem_margin.
Qed.

(** Within the atlas: every placed glyph keeps the padding from the left and
    the top edge and ends at least the padding above the bottom edge; and
    when no glyph is wider than the atlas less twice the padding, every
    glyph also ends at least the padding left of the right edge. *)
Theorem packTexture_within (imageLoads hasContext : bool) (glyphs : list Glyph)
        (a : atlas) :
  Forall (fun g => 0 <= Glyph.width g) glyphs ->
  packTexture imageLoads hasContext glyphs = Some a ->
  Forall (fun g => padding <= Glyph.x g /\ padding <= Glyph.y g /\
                   Glyph.y g + Glyph.height g + padding <= height a)
         (TexturePacker.glyphs a) /\
  (Forall (fun g => Glyph.width g <= width a - 2 * padding) glyphs ->
   Forall (fun g => Glyph.x g + Glyph.width g + padding <= width a)
          (TexturePacker.glyphs a)).
Proof.
  intros Hw Hpack. unfold packTexture in Hpack.
  destruct imageLoads; [|done]. destruct hasContext; [|done].
  injection Hpack as <-.
  destruct (layout_inv glyphs Hw) as [Hinv Hitems].
  pose proof (placeItems_margin
                (chooseWidth (side (totalArea
                   (JS.sort (fun a b => h b - h a) (toItem <$> glyphs)))))
                (JS.sort (fun a b => h b - h a) (toItem <$> glyphs))
                (mkCursor padding padding 0 [])) as Hmargin.
  destruct Hmargin as (_ & _ & Hys); [unfold marginInv, padding; simpl; by repeat split|].
  set (items := JS.sort (fun a b => h b - h a) (toItem <$> glyphs)) in *.
  set (c := fold_left _ _ _) in *.
  pose proof (inv_placed _ _ Hinv) as Hplaced.
  pose proof (inv_faithful _ _ Hinv) as Hfaithful.
  split.
  - rewrite layout_glyphs_perm. fold items c. apply Forall_fmap.
    eapply Forall_impl;
      [apply Forall_and; split; [exact Hplaced|apply Forall_and; split;
                                               [exact Hfaithful|exact Hys]]|].
    intros p ((Hbottom & _ & Hx & _) & (_ & _ & Hh) & Hy). simpl.
    rewrite <- Hh. fold items c. lia.
  - intros Hfit. rewrite layout_glyphs_perm. fold items c. apply Forall_fmap.
    apply Forall_forall. intros p Hp.
    pose proof (proj1 (Forall_forall _ _) Hplaced p Hp) as (_ & _ & Hx & Hend).
    pose proof (proj1 (Forall_forall _ _) Hfaithful p Hp) as (_ & Hpw & _).
    assert (packed p ∈ items) as Hin.
    { rewrite <- Hitems. by apply list_elem_of_fmap_2. }
    unfold items in Hin. rewrite sort_elem_of in Hin.
    apply list_elem_of_fmap in Hin as (g & Hg & Hgin).
    pose proof (proj1 (Forall_forall _ _) Hfit g Hgin) as Hgw.
    simpl in Hgw |- *. fold items in Hgw. rewrite <- Hpw.
    rewrite Hg in *. simpl in *. unfold padding in *. fold items. lia.
Qed.

(** The atlas of the small sheet. *)
Lemma packTexture_within_witness :
  Forall (fun g => padding <= Glyph.x g /\ padding <= Glyph.y g /\
                   Glyph.y g + Glyph.height g + padding
                   <= height Examples.smallAtlas)
         (TexturePacker.glyphs Examples.smallAtlas) /\
  (Forall (fun g => Glyph.width g <= width Examples.smallAtlas - 2 * padding)
          Examples.smallSheet ->
   Forall (fun g => Glyph.x g + Glyph.width g + padding
                    <= width Examples.smallAtlas)
          (TexturePacker.glyphs Examples.smallAtlas)).
Proof.
  apply (packTexture_within true true Examples.smallSheet Examples.smallAtlas).
  - repeat constructor; vm_compute; discriminate.
  - reflexivity.
Defined.
Lemma strictly_sorted_unique_ids
      (l : list (Z * JS.jsstring * Z * Z * Z * Z * Z)) :
  StronglySorted (fun t u => keptId t < keptId u) l ->
  forall t u, t ∈ l -> u ∈ l -> keptId t = keptId u -> t = u.
Proof.
  induction 1 as [|v l Hl IH Hv]; intros t u Ht Hu Hid.
  - by apply elem_of_nil in Ht.
  - rewrite Forall_forall in Hv.
    apply elem_of_cons in Ht as [->|Ht]; apply elem_of_cons in Hu as [->|Hu].
    + done.
    + specialize (Hv u Hu). lia.
    + specialize (Hv t Ht). lia.
    + by apply IH.
Qed.

Lemma layout_exceptPosition (glyphs : list Glyph) :
  exceptPosition <$> TexturePacker.glyphs (layout glyphs)
  ≡ₚ exceptPosition <$> glyphs.
Proof.
  rewrite layout_glyphs_perm.
  set (items := JS.sort (fun a b => h b - h a) (toItem <$> glyphs)).
  set (c := fold_left _ _ _).
  transitivity ((fun it => exceptPosition (originalGlyph it))
                  <$> (packed <$> packedItems c)).
  { by rewrite <- !list_fmap_compose. }
  unfold c. rewrite placeItems_packed. simpl. unfold items.
  rewrite sort_perm. by rewrite <- list_fmap_compose.
Qed.

Lemma layout_sorted (glyphs : list Glyph) :
  Sorted (fun a b => Glyph.id a <= Glyph.id b)
         (TexturePacker.glyphs (layout glyphs)).
Proof.
  simpl. eapply Sorted_weaken; [|apply sort_Sorted; intros a b; lia].
  intros a b. unfold JS.inOrder. lia.
Qed.

Lemma layout_in_place (glyphs : list Glyph) :
  Sorted (fun a b => Glyph.id a < Glyph.id b) glyphs ->
  exceptPosition <$> TexturePacker.glyphs (layout glyphs)
  = exceptPosition <$> glyphs.
Proof.
  intros Hin.
  pose proof (layout_exceptPosition glyphs) as Hperm.
  pose proof (layout_sorted glyphs) as Hsorted.
  assert (Transitive (fun t u : Z * JS.jsstring * Z * Z * Z * Z * Z =>
                        keptId t <= keptId u)) as Htrans.
  { intros t u v. lia. }
  assert (Transitive (fun t u : Z * JS.jsstring * Z * Z * Z * Z * Z =>
                        keptId t < keptId u)) as Htrans'.
  { intros t u v. lia. }
  assert (Sorted (fun t u => keptId t < keptId u) (exceptPosition <$> glyphs))
    as Hstrict.
  { by apply Sorted_fmap with (R1 := fun a b => Glyph.id a < Glyph.id b). }
  apply (Sorted_unique_strong (fun t u => keptId t <= keptId u)).
  - intros t u Ht Hu Htu Hut. rewrite Hperm in Ht.
    apply (strictly_sorted_unique_ids (exceptPosition <$> glyphs));
      [by apply Sorted_StronglySorted|done|done|lia].
  - by apply Sorted_fmap with (R1 := fun a b => Glyph.id a <= Glyph.id b).
  - eapply Sorted_weaken; [|exact Hstrict]. intros t u. simpl. lia.
  - done.
Qed.

(** Packing moves glyphs and does nothing else to them: up to order the
    atlas has the glyphs it was given with their ids, labels, sizes, offsets
    and advances; its glyphs are in ascending order of id; and when the
    glyphs were given in strictly ascending order of id, they come back in
    the order they were given. *)
Theorem layout_keeps (glyphs : list Glyph) :
  exceptPosition <$> TexturePacker.glyphs (layout glyphs)
  ≡ₚ exceptPosition <$> glyphs /\
  Sorted (fun a b => Glyph.id a <= Glyph.id b) (TexturePacker.glyphs (layout glyphs)) /\
  (Sorted (fun a b => Glyph.id a < Glyph.id b) glyphs ->
   exceptPosition <$> TexturePacker.glyphs (layout glyphs)
   = exceptPosition <$> glyphs).
Proof.
  split; [apply layout_exceptPosition|].
  split; [apply layout_sorted|apply layout_in_place].
Qed.

Lemma insert_sorted_fmap {A B : Type} (f : A -> B)
      (cmpA : A -> A -> Z) (cmpB : B -> B -> Z) (a : A) (l : list A) :
  (forall a b, cmpB (f a) (f b) = cmpA a b) ->
  JS.insert_sorted cmpB (f a) (f <$> l) = f <$> JS.insert_sorted cmpA a l.
Proof.
  intros Hcmp. induction l as [|b l IH]; simpl; [done|].
  rewrite Hcmp. destruct (cmpA a b <=? 0); simpl; [done|]. f_equal. exact IH.
Qed.

(** Sorting commutes with a map the comparator does not see. *)
Lemma sort_fmap {A B : Type} (f : A -> B)
      (cmpA : A -> A -> Z) (cmpB : B -> B -> Z) (l : list A) :
  (forall a b, cmpB (f a) (f b) = cmpA a b) ->
  JS.sort cmpB (f <$> l) = f <$> JS.sort cmpA l.
Proof.
  intros Hcmp. induction l as [|a l IH]; [done|].
  rewrite fmap_cons. cbn [JS.sort]. rewrite IH. by apply insert_sorted_fmap.
Qed.

Lemma atOrigin_kept (g : Glyph) : atOrigin g = keptGlyph (exceptPosition g).
Proof. by destruct g. Qed.

Lemma totalArea_atOrigin (items : list item) :
  totalArea (itemAtOrigin <$> items) = totalArea items.
Proof.
  unfold totalArea. generalize 0.
  induction items as [|it items IH]; intros acc; simpl; [done|]. apply IH.
Qed.

Lemma placeItems_atOrigin (targetWidth : Z) (items : list item) (c : cursor) :
  fold_left (placeItem targetWidth) (itemAtOrigin <$> items) (cursorAtOrigin c)
  = cursorAtOrigin (fold_left (placeItem targetWidth) items c).
Proof.
  revert c. induction items as [|it items IH]; intros c; simpl; [done|].
  rewrite <- IH. f_equal. unfold placeItem, cursorAtOrigin. simpl.
  destruct (targetWidth <? cur_x c + w it + padding); simpl;
    by rewrite fmap_app.
Qed.

(** The layout does not read the positions the glyphs have. *)
Lemma layout_atOrigin (glyphs : list Glyph) :
  layout (atOrigin <$> glyphs) = layout glyphs.
Proof.
  unfold layout.
  assert (toItem <$> (atOrigin <$> glyphs) = itemAtOrigin <$> (toItem <$> glyphs))
    as -> by (by rewrite <- !list_fmap_compose).
  rewrite (sort_fmap itemAtOrigin (fun a b => h b - h a)) by done.
  rewrite totalArea_atOrigin.
  set (items := JS.sort (fun a b => h b - h a) _).
  set (targetWidth := chooseWidth _).
  change (mkCursor padding padding 0 [])
    with (cursorAtOrigin (mkCursor padding padding 0 [])).
  rewrite placeItems_atOrigin. set (c := fold_left _ _ _).
  unfold cursorAtOrigin. cbn [packedItems cur_y currentRowHeight].
  rewrite <- list_fmap_compose.
  by rewrite (list_fmap_ext (relocate ∘ packedAtOrigin) relocate) by done.
Qed.

Lemma layout_ext (glyphs glyphs' : list Glyph) :
  exceptPosition <$> glyphs = exceptPosition <$> glyphs' ->
  layout glyphs = layout glyphs'.
Proof.
  intros Heq. rewrite <- (layout_atOrigin glyphs), <- (layout_atOrigin glyphs').
  rewrite (list_fmap_ext atOrigin (keptGlyph ∘ exceptPosition) glyphs)
    by (intros; apply atOrigin_kept).
  rewrite (list_fmap_ext atOrigin (keptGlyph ∘ exceptPosition) glyphs')
    by (intros; apply atOrigin_kept).
  by rewrite !list_fmap_compose, Heq.
Qed.

Lemma Sorted_NoDup_strict (l : list Glyph) :
  Sorted (fun a b => Glyph.id a <= Glyph.id b) l ->
  NoDup (Glyph.id <$> l) ->
  Sorted (fun a b => Glyph.id a < Glyph.id b) l.
Proof.
  induction 1 as [|g l Hl IH Hg]; intros Hnd; [constructor|].
  simpl in Hnd. apply NoDup_cons in Hnd as [Hnotin Hnd].
  constructor; [by apply IH|].
  destruct Hg as [|g' l Hle]; constructor.
  assert (Glyph.id g <> Glyph.id g'); [|lia].
  intros Heq. apply Hnotin. rewrite Heq. simpl. apply elem_of_cons. by left.
Qed.

(** Packing its own result again settles: for glyphs with distinct ids, the
    atlas of the glyphs of an atlas is a fixed point of the packer.  When
    the glyphs were given in ascending order of id, the first atlas already
    is one.  (In any other order the second packing can move glyphs: ties in
    height are placed in the order of the list, and the first packing has
    returned the list in the order of the ids.) *)
Theorem layout_settles (glyphs : list Glyph) :
  NoDup (Glyph.id <$> glyphs) ->
  let first := layout glyphs in
  let second := layout (TexturePacker.glyphs first) in
  layout (TexturePacker.glyphs second) = second /\
  (Sorted (fun a b => Glyph.id a < Glyph.id b) glyphs -> second = first).
Proof.
  intros Hnd first second.
  assert (forall l, Sorted (fun a b => Glyph.id a < Glyph.id b) l ->
                    layout (TexturePacker.glyphs (layout l)) = layout l)
    as Hfix.
  { intros l Hl. by apply layout_ext, layout_in_place. }
  split; [|apply Hfix].
  apply Hfix. apply Sorted_NoDup_strict; [apply layout_sorted|].
  assert (Glyph.id <$> TexturePacker.glyphs first ≡ₚ Glyph.id <$> glyphs)
    as ->; [|done].
  rewrite (list_fmap_ext Glyph.id (keptId ∘ exceptPosition) glyphs) by done.
  rewrite (list_fmap_ext Glyph.id (keptId ∘ exceptPosition)
                         (TexturePacker.glyphs first)) by done.
  rewrite !list_fmap_compose. unfold first. by rewrite layout_exceptPosition.
Qed.

(** Two glyphs in descending order of id: the second atlas is a fixed
    point. *)
Lemma layout_settles_witness :
  let first := layout [Examples.blob 1 30 5 4 10; Examples.blob 0 5 5 10 14] in
  let second := layout (TexturePacker.glyphs first) in
  layout (TexturePacker.glyphs second) = second /\
  (Sorted (fun a b => Glyph.id a < Glyph.id b)
          [Examples.blob 1 30 5 4 10; Examples.blob 0 5 5 10 14] ->
   second = first).
Proof.
  apply (layout_settles [Examples.blob 1 30 5 4 10; Examples.blob 0 5 5 10 14]).
  refine (bool_decide_unpack _ _). vm_compute. exact I.
Defined.
End MorePackerFacts.

(** ** The text export, beyond the claims *)

Section MoreExportFacts.
Import FntGenerator FntReader FntHeaderReader.

Lemma fntLines_length (glyphs : list Glyph) (settings : FontSettings.t)
      (imageFileName : JS.jsstring) :
  length (fntLines glyphs settings imageFileName) = (4 + length glyphs)%nat.
Proof. unfold fntLines. rewrite length_app, length_fmap. done. Qed.

(** The header agrees with the body: the text of an export has four lines
    and then one line a glyph; its chars line states the number of glyphs,
    and its common line carries the line height, base and scale of the
    settings.  (The face and the file name are copied into the header as
    they are; they are taken to have no line feed in them.) *)
Theorem export_header (glyphs : list Glyph) (settings : FontSettings.t)
        (imageFileName : JS.jsstring) :
  noLineFeed (FontSettings.face settings) -> noLineFeed imageFileName ->
  let lines := splitLines (generateFnt glyphs settings imageFileName) in
  length lines = (4 + length glyphs)%nat /\
  lines !! 1%nat ≫= parseCommonLine
  = Some (FontSettings.lineHeight settings, FontSettings.base settings,
          FontSettings.scaleW settings, FontSettings.scaleH settings) /\
  lines !! 3%nat ≫= parseCharsCount = Some (Z.of_nat (length glyphs)).
Proof.
  intros Hface Hfile lines. unfold lines, generateFnt.
  rewrite splitLines_join; [|done|by apply fntLines_noLineFeed].
  split; [apply fntLines_length|]. unfold fntLines. simpl. split.
  - unfold parseCommonLine, commonLine.
    repeat (rewrite readField_show by reflexivity; cbn [mbind option_bind]).
    reflexivity.
  - unfold parseCharsCount, charsLine.
    rewrite <- (app_nil_r (showNumber _)).
    rewrite readField_show by exact I. reflexivity.
Qed.

(** The header of the export of one glyph. *)
Lemma export_header_witness :
  let lines := splitLines (generateFnt [Examples.glyphA] Examples.tracked
                                       (JS.lit "font.png")) in
  length lines = (4 + length [Examples.glyphA])%nat /\
  lines !! 1%nat ≫= parseCommonLine
  = Some (FontSettings.lineHeight Examples.tracked,
          FontSettings.base Examples.tracked,
          FontSettings.scaleW Examples.tracked,
          FontSettings.scaleH Examples.tracked) /\
  lines !! 3%nat ≫= parseCharsCount
  = Some (Z.of_nat (length [Examples.glyphA])).
Proof.
  apply (export_header [Examples.glyphA] Examples.tracked (JS.lit "font.png")).
  - apply noLineFeed_lit. reflexivity.
  - apply noLineFeed_lit. reflexivity.
Defined.
End MoreExportFacts.

(** ** The identification handler, beyond the claims *)

Section MoreHandlerFacts.
Import App Views.
Context {World : Type}.
Variable generateContent :
  World -> list JS.jsstring -> World * GeminiService.apiOutcome.
Variable crop : JS.jsstring -> Glyph -> JS.jsstring.

Lemma relabel_exceptChar (all : gmap nat JS.jsstring) (idx : nat) (g : Glyph) :
  exceptChar (relabel all idx g) = exceptChar g.
Proof. unfold relabel. by destruct (all !! idx) as [[|c cs]|]. Qed.

Lemma imap_relabel_exceptChar (all : gmap nat JS.jsstring) (l : list Glyph) :
  exceptChar <$> imap (relabel all) l = exceptChar <$> l.
Proof.
  apply list_eq. intros idx.
  rewrite !list_lookup_fmap, list_lookup_imap.
  destruct (l !! idx) as [g|]; simpl; [|done].
  by rewrite relabel_exceptChar.
Qed.

(** Identification writes labels and nothing else: whatever the service
    answers, and whether or not the run fails, the glyphs keep their number,
    their order and every field but [char], the image is kept, and the
    handler either returns at once or leaves the tool idle. *)
Theorem handleIdentifyChars_only_labels
        (hasApiKey imageLoads hasContext : bool) (st : state) (world : World) :
  let r := handleIdentifyChars generateContent hasApiKey crop imageLoads
                               hasContext st world in
  exceptChar <$> glyphs r.1.2 = exceptChar <$> glyphs st /\
  imageSrc r.1.2 = imageSrc st /\
  (r = (world, st, false) \/ toolState r.1.2 = IDLE).
Proof.
  unfold handleIdentifyChars.
  destruct (imageSrc st) as [[|c src]|] eqn:Hsrc; simpl; try (by rewrite ?Hsrc; auto).
  destruct (length (glyphs st) =? 0)%nat; simpl; [by rewrite Hsrc; auto|].
  destruct (extractGlyphImages _ _ _ _ _) as [base64Images|]; simpl; [|by auto].
  destruct (batchLoop _ _ _ _ _ _) as [world' [all|]]; simpl; [|by auto].
  split; [apply imap_relabel_exceptChar|by auto].
Qed.

(** The first value of the loop variable is 0. *)
Lemma batchStarts_head (n : nat) :
  (0 < n)%nat -> exists starts, batchStarts n = 0%nat :: starts.
Proof.
  intros Hn. unfold batchStarts, BATCH_SIZE. change (50 - 1)%nat with 49%nat.
  pose proof (Nat.div_mod_eq (n + 49) 50) as Hdiv.
  pose proof (Nat.mod_upper_bound (n + 49) 50 ltac:(lia)) as Hmod.
  destruct ((n + 49) / 50)%nat as [|m] eqn:Hm; [lia|].
  simpl. by eexists.
Qed.

(** Without an API key no request is made: whatever the service would
    answer, it is left in the state it was in, and the glyphs are left as
    they were. *)
Theorem no_api_key_no_request
        (imageLoads hasContext : bool) (st : state) (world : World) :
  let r := handleIdentifyChars generateContent false crop imageLoads
                               hasContext st world in
  r.1.1 = world /\ glyphs r.1.2 = glyphs st /\
  (r = (world, st, false) \/ r.2 = true).
Proof.
  unfold handleIdentifyChars.
  destruct (imageSrc st) as [[|c src]|] eqn:Hsrc; simpl; try (by auto).
  destruct (length (glyphs st) =? 0)%nat eqn:Hlen; simpl; [by auto|].
  unfold extractGlyphImages.
  destruct imageLoads, hasContext; simpl; try (by auto).
  apply Nat.eqb_neq in Hlen.
  destruct (batchStarts_head (length (crop (c :: src) <$> glyphs st)))
    as [starts ->]; [rewrite length_fmap; lia|].
  simpl. by auto.
Qed.

Lemma mergeResults_lookup (i o : nat) (cs : list JS.jsstring)
      (all : gmap nat JS.jsstring) (idx : nat) :
  mergeResults i (imap (fun k c => GeminiService.mkResult (o + k) c) cs) all !! idx
  = match (if decide (i + o <= idx)%nat then cs !! (idx - (i + o))%nat else None) with
    | Some c => Some c
    | None => all !! idx
    end.
Proof.
  revert o all. induction cs as [|c cs IH]; intros o all.
  - simpl. by destruct (decide _).
  - unfold mergeResults in *. simpl.
    rewrite (imap_ext _ (fun k c => GeminiService.mkResult (S o + k) c))
      by (intros; simpl; f_equal; lia).
    rewrite IH. replace (o + 0)%nat with o by lia.
    destruct (decide (i + S o <= idx)%nat) as [Hle|Hgt].
    + destruct (decide (i + o <= idx)%nat) as [_|]; [|lia].
      replace (idx - (i + o))%nat with (S (idx - (i + S o))) by lia. simpl.
      destruct (cs !! _); [done|].
      rewrite lookup_insert_ne by lia. done.
    + destruct (decide (i + o <= idx)%nat) as [Hle|Hlt].
      * replace idx with (i + o)%nat by lia.
        replace (i + o - (i + o))%nat with 0%nat by lia. simpl.
        by rewrite lookup_insert_eq.
      * rewrite lookup_insert_ne by lia. done.
Qed.

Section Labelling.
(** A service that answers image by image: [label] of each image of the
    request, whatever the request and the state of the service. *)
Variable label : JS.jsstring -> JS.jsstring.
Hypothesis generateContent_labels : forall world batch,
  (generateContent world batch).2 = GeminiService.CharArray (label <$> batch).

Lemma batchLoop_labels (m a : nat) (base64Images : list JS.jsstring)
      (all : gmap nat JS.jsstring) (world : World) :
  (forall idx, all !! idx
     = if decide (idx < a * BATCH_SIZE)%nat
       then label <$> base64Images !! idx else None) ->
  exists world' all',
    batchLoop generateContent true
              ((fun k => k * BATCH_SIZE)%nat <$> seq a m) base64Images all world
    = (world', Some all') /\
    forall idx, all' !! idx
      = if decide (idx < (a + m) * BATCH_SIZE)%nat
        then label <$> base64Images !! idx else None.
Proof.
  revert a all world. induction m as [|m IH]; intros a all world Hall.
  - exists world, all. split; [done|]. by replace (a + 0)%nat with a by lia.
  - simpl. unfold GeminiService.identifyGlyphs.
    pose proof (generateContent_labels world
                  (take BATCH_SIZE (drop (a * BATCH_SIZE) base64Images))) as Hgen.
    destruct (generateContent world _) as [world1 outcome]. simpl in Hgen.
    subst outcome.
    destruct (IH (S a)
                 (mergeResults (a * BATCH_SIZE)
                    (imap (fun idx c => GeminiService.mkResult idx c)
                          (label <$> take BATCH_SIZE
                                          (drop (a * BATCH_SIZE) base64Images)))
                    all) world1) as (world' & all' & Hloop & Hall').
    + intros idx.
      rewrite (imap_ext _ (fun k c => GeminiService.mkResult (0 + k) c))
        by done.
      rewrite mergeResults_lookup, Hall. unfold BATCH_SIZE.
      destruct (decide (a * 50 + 0 <= idx)%nat) as [Hle|Hlt].
      * rewrite list_lookup_fmap.
        destruct (decide (idx < S a * 50)%nat) as [Hin|Hout].
        -- rewrite lookup_take_lt by lia. rewrite lookup_drop.
           replace (a * 50 + (idx - (a * 50 + 0)))%nat with idx by lia.
           destruct (base64Images !! idx); simpl; [done|].
           destruct (decide (idx < a * 50)%nat); [lia|done].
        -- rewrite lookup_take_ge by lia. simpl.
           destruct (decide (idx < a * 50)%nat); [lia|done].
      * destruct (decide (idx < a * 50)%nat); [|lia].
        destruct (decide (idx < S a * 50)%nat); [done|lia].
    + exists world', all'. split; [exact Hloop|].
      intros idx. rewrite Hall'.
      by replace (S a + m)%nat with (a + S m)%nat by lia.
Qed.

(** Batching is invisible: with a service that answers image by image, and
    an image that loads, a run of the handler labels every glyph with the
    answer for its own crop, however many batches the glyphs are sent in;
    a glyph whose answer is empty keeps the label it had.  No alert is
    raised and the tool is left idle. *)
Theorem handleIdentifyChars_labels_each
        (st : state) (world : World) (src : JS.jsstring) :
  imageSrc st = Some src -> src <> [] -> glyphs st <> [] ->
  let r := handleIdentifyChars generateContent true crop true true st world in
  glyphs r.1.2 = (fun g => withLabel (label (crop src g)) g) <$> glyphs st /\
  imageSrc r.1.2 = imageSrc st /\ toolState r.1.2 = IDLE /\ r.2 = false.
Proof.
  intros Hsrc Hne Hglyphs. unfold handleIdentifyChars. rewrite Hsrc.
  destruct src as [|c src]; [done|].
  destruct (glyphs st) as [|g0 gs] eqn:Hg; [done|]. rewrite <- Hg.
  assert ((length (glyphs st) =? 0)%nat = false) as ->
      by (rewrite Hg; done).
  unfold extractGlyphImages, batchStarts.
  destruct (batchLoop_labels
              ((length (crop (c :: src) <$> glyphs st) + (BATCH_SIZE - 1))
               / BATCH_SIZE)%nat 0
              (crop (c :: src) <$> glyphs st) ∅ world)
    as (world' & all' & -> & Hall).
  { intros idx. rewrite lookup_empty.
    destruct (decide (idx < 0 * BATCH_SIZE)%nat) as [Hlt|]; [|done].
    simpl in Hlt. lia. }
  simpl. split; [|done]. clear Hg.
  apply list_eq. intros idx.
  rewrite list_lookup_imap, list_lookup_fmap.
  destruct (glyphs st !! idx) as [g|] eqn:Hidx; simpl; [|done].
  f_equal. unfold relabel. rewrite Hall.
  apply lookup_lt_Some in Hidx as Hlt.
  revert Hlt. unfold BATCH_SIZE. change (50 - 1)%nat with 49%nat.
  rewrite length_fmap. intros Hlt.
  pose proof (Nat.div_mod_eq (length (glyphs st) + 49) 50) as Hdiv.
  pose proof (Nat.mod_upper_bound (length (glyphs st) + 49) 50 ltac:(lia)) as Hmod.
  destruct (decide _) as [_|Hout]; [|lia].
  rewrite list_lookup_fmap, Hidx. simpl.
  unfold withLabel. by destruct (label _).
Qed.
End Labelling.
End MoreHandlerFacts.

(** The sheet of 51 glyphs and the service that answers with the first
    character of each image: every glyph gets the first digit of its id. *)
Lemma handleIdentifyChars_labels_each_witness :
  let r := App.handleIdentifyChars Examples.echoService true Examples.plainCrop
                                   true true Examples.sheetState 0%nat in
  App.glyphs r.1.2
  = (fun g => Views.withLabel
                (take 1 (Examples.plainCrop (JS.lit "sheet.png") g)) g)
      <$> App.glyphs Examples.sheetState /\
  App.imageSrc r.1.2 = App.imageSrc Examples.sheetState /\
  App.toolState r.1.2 = App.IDLE /\ r.2 = false.
Proof.
  apply (handleIdentifyChars_labels_each
           Examples.echoService Examples.plainCrop (take 1)
           (fun world batch => eq_refl) Examples.sheetState 0%nat
           (JS.lit "sheet.png")).
  - reflexivity.
  - vm_compute. discriminate.
  - vm_compute. discriminate.
Defined.

(** ** The editing handlers *)

Section EditorFacts.
Import Editor Views.

Lemma glyph_ext (g g' : Glyph) :
  idAndChar g = idAndChar g' -> geometry g = geometry g' -> g = g'.
Proof.
  destruct g, g'. unfold idAndChar, geometry. simpl. congruence.
Qed.

Lemma fold_mergeInto_keeps (rest : list Glyph) (first : Glyph) :
  let merged := fold_left ImageProcessor.mergeInto rest first in
  Glyph.id merged = Glyph.id first /\ Glyph.char merged = Glyph.char first /\
  Glyph.xoffset merged = Glyph.xoffset first /\
  Glyph.yoffset merged = Glyph.yoffset first.
Proof.
  revert first. induction rest as [|g rest IH]; intros first; simpl; [done|].
  destruct (IH (ImageProcessor.mergeInto first g)) as (-> & -> & -> & ->).
  done.
Qed.

Lemma fold_mergeInto_xadvance (rest : list Glyph) (g : Glyph) :
  Glyph.xadvance g = Glyph.width g + 1 ->
  Glyph.xadvance (fold_left ImageProcessor.mergeInto rest g)
  = Glyph.width (fold_left ImageProcessor.mergeInto rest g) + 1.
Proof.
  revert g. induction rest as [|g' rest IH]; intros g Hg; simpl; [done|].
  by apply IH.
Qed.

Lemma fold_mergeInto_contains (rest : list Glyph) (first : Glyph) :
  Forall (ImageProcessor.contains (fold_left ImageProcessor.mergeInto rest first))
         (first :: rest).
Proof.
  revert first. induction rest as [|g rest IH]; intros first; simpl.
  - constructor; [apply contains_refl|constructor].
  - specialize (IH (ImageProcessor.mergeInto first g)).
    apply Forall_cons in IH as [Hm Hrest].
    destruct (mergeInto_contains first g) as [H1 H2].
    constructor; [by eapply contains_trans|].
    constructor; [by eapply contains_trans|done].
Qed.

Lemma extend_boundsOf (g1 g2 : Glyph) :
  extend (boundsOf g1) g2 = boundsOf (ImageProcessor.mergeInto g1 g2).
Proof.
  unfold extend, boundsOf, mathMin, mathMax, ImageProcessor.mergeInto. simpl.
  f_equal; f_equal; lia.
Qed.

(** After the loop the extremes are those of the box that the automatic
    merge gives when it folds the glyphs into the first. *)
Lemma unionRect_cons (first : Glyph) (rest : list Glyph) :
  unionRect (first :: rest)
  = boundsOf (fold_left ImageProcessor.mergeInto rest first).
Proof.
  unfold unionRect. simpl.
  change (extend (mkBounds None None None None) first) with (boundsOf first).
  revert first. induction rest as [|g rest IH]; intros first; simpl; [done|].
  by rewrite extend_boundsOf, IH.
Qed.

Lemma handleMergeGlyphs_targets (st : state) (first : Glyph) (rest : list Glyph) :
  (2 <= length (selectedGlyphIds st))%nat ->
  filter (fun g => Glyph.id g ∈ selectedGlyphIds st) (glyphs st) = first :: rest ->
  exists mergedGlyph,
    handleMergeGlyphs st
    = mkState (imageSrc st) (originalFileName st)
              (filter (fun g => Glyph.id g ∉ selectedGlyphIds st) (glyphs st)
               ++ [mergedGlyph])
              [Glyph.id first] (fontSettings st) (toolState st) /\
    idAndChar mergedGlyph = idAndChar first /\
    (rest <> [] ->
     mergedGlyph = fold_left ImageProcessor.mergeInto rest first).
Proof.
  intros Hsel Htargets. unfold handleMergeGlyphs.
  assert ((length (selectedGlyphIds st) <? 2)%nat = false) as ->
      by (apply Nat.ltb_ge; lia).
  rewrite Htargets, unionRect_cons. cbv zeta. unfold boundsOf.
  eexists. split; [reflexivity|]. split; [done|].
  intros Hrest.
  destruct (fold_mergeInto_keeps rest first) as (Hid & Hchar & Hxo & Hyo).
  apply glyph_ext; unfold idAndChar, geometry; simpl.
  - by rewrite Hid, Hchar.
  - rewrite Hxo, Hyo. destruct rest as [|second rest]; [done|].
    simpl. rewrite fold_mergeInto_xadvance by done.
    repeat f_equal; lia.
Qed.

(** The manual merge is the automatic one: when two or more glyphs of the
    list are selected, [handleMergeGlyphs] replaces them by the glyph that
    [mergeInto] gives when the others are folded into the first, in the
    order of the list.  It has the id and the label of the first, its box
    contains the box of every selected glyph, it goes to the end of the
    list and it alone is selected; the glyphs that were not selected stay
    as and where they were. *)
Theorem handleMergeGlyphs_union (st : state) (first second : Glyph)
        (rest : list Glyph) :
  (2 <= length (selectedGlyphIds st))%nat ->
  filter (fun g => Glyph.id g ∈ selectedGlyphIds st) (glyphs st)
  = first :: second :: rest ->
  let merged := fold_left ImageProcessor.mergeInto (second :: rest) first in
  handleMergeGlyphs st
  = mkState (imageSrc st) (originalFileName st)
            (filter (fun g => Glyph.id g ∉ selectedGlyphIds st) (glyphs st)
             ++ [merged])
            [Glyph.id first] (fontSettings st) (toolState st) /\
  Glyph.id merged = Glyph.id first /\ Glyph.char merged = Glyph.char first /\
  Forall (ImageProcessor.contains merged) (first :: second :: rest).
Proof.
  intros Hsel Htargets merged.
  destruct (handleMergeGlyphs_targets st first (second :: rest) Hsel Htargets)
    as (mergedGlyph & -> & _ & Heq).
  rewrite (Heq ltac:(done)).
  destruct (fold_mergeInto_keeps (second :: rest) first) as (Hid & Hchar & _).
  repeat split; [done|done|]. apply fold_mergeInto_contains.
Qed.

(** The stem and the dot, merged by hand. *)
Lemma handleMergeGlyphs_union_witness :
  let merged := fold_left ImageProcessor.mergeInto [Examples.dot] Examples.stem in
  handleMergeGlyphs Examples.editing
  = mkState (imageSrc Examples.editing) (originalFileName Examples.editing)
            (filter (fun g => Glyph.id g ∉ selectedGlyphIds Examples.editing)
                    (glyphs Examples.editing)
             ++ [merged])
            [Glyph.id Examples.stem] (fontSettings Examples.editing)
            (toolState Examples.editing) /\
  Glyph.id merged = Glyph.id Examples.stem /\
  Glyph.char merged = Glyph.char Examples.stem /\
  Forall (ImageProcessor.contains merged) [Examples.stem; Examples.dot].
Proof.
  apply (handleMergeGlyphs_union Examples.editing Examples.stem Examples.dot []).
  - simpl. lia.
  - reflexivity.
Defined.

Lemma filter_ids_NoDup (P : Glyph -> Prop) `{!forall g, Decision (P g)}
      (l : list Glyph) :
  NoDup (Glyph.id <$> l) -> NoDup (Glyph.id <$> filter P l).
Proof.
  intros Hnd. apply (sublist_NoDup _ (Glyph.id <$> l)); [exact Hnd|].
  apply fmap_sublist, sublist_filter.
Qed.

Lemma keepLabel_ids (old detected : list Glyph) :
  length detected = length old ->
  idAndChar <$> imap (keepLabel old) detected = idAndChar <$> old.
Proof.
  intros Hlen. apply list_eq. intros i.
  rewrite !list_lookup_fmap, list_lookup_imap. unfold keepLabel.
  destruct (detected !! i) as [newG|] eqn:Hd; simpl.
  - destruct (lookup_lt_is_Some_2 old i) as [g Hg];
      [apply lookup_lt_Some in Hd; lia|].
    by rewrite Hg.
  - apply lookup_ge_None in Hd.
    by rewrite (proj2 (lookup_ge_None old i)) by lia.
Qed.

Lemma keepLabel_geometry (old detected : list Glyph) :
  geometry <$> imap (keepLabel old) detected = geometry <$> detected.
Proof.
  apply list_eq. intros i.
  rewrite !list_lookup_fmap, list_lookup_imap. unfold keepLabel.
  destruct (detected !! i) as [newG|]; simpl; [|done].
  by destruct (old !! i).
Qed.

Lemma ids_of_idAndChar (l : list Glyph) :
  Glyph.id <$> l = fst <$> (idAndChar <$> l).
Proof. by rewrite <- list_fmap_compose. Qed.

Lemma layout_ids (l : list Glyph) :
  Glyph.id <$> TexturePacker.glyphs (TexturePacker.layout l) ≡ₚ Glyph.id <$> l.
Proof.
  rewrite (list_fmap_ext Glyph.id (keptId ∘ exceptPosition) l) by done.
  rewrite (list_fmap_ext Glyph.id (keptId ∘ exceptPosition)
                         (TexturePacker.glyphs (TexturePacker.layout l)))
    by done.
  rewrite !list_fmap_compose. by rewrite layout_exceptPosition.
Qed.

Lemma edit_keeps_ids_distinct (st st' : state) :
  edit st st' ->
  NoDup (Glyph.id <$> glyphs st) -> NoDup (Glyph.id <$> glyphs st').
Proof.
  intros Hedit Hnd. destruct Hedit.
  - destruct file as [name|], fileRead, imageLoads; simpl; try done.
    apply detectGlyphs_NoDup.
  - unfold handleAlignBaseline.
    destruct (imageSrc st) as [[|c src]|]; [done| |done].
    destruct (decode (c :: src)) as [image|]; [|done]. simpl.
    destruct (length _ =? length _)%nat eqn:Hlen; [|apply detectGlyphs_NoDup].
    apply Nat.eqb_eq in Hlen.
    by rewrite ids_of_idAndChar, keepLabel_ids, <- ids_of_idAndChar.
  - unfold handleRepack.
    destruct (imageSrc st) as [[|c src]|]; [done| |done].
    destruct (length (glyphs st) =? 0)%nat; [done|].
    unfold TexturePacker.packTexture.
    destruct imageLoads, hasContext; try done.
    cbn [glyphs TexturePacker.glyphs]. by rewrite layout_ids.
  - simpl. assert (Glyph.id <$> ((fun g => if Glyph.id g =? Glyph.id updated
                                          then updated else g) <$> glyphs st)
                   = Glyph.id <$> glyphs st) as ->; [|done].
    rewrite <- list_fmap_compose. apply list_fmap_ext. intros i g _. simpl.
    destruct (Glyph.id g =? Glyph.id updated) eqn:Heq; [|done].
    apply Z.eqb_eq in Heq. done.
  - unfold handleDeleteGlyphs.
    destruct (selectedGlyphIds st) as [|i ids]; [done|]. simpl.
    by apply filter_ids_NoDup.
  - destruct (decide (2 <= length (selectedGlyphIds st))%nat) as [Hsel|Hsel].
    2:{ unfold handleMergeGlyphs.
        by assert ((length (selectedGlyphIds st) <? 2)%nat = true) as ->
            by (apply Nat.ltb_lt; lia). }
    destruct (filter (fun g => Glyph.id g ∈ selectedGlyphIds st) (glyphs st))
      as [|first rest] eqn:Htargets.
    { unfold handleMergeGlyphs. rewrite Htargets.
      by destruct (length (selectedGlyphIds st) <? 2)%nat. }
    destruct (handleMergeGlyphs_targets st first rest Hsel Htargets)
      as (mergedGlyph & -> & Hm & _).
    simpl. rewrite fmap_app. simpl.
    assert (Glyph.id mergedGlyph = Glyph.id first) as ->
        by (by apply (f_equal fst) in Hm).
    apply NoDup_app. split; [by apply filter_ids_NoDup|].
    split; [|apply NoDup_singleton].
    intros i Hi Hi'. apply list_elem_of_singleton in Hi'. subst i.
    apply list_elem_of_fmap in Hi as (g & Hg & Hin).
    apply list_elem_of_filter in Hin as [Hnot _].
    assert (first ∈ filter (fun g => Glyph.id g ∈ selectedGlyphIds st) (glyphs st))
      as Hfirst by (rewrite Htargets; apply elem_of_cons; by left).
    apply list_elem_of_filter in Hfirst as [Hyes _].
    apply Hnot. by rewrite <- Hg.
  - done.
Qed.

Lemma edit_keeps_image (st st' : state) :
  edit st st' ->
  (glyphs st <> [] -> imageSrc st <> None) ->
  glyphs st' <> [] -> imageSrc st' <> None.
Proof.
  intros Hedit Hinv. destruct Hedit.
  - destruct file as [name|], fileRead, imageLoads; simpl; done.
  - unfold handleAlignBaseline.
    destruct (imageSrc st) as [[|c src]|] eqn:Hsrc;
      [by rewrite Hsrc| |by intros Hne; specialize (Hinv Hne)].
    destruct (decode (c :: src)) as [image|]; simpl; by rewrite ?Hsrc.
  - unfold handleRepack.
    destruct (imageSrc st) as [[|c src]|] eqn:Hsrc;
      [by rewrite Hsrc| |by intros Hne; specialize (Hinv Hne)].
    destruct (length (glyphs st) =? 0)%nat; [by rewrite Hsrc|].
    destruct (TexturePacker.packTexture _ _ _); simpl; by rewrite ?Hsrc.
  - simpl. intros Hne. apply Hinv. intros Heq. by rewrite Heq in Hne.
  - unfold handleDeleteGlyphs.
    destruct (selectedGlyphIds st) as [|i ids]; [done|]. simpl.
    intros Hne. apply Hinv. intros Heq. by rewrite Heq in Hne.
  - unfold handleMergeGlyphs.
    destruct (length (selectedGlyphIds st) <? 2)%nat; [done|].
    destruct (filter (fun g => Glyph.id g ∈ selectedGlyphIds st) (glyphs st))
      as [|first rest] eqn:Htargets; [done|].
    assert (glyphs st <> []) as Hne.
    { intros Heq. by rewrite Heq in Htargets. }
    destruct (unionRect _) as [[?|] [?|] [?|] [?|]]; simpl; auto.
  - done.
Qed.

(** The ids of the glyphs stay distinct: in every state the editor reaches
    from its initial state by uploads, re-detections, repackings, updates of
    a glyph, deletions, manual merges and changes of the selection, no two
    glyphs of the list have the same id; and there are glyphs only when
    there is an image. *)
Theorem editor_ids_distinct (st : state) :
  reachable st ->
  NoDup (Glyph.id <$> glyphs st) /\ (glyphs st <> [] -> imageSrc st <> None).
Proof.
  induction 1 as [|st st' _ [IHnd IHimg] Hedit].
  - split; [constructor|done].
  - split; [by eapply edit_keeps_ids_distinct|by eapply edit_keeps_image].
Qed.

(** The upload of the letter image, followed by the selection and the
    manual merge of its glyphs. *)
Lemma editor_ids_distinct_witness :
  NoDup (Glyph.id <$> glyphs Examples.mergedByHand) /\
  (glyphs Examples.mergedByHand <> [] -> imageSrc Examples.mergedByHand <> None).
Proof.
  apply (editor_ids_distinct Examples.mergedByHand).
  apply (reachable_edit
           (select (Glyph.id <$> glyphs Examples.uploaded) Examples.uploaded));
    [|apply edit_merge].
  apply (reachable_edit Examples.uploaded); [|apply edit_select].
  apply (reachable_edit initial); [exact reachable_initial|apply edit_upload].
Defined.

(** An update keeps the ids of the list as they are.  When no glyph has the
    id of the update, the list is left as it is; when the ids of the list
    are distinct, the update takes the place of the glyph with its id and
    no other glyph changes. *)
Theorem handleUpdateGlyph_at (updated : Glyph) (st : state) :
  let st' := handleUpdateGlyph updated st in
  Glyph.id <$> glyphs st' = Glyph.id <$> glyphs st /\
  (Glyph.id updated ∉ Glyph.id <$> glyphs st -> glyphs st' = glyphs st) /\
  (NoDup (Glyph.id <$> glyphs st) ->
   forall i g, glyphs st !! i = Some g -> Glyph.id g = Glyph.id updated ->
               glyphs st' = <[i := updated]> (glyphs st)).
Proof.
  simpl. split; [|split].
  - rewrite <- list_fmap_compose. apply list_fmap_ext. intros i g _. simpl.
    destruct (Glyph.id g =? Glyph.id updated) eqn:Heq; [|done].
    by apply Z.eqb_eq in Heq.
  - intros Hnot. rewrite <- (list_fmap_id (glyphs st)) at 2.
    apply list_fmap_ext. intros i g Hg. simpl.
    destruct (Glyph.id g =? Glyph.id updated) eqn:Heq; [|done].
    apply Z.eqb_eq in Heq. destruct Hnot. rewrite <- Heq.
    apply list_elem_of_fmap. exists g. split; [done|].
    by apply list_elem_of_lookup_2 in Hg.
  - intros Hnd i g Hi Hid. apply list_eq. intros k.
    rewrite list_lookup_fmap.
    destruct (decide (k = i)) as [->|Hki].
    + rewrite Hi, list_lookup_insert_eq by (by apply lookup_lt_Some in Hi).
      simpl. by rewrite Hid, Z.eqb_refl.
    + rewrite list_lookup_insert_ne by done.
      destruct (glyphs st !! k) as [g'|] eqn:Hk; simpl; [|done].
      destruct (Glyph.id g' =? Glyph.id updated) eqn:Heq; [|done].
      apply Z.eqb_eq in Heq. destruct Hki.
      apply (NoDup_lookup (Glyph.id <$> glyphs st) k i (Glyph.id g) Hnd).
      * rewrite list_lookup_fmap, Hk. simpl. congruence.
      * by rewrite list_lookup_fmap, Hi.
Qed.

(** Re-detection is idempotent, and it keeps the ids and the labels of the
    list when it finds as many glyphs as the list has: running
    [handleAlignBaseline] on its own result changes nothing; after a run in
    which the image loads, every glyph has the position, size, offsets and
    advance the detection gives (edits of these are lost), and, when the
    detection finds as many glyphs as there were, the ids and labels are
    those the list had, position by position. *)
Theorem handleAlignBaseline_again
        (decode : JS.jsstring -> option ImageData.t) (hasContext : bool)
        (st : state) :
  let st' := handleAlignBaseline decode hasContext st in
  handleAlignBaseline decode hasContext st' = st' /\
  (forall src image,
     imageSrc st = Some src -> src <> [] -> decode src = Some image ->
     let detected :=
       ImageProcessor.detectGlyphs (if hasContext then Some image else None) in
     geometry <$> glyphs st' = geometry <$> detected /\
     (length detected = length (glyphs st) ->
      idAndChar <$> glyphs st' = idAndChar <$> glyphs st)).
Proof.
  unfold handleAlignBaseline.
  destruct (imageSrc st) as [[|c src]|] eqn:Hsrc.
  - rewrite Hsrc. split; [done|]. intros src image [= <-]. done.
  - destruct (decode (c :: src)) as [image|] eqn:Hdec.
    2:{ rewrite Hsrc, Hdec. split; [done|].
        intros src' image [= <-] _ Hd. congruence. }
    cbn [imageSrc glyphs]. rewrite Hdec. cbv zeta.
    set (detected := ImageProcessor.detectGlyphs _).
    cbn [originalFileName selectedGlyphIds fontSettings toolState].
    assert (geometry <$> (if (length detected =? length (glyphs st))%nat
                          then imap (keepLabel (glyphs st)) detected
                          else detected)
            = geometry <$> detected) as Hgeo.
    { destruct (_ =? _)%nat; [apply keepLabel_geometry|done]. }
    assert (length (if (length detected =? length (glyphs st))%nat
                    then imap (keepLabel (glyphs st)) detected
                    else detected) = length detected) as Hlen.
    { apply (f_equal length) in Hgeo. by rewrite !length_fmap in Hgeo. }
    split.
    + rewrite Hlen, Nat.eqb_refl. f_equal.
      apply list_eq. intros i. rewrite list_lookup_imap.
      destruct (_ =? _)%nat eqn:Heq.
      * rewrite list_lookup_imap.
        destruct (detected !! i) as [newG|] eqn:Hd; simpl; [|done].
        f_equal. unfold keepLabel at 1. rewrite list_lookup_imap, Hd.
        cbn [fmap option_fmap option_map]. unfold keepLabel.
        destruct (glyphs st !! i); [done|by destruct newG].
      * destruct (detected !! i) as [newG|] eqn:Hd; simpl; [|done].
        f_equal. unfold keepLabel. rewrite Hd. by destruct newG.
    + intros src' image' [= <-] _ Hd. rewrite Hdec in Hd.
      injection Hd as <-. split; [exact Hgeo|].
      intros Heq. fold detected in Heq. rewrite Heq, Nat.eqb_refl.
      by apply keepLabel_ids.
  - rewrite Hsrc. split; [done|]. intros src image [=].
Qed.
End EditorFacts.

(** ** File names, the export warning and the code field *)

Section NameFacts.
Import Editor Views JSString.

Lemma lastIndexOf_notin (c : Z) (s : JS.jsstring) :
  c ∉ s -> lastIndexOf c s = -1.
Proof.
  induction s as [|d s IH]; intros Hnot; simpl; [done|].
  apply not_elem_of_cons in Hnot as [Hne Hnot]. rewrite (IH Hnot). simpl.
  destruct (d =? c) eqn:Heq; [|done]. apply Z.eqb_eq in Heq. congruence.
Qed.

(** The index of the last occurrence. *)
Lemma lastIndexOf_app (c : Z) (base ext : JS.jsstring) :
  c ∉ ext -> lastIndexOf c (base ++ c :: ext) = Z.of_nat (length base).
Proof.
  intros Hnot. induction base as [|d base IH].
  - simpl. rewrite (lastIndexOf_notin c ext Hnot). simpl.
    by rewrite Z.eqb_refl.
  - cbn [app lastIndexOf length]. rewrite IH.
    destruct (0 <=? Z.of_nat (length base)) eqn:Hle; [lia|].
    apply Z.leb_gt in Hle. lia.
Qed.

Lemma substring_prefix (s : JS.jsstring) (n : nat) :
  substring s 0 (Some (Z.of_nat n)) = take n s.
Proof.
  unfold substring, clampIndex.
  replace (Z.to_nat (Z.min (Z.max 0 0) (Z.of_nat (length s)))) with 0%nat by lia.
  rewrite Nat.min_0_l, Nat.max_0_l, Nat.sub_0_r, drop_0.
  destruct (Nat.le_gt_cases n (length s)).
  - f_equal. lia.
  - rewrite !take_ge; [done|lia|lia].
Qed.

Lemma substring_suffix (s : JS.jsstring) (n : nat) :
  substring s (Z.of_nat n) None = drop n s.
Proof.
  unfold substring, clampIndex.
  destruct (Nat.le_gt_cases n (length s)).
  - replace (Z.to_nat _) with n by lia.
    rewrite Nat.min_l, Nat.max_r by lia.
    apply take_ge. rewrite length_drop. lia.
  - replace (Z.to_nat _) with (length s) by lia.
    rewrite Nat.min_id, Nat.max_id, Nat.sub_diag.
    rewrite !drop_ge; [done|lia|lia].
Qed.

Lemma substring_no_index (s : JS.jsstring) :
  substring s 0 (Some (-1)) = [] /\ substring s (-1) None = s.
Proof.
  unfold substring, clampIndex.
  replace (Z.to_nat (Z.min (Z.max 0 0) (Z.of_nat (length s)))) with 0%nat by lia.
  replace (Z.to_nat (Z.min (Z.max (-1) 0) (Z.of_nat (length s)))) with 0%nat
    by lia.
  split; [done|].
  rewrite Nat.min_0_l, Nat.max_0_l, Nat.sub_0_r, drop_0. by apply take_ge.
Qed.

(** The file names of the export, after an upload in which the file is read
    and its image loads.  A file named
    [base.ext] (the dot its last one) with a non-empty [base] gives the font
    the face [base], and the image is exported, and named in the page line,
    under the name of the file.  A name that starts with its only dot, or
    has no dot at all, becomes the face as it is, and the whole name is also
    taken for the extension: the image is exported under the name written
    twice. *)
Theorem upload_export_name (base ext src : JS.jsstring) (image : ImageData.t)
        (hasContext : bool) (st : state) :
  dot ∉ ext ->
  let dotted := handleFileUpload (Some (base ++ dot :: ext)) true src true
                                 image hasContext st in
  let plain := handleFileUpload (Some ext) true src true image hasContext st in
  match base with
  | [] => FontSettings.face (fontSettings dotted) = dot :: ext /\
          exportImageName dotted = (dot :: ext) ++ (dot :: ext)
  | _ :: _ => FontSettings.face (fontSettings dotted) = base /\
              exportImageName dotted = base ++ dot :: ext
  end /\
  FontSettings.face (fontSettings plain) = ext /\
  exportImageName plain = ext ++ ext.
Proof.
  intros Hnot. cbv zeta.
  unfold exportImageName, imageExtension, handleFileUpload, nameWithoutExt.
  cbn [fontSettings originalFileName FontSettings.face].
  rewrite (lastIndexOf_notin dot ext Hnot), (lastIndexOf_app dot base ext Hnot).
  destruct (substring_no_index ext) as [-> ->].
  rewrite substring_prefix, substring_suffix.
  rewrite take_app_length, drop_app_length.
  split; [|done]. by destruct base as [|c base].
Qed.

(** The upload of "sheet.png". *)
Lemma upload_export_name_witness :
  let dotted := handleFileUpload (Some (JS.lit "sheet" ++ dot :: JS.lit "png"))
                                 true (JS.lit "data:sheet") true
                                 Examples.letterImage true initial in
  let plain := handleFileUpload (Some (JS.lit "png")) true (JS.lit "data:sheet")
                                true Examples.letterImage true initial in
  match JS.lit "sheet" with
  | [] => FontSettings.face (fontSettings dotted) = dot :: JS.lit "png" /\
          exportImageName dotted = (dot :: JS.lit "png") ++ (dot :: JS.lit "png")
  | _ :: _ => FontSettings.face (fontSettings dotted) = JS.lit "sheet" /\
              exportImageName dotted = JS.lit "sheet" ++ dot :: JS.lit "png"
  end /\
  FontSettings.face (fontSettings plain) = JS.lit "png" /\
  exportImageName plain = JS.lit "png" ++ JS.lit "png".
Proof.
  apply (upload_export_name (JS.lit "sheet") (JS.lit "png") (JS.lit "data:sheet")
                            Examples.letterImage true initial).
  refine (bool_decide_unpack _ _). vm_compute. exact I.
Defined.

Lemma charId_missing (g : Glyph) :
  JS.wf_string (Glyph.char g) ->
  FntGenerator.charId g = -1 <-> hasNoChar g = true.
Proof.
  unfold FntGenerator.charId, hasNoChar, JS.wf_string.
  destruct (Glyph.char g) as [|c cs]; [done|].
  intros Hwf. apply Forall_cons in Hwf as [Hc _]. unfold JS.code_unit in Hc.
  split; [lia|done].
Qed.

Lemma emptyChars_missing (l : list Glyph) :
  Forall (fun g => JS.wf_string (Glyph.char g)) l ->
  (0 <? length (List.filter hasNoChar l))%nat = true <->
  Exists (fun g => FntGenerator.charId g = -1) l.
Proof.
  induction l as [|g l IH]; intros Hwf; simpl.
  - split; [done|]. intros Hex. by apply Exists_nil in Hex.
  - apply Forall_cons in Hwf as [Hg Hl]. specialize (IH Hl).
    pose proof (charId_missing g Hg) as Hc.
    rewrite Exists_cons. destruct (hasNoChar g); simpl.
    + split; [|done]. intros _. left. by apply Hc.
    + rewrite IH. split; [by right|]. intros [Hbad|Hex]; [|done].
      apply Hc in Hbad. done.
Qed.

(** The warning of the export is about the ids that the export writes.  For
    labels that are strings of code units: an export is refused only when
    the warning is declined, and the warning is shown exactly when the
    export would write the id -1 for some glyph. *)
Theorem handleExportFnt_warning (st : state) :
  Forall (fun g => JS.wf_string (Glyph.char g)) (glyphs st) ->
  handleExportFnt true st <> None /\
  (handleExportFnt false st = None <->
   Exists (fun g => FntGenerator.charId g = -1) (glyphs st)).
Proof.
  intros Hwf. unfold handleExportFnt. split.
  { rewrite andb_false_r. done. }
  rewrite andb_true_r, <- (emptyChars_missing _ Hwf).
  by destruct (0 <? _)%nat.
Qed.

(** The glyph "A" alone: no warning. *)
Lemma handleExportFnt_warning_witness :
  handleExportFnt true (mkState None (JS.lit "font.png") [Examples.glyphA] []
                                Examples.tracked App.IDLE) <> None /\
  (handleExportFnt false (mkState None (JS.lit "font.png") [Examples.glyphA] []
                                  Examples.tracked App.IDLE) = None <->
   Exists (fun g => FntGenerator.charId g = -1) [Examples.glyphA]).
Proof.
  apply (handleExportFnt_warning
           (mkState None (JS.lit "font.png") [Examples.glyphA] []
                    Examples.tracked App.IDLE)).
  repeat constructor; vm_compute; discriminate.
Defined.
End NameFacts.

Section CodeFieldFacts.
Import GlyphProperties Views.
Variable parseInt : JS.jsstring -> option Z.

(** The code typed into the ASCII field is the id of the export, modulo
    65536: for a text that [parseInt] reads as a number [code] that is not
    negative, [handleAsciiChange] passes on the glyph with a label of one
    code unit and its other fields as they were; the field then shows, and
    the export writes as the id of the glyph, [code mod 65536].  An empty
    text removes the label. *)
Theorem handleAsciiChange_exported (glyph : Glyph) (value : JS.jsstring)
        (code : Z) :
  parseInt value = Some code -> 0 <= code ->
  exists updated,
    handleAsciiChange parseInt glyph value = Some updated /\
    FntGenerator.charId updated = code mod 65536 /\
    shownCode updated = Some (code mod 65536) /\
    JS.wf_string (Glyph.char updated) /\
    exceptChar updated = exceptChar glyph /\
    (parseInt [] = None ->
     Glyph.char <$> handleAsciiChange parseInt updated [] = Some []).
Proof.
  intros Hparse Hcode. unfold handleAsciiChange. rewrite Hparse.
  assert ((0 <=? code) = true) as -> by lia.
  eexists. split; [reflexivity|]. simpl.
  repeat split; try done.
  - constructor; [|constructor]. unfold JS.code_unit.
    apply Z.mod_pos_bound. lia.
  - by intros ->.
Qed.
End CodeFieldFacts.

(** The text "65" typed for the glyph "A". *)
Lemma handleAsciiChange_exported_witness :
  exists updated,
    GlyphProperties.handleAsciiChange Examples.decimal Examples.glyphA
                                      (JS.lit "65") = Some updated /\
    FntGenerator.charId updated = 65 mod 65536 /\
    GlyphProperties.shownCode updated = Some (65 mod 65536) /\
    JS.wf_string (Glyph.char updated) /\
    Views.exceptChar updated = Views.exceptChar Examples.glyphA /\
    (Examples.decimal [] = None ->
     Glyph.char <$> GlyphProperties.handleAsciiChange Examples.decimal updated []
     = Some []).
Proof.
  apply (handleAsciiChange_exported Examples.decimal Examples.glyphA
                                    (JS.lit "65") 65).
  - reflexivity.
  - lia.
Defined.
